(** * Statement execution and pessimistic retry (executor/adapter.go)

    A shallow embedding of the statement-execution core of
    [executor/adapter.go]: [ExecStmt.Exec], the no-delay classification,
    the pessimistic DML and select-for-update loops, the shared recovery
    step [handlePessimisticLockError], the phase-duration bookkeeping and
    the two record sets ([recordSet], [chunkRowRecordSet]).

    The Go code is stateful and talks to collaborators that live outside
    the file (executor builder, operator tree, transaction manager, lock
    client, observability sinks).  The embedding is a state-and-panic
    monad over a [World]; every collaborator call is recorded in the
    world's [trace], and the collaborators' answers are given by an
    environment [Env] whose functions read the trace so far.  Failpoints,
    tracing spans and log lines other than the panic log are left out.

    Around the core, the pure parts of the reporting code are embedded
    as functions: the phase-duration observers, the query text and the
    index names of the slow log, the result fields of a record set and
    the plan getters over the statement context (whose accessors and
    planner calls are parameters).  Of the aggregate function descriptor
    ([aggregation], base function descriptor) the file embeds the
    decimal-length helpers for sums of integers, the type inference of
    APPROX_PERCENTILE and the descriptor's text. *)

From Stdlib Require Import ZArith List String Ascii Bool Lia.
From Stdlib Require Strings.Byte.
Import ListNotations.
Local Open Scope Z_scope.

(** ** Machine integers *)

(** [uint] (64-bit platforms) and [uint64]. *)
Definition wrap_uint64 (z : Z) : Z := z mod 2 ^ 64.

(** [time.Duration] is an [int64]; [+=] wraps around. *)
Definition wrap_int64 (z : Z) : Z := (z + 2 ^ 63) mod 2 ^ 64 - 2 ^ 63.

(** ** Values crossing the collaborator boundary *)

(** A value given to [panic]: a string, or anything else (an [error], a
    runtime error, ...), told apart by [r.(string)]. *)
Inductive PanicValue : Type :=
| PanicString (s : string)
| PanicOther (tag : nat).

(** Go [error] values seen by this file. *)
Inductive error : Type :=
| ErrWriteConflict                 (* kv.ErrWriteConflict *)
| ErrKeyExists                     (* kv.ErrKeyExists *)
| TikvErrDeadlock (retryable : bool) (* tikverr.ErrDeadlock, the lock client signal *)
| ErrDeadlock                      (* executor.ErrDeadlock, the reported kind *)
| ErrNew (msg : string)            (* errors.New(msg) *)
| ErrPanic (r : PanicValue)        (* errors.Errorf("%v", r) *)
| ErrTrace (e : error)             (* errors.Trace(e): e with a stack *)
| ErrExternal (code : nat).        (* any other collaborator error *)

(** [errors.Cause]: strips the wrappers. *)
Fixpoint Cause (e : error) : error :=
  match e with
  | ErrTrace e' => Cause e'
  | _ => e
  end.

(** The type test of [errors.Cause(err)] against the lock client's
    [tikverr.ErrDeadlock]. *)
Definition isTikvDeadlock (e : error) : bool :=
  match Cause e with
  | TikvErrDeadlock _ => true
  | _ => false
  end.

(** [ErrDeadlock.Equal(err)]: same class and code as [ErrDeadlock]. *)
Definition ErrDeadlock_Equal (e : error) : bool :=
  match Cause e with
  | ErrDeadlock => true
  | _ => false
  end.

Definition errRetryLimit : error :=
  ErrNew "pessimistic lock retry limit reached".
Definition errSnapshotWrite : error :=
  ErrNew "can not execute write statement when 'tidb_snapshot' is set".
Definition errLowResolutionWrite : error :=
  ErrNew "can not execute write statement when 'tidb_low_resolution_tso' is set".

(** [sessiontxn.StmtErrorAction]. *)
Inductive StmtErrorAction : Type :=
| StmtActionError
| StmtActionRetryReady
| StmtActionNoIdea.

Definition isRetryReady (a : StmtErrorAction) : bool :=
  match a with
  | StmtActionRetryReady => true
  | _ => false
  end.

(** [strings.Contains(s, sub)]. *)
Definition strings_Contains (s sub : string) : bool :=
  match String.index 0 sub s with
  | Some _ => true
  | None => false
  end.

(** A collaborator call either returns or panics. *)
Inductive Resp (A : Type) : Type :=
| RVal (a : A)
| RPanic (r : PanicValue).
Arguments RVal {A} a.
Arguments RPanic {A} r.

(** A collaborator call measured with [time.Now] / [time.Since]. *)
Record Timed (A : Type) : Type := mkTimed {
  elapsed : Z;
  outcome : Resp A
}.
Arguments mkTimed {A} elapsed outcome.
Arguments elapsed {A} t.
Arguments outcome {A} t.

(** ** Rows, chunks, keys *)

Definition Row : Type := list Z.
Definition Key : Type := list Byte.byte.

(** Modelled from the spec: [chunk.Chunk] is declared outside this file.
    A row batch is a mutable buffer of rows with a required-rows bound;
    [Reset] empties it, [IsFull] compares the row count with the bound,
    [AppendRows] adds rows at the end. *)
Record Chunk : Type := mkChunk {
  chk_rows : list Row;
  chk_requiredRows : nat
}.

Definition Chunk_NumRows (c : Chunk) : nat := List.length (chk_rows c).
Definition Chunk_RequiredRows (c : Chunk) : nat := chk_requiredRows c.
Definition Chunk_Reset (c : Chunk) : Chunk := mkChunk [] (chk_requiredRows c).
Definition Chunk_IsFull (c : Chunk) : bool :=
  Nat.eqb (Chunk_NumRows c) (chk_requiredRows c).
Definition Chunk_AppendRows (c : Chunk) (rs : list Row) : Chunk :=
  mkChunk (chk_rows c ++ rs) (chk_requiredRows c).

(** ** Executors *)

(** The concrete executor types this file switches on. *)
Inductive ExecKind : Type :=
| DeleteExec | InsertExec | UpdateExec | ReplaceExec | LoadDataExec | DDLExec
| ProjectionExec (calculateNoDelay : bool)
| ExplainExec
| OtherExec.

(** What one [Next] call on the operator tree produces. *)
Inductive NextOut : Type :=
| NRows (rows : list Row)
| NErr (e : error).

(** An operator tree as this file sees it: its type, the length of its
    schema, the result of [Open], the results of the successive [Next]
    calls (after which the tree keeps reporting an empty batch, each such
    call taking [ex_eofElapsed]), the result of [Close], the chunk size
    of [newFirstChunk], and, for an [ExplainExec], what
    [getAnalyzeExecToExecutedNoDelay] returns. *)
#[warnings="-register-all"]
Inductive Executor : Type := mkExecutor {
  ex_kind : ExecKind;
  ex_schemaLen : nat;
  ex_open : Timed (option error);
  ex_nexts : list (Timed NextOut);
  ex_eofElapsed : Z;
  ex_close : option error;
  ex_maxChunkSize : nat;
  ex_analyzeExec : option Executor
}.

Definition set_nexts (e : Executor) (l : list (Timed NextOut)) : Executor :=
  mkExecutor (ex_kind e) (ex_schemaLen e) (ex_open e) l (ex_eofElapsed e)
             (ex_close e) (ex_maxChunkSize e) (ex_analyzeExec e).

Definition isWriteExec (k : ExecKind) : bool :=
  match k with
  | DeleteExec | InsertExec | UpdateExec | ReplaceExec | LoadDataExec | DDLExec => true
  | _ => false
  end.

(** [newFirstChunk(e)]. *)
Definition newFirstChunk (e : Executor) : Chunk := mkChunk [] (ex_maxChunkSize e).

(** What [b.build(a.Plan)] and, for a prepared statement, the
    [ExecuteExec.Build] indirection leave behind in the builder. *)
Record BuildResult : Type := mkBuildResult {
  b_err : option error;                (* b.err after b.build *)
  b_isExecuteExec : bool;              (* e is an ExecuteExec *)
  b_executeBuildErr : option error;    (* executorExec.Build(b) *)
  b_exec : Executor;                   (* e, or executorExec.stmtExec *)
  b_hasLock : bool                     (* b.hasLock at the end *)
}.

(** ** Events: every collaborator call, newest first in the trace *)

Inductive Event : Type :=
| EvBuild (d : Z)                       (* b.build, measured by buildExecutor *)
| EvOpen (d : Z)                        (* e.Open, measured by openExecutor *)
| EvNext (d : Z)                        (* Next(ctx, e, req), measured by a.next *)
| EvClose                               (* e.Close *)
| EvAudit                               (* audit plugin OnGeneralEvent *)
| EvOnStmtErrorForNextAction (lockErr : error)
| EvOnStmtRetry
| EvGetStmtForUpdateTS
| EvStmtRollback
| EvResetForRetry
| EvResetOffset
| EvKeysNeedToLock
| EvLockKeys (keys : list Key) (d : Z)  (* txn.LockKeys, measured *)
| EvDetachMem
| EvDetachDisk
| EvFinishExecuteStmt (txnTS : Z) (succ : bool)
| EvObserveDeadlockDetect
| EvObserveRetryCount (n : Z)
| EvLogPanic.

Definition Trace : Type := list Event.

(** ** The world: the live [ExecStmt], the session and the trace *)

Record ExecStmt : Type := mkExecStmt {
  isPreparedStmt : bool;
  isSelectForUpdate : bool;
  retryCount : Z;
  phaseBuildDurations : Z * Z;
  phaseOpenDurations : Z * Z;
  phaseNextDurations : Z * Z;
  phaseLockDurations : Z * Z
}.

Record SessionVars : Type := mkSessionVars {
  SnapshotTS : Z;
  LowResolutionTSO : bool;
  IsPessimistic : bool;          (* TxnCtx.IsPessimistic *)
  InRestrictedSQL : bool;
  InDeleteStmt : bool;
  InUpdateStmt : bool;
  InInsertStmt : bool;
  hasMemTracker : bool;          (* StmtCtx.MemTracker != nil *)
  hasDiskTracker : bool;         (* StmtCtx.DiskTracker != nil *)
  MaxChunkSize : nat;
  FoundRows : Z;                 (* StmtCtx.FoundRows() *)
  LastFoundRows : Z
}.

Record World : Type := mkWorld {
  stmt : ExecStmt;
  vars : SessionVars;
  trace : Trace
}.

Definition set_stmt (w : World) (s : ExecStmt) : World :=
  mkWorld s (vars w) (trace w).
Definition set_vars (w : World) (v : SessionVars) : World :=
  mkWorld (stmt w) v (trace w).
Definition set_trace (w : World) (t : Trace) : World :=
  mkWorld (stmt w) (vars w) t.

(** ** The collaborators *)

(** The answers of the collaborators, each a function of the trace so
    far.  Panics are modelled where operator or client code runs on the
    drive path: the builder, [Open], [Next] and [LockKeys]. *)

Record Env : Type := mkEnv {
  MaxRetryCount : Z;     (* config.GetGlobalConfig().PessimisticTxn.MaxRetryCount *)
  PanicMemoryExceed : string;  (* memory.PanicMemoryExceed *)
  build : Trace -> Timed BuildResult;
  OnStmtErrorForNextAction : Trace -> error -> StmtErrorAction * option error;
  OnStmtRetry : Trace -> option error;
  GetStmtForUpdateTS : Trace -> Z * option error;
  Txn : Trace -> option error;             (* the error of sctx.Txn(false) *)
  txn_Valid : Trace -> bool;
  txn_StartTS : Trace -> Z;
  KeysNeedToLock : Trace -> list Key * option error;
  CollectUnchangedLockKeys : Trace -> list Key -> list Key;
  filterTemporaryTableKeys : list Key -> list Key;
  filterLockTableKeys : list Key -> list Key;
  newLockCtx : Trace -> option error;
  LockKeys : Trace -> list Key -> Timed (option error)
}.

(** ** The monad: state, panics, and fuel for the [for] loops *)

Inductive Res (A : Type) : Type :=
| Ret (a : A)
| Panic (r : PanicValue)
| OutOfFuel.
Arguments Ret {A} a.
Arguments Panic {A} r.
Arguments OutOfFuel {A}.

Definition M (A : Type) : Type := World -> World * Res A.

Definition ret {A} (a : A) : M A := fun w => (w, Ret a).

Definition bind {A B} (m : M A) (k : A -> M B) : M B :=
  fun w =>
    match m w with
    | (w1, Ret a) => k a w1
    | (w1, Panic r) => (w1, Panic r)
    | (w1, OutOfFuel) => (w1, OutOfFuel)
    end.

Declare Scope go_scope.
Delimit Scope go_scope with go.
Notation "x <- m ;; k" := (bind m (fun x => k))
  (at level 61, m at next level, right associativity) : go_scope.
Notation "m ;;; k" := (bind m (fun _ => k))
  (at level 61, right associativity) : go_scope.
Local Open Scope go_scope.

Definition emit (ev : Event) : M unit :=
  fun w => (set_trace w (ev :: trace w), Ret tt).

Definition getWorld : M World := fun w => (w, Ret w).

Definition modifyStmt (f : ExecStmt -> ExecStmt) : M unit :=
  fun w => (set_stmt w (f (stmt w)), Ret tt).

Definition modifyVars (f : SessionVars -> SessionVars) : M unit :=
  fun w => (set_vars w (f (vars w)), Ret tt).

Definition panic {A} (r : PanicValue) : M A := fun w => (w, Panic r).

Definition outOfFuel {A} : M A := fun w => (w, OutOfFuel).

(** [defer]: the deferred function runs when the body returns or panics;
    it sees the body's outcome (the named results, or the panic value
    that [recover()] would give) and decides the function's outcome. *)
Definition deferring {A} (body : M A) (d : Res A -> M (Res A)) : M A :=
  fun w =>
    match body w with
    | (w1, OutOfFuel) => (w1, OutOfFuel)
    | (w1, r) =>
        match d r w1 with
        | (w2, Ret r') => (w2, r')
        | (w2, Panic p) => (w2, Panic p)
        | (w2, OutOfFuel) => (w2, OutOfFuel)
        end
    end.

(** A deferred function that neither recovers nor touches the results. *)
Definition finally {A} (body : M A) (cleanup : M unit) : M A :=
  deferring body (fun r => cleanup ;;; ret r).

(** ** Record sets *)

(** [recordSet]: a live executor behind the cursor contract.  The [stmt]
    pointer is the world's live [ExecStmt]. *)
Record recordSet : Type := mkRecordSet {
  rs_executor : Executor;
  rs_lastErr : option error;
  rs_txnStartTS : Z
}.

(** [chunkRowRecordSet]: rows drained beforehand, replayed by [Next].
    Of the executor it points to, only the chunk parameters are used (by
    [NewChunk]); [crs_e] is that executor as it was built. *)
Record chunkRowRecordSet : Type := mkChunkRowRecordSet {
  crs_rows : list Row;
  crs_idx : nat;
  crs_e : Executor
}.

(** [sqlexec.RecordSet], the result stream handed to the caller. *)
Inductive RecordSet : Type :=
| RSExecutor (r : recordSet)
| RSRows (c : chunkRowRecordSet).

(** ** Phase durations *)

Inductive Phase : Type := PhBuild | PhOpen | PhNext | PhLock.

(** [d[0] += x]. *)
Definition addCurrent (p : Z * Z) (x : Z) : Z * Z :=
  (wrap_int64 (fst p + x), snd p).

(** [d[1] += d[0]; d[0] = 0]. *)
Definition foldCurrent (p : Z * Z) : Z * Z :=
  (0, wrap_int64 (snd p + fst p)).

Definition phaseDurations (ph : Phase) (a : ExecStmt) : Z * Z :=
  match ph with
  | PhBuild => phaseBuildDurations a
  | PhOpen => phaseOpenDurations a
  | PhNext => phaseNextDurations a
  | PhLock => phaseLockDurations a
  end.

Definition addPhase (ph : Phase) (x : Z) (a : ExecStmt) : ExecStmt :=
  match ph with
  | PhBuild =>
      mkExecStmt (isPreparedStmt a) (isSelectForUpdate a) (retryCount a)
        (addCurrent (phaseBuildDurations a) x) (phaseOpenDurations a)
        (phaseNextDurations a) (phaseLockDurations a)
  | PhOpen =>
      mkExecStmt (isPreparedStmt a) (isSelectForUpdate a) (retryCount a)
        (phaseBuildDurations a) (addCurrent (phaseOpenDurations a) x)
        (phaseNextDurations a) (phaseLockDurations a)
  | PhNext =>
      mkExecStmt (isPreparedStmt a) (isSelectForUpdate a) (retryCount a)
        (phaseBuildDurations a) (phaseOpenDurations a)
        (addCurrent (phaseNextDurations a) x) (phaseLockDurations a)
  | PhLock =>
      mkExecStmt (isPreparedStmt a) (isSelectForUpdate a) (retryCount a)
        (phaseBuildDurations a) (phaseOpenDurations a)
        (phaseNextDurations a) (addCurrent (phaseLockDurations a) x)
  end.

(** [a.retryCount++] on a [uint]. *)
Definition incRetryCount (a : ExecStmt) : ExecStmt :=
  mkExecStmt (isPreparedStmt a) (isSelectForUpdate a)
    (wrap_uint64 (retryCount a + 1))
    (phaseBuildDurations a) (phaseOpenDurations a)
    (phaseNextDurations a) (phaseLockDurations a).

Definition setBuildFlags (prepared : option bool) (sfu : bool) (a : ExecStmt)
  : ExecStmt :=
  mkExecStmt
    (match prepared with Some b => b | None => isPreparedStmt a end) sfu
    (retryCount a)
    (phaseBuildDurations a) (phaseOpenDurations a)
    (phaseNextDurations a) (phaseLockDurations a).

(** [resetPhaseDurations]. *)
Definition resetPhaseDurations_stmt (a : ExecStmt) : ExecStmt :=
  mkExecStmt (isPreparedStmt a) (isSelectForUpdate a) (retryCount a)
    (foldCurrent (phaseBuildDurations a)) (foldCurrent (phaseOpenDurations a))
    (foldCurrent (phaseNextDurations a)) (foldCurrent (phaseLockDurations a)).

Definition resetPhaseDurations : M unit := modifyStmt resetPhaseDurations_stmt.

(** [found rows] bookkeeping of [recordSet.Next]. *)
Definition setLastFoundRows (v : SessionVars) : SessionVars :=
  mkSessionVars (SnapshotTS v) (LowResolutionTSO v) (IsPessimistic v)
    (InRestrictedSQL v) (InDeleteStmt v) (InUpdateStmt v) (InInsertStmt v)
    (hasMemTracker v) (hasDiskTracker v) (MaxChunkSize v)
    (FoundRows v) (FoundRows v).

Definition addFoundRows (n : Z) (v : SessionVars) : SessionVars :=
  mkSessionVars (SnapshotTS v) (LowResolutionTSO v) (IsPessimistic v)
    (InRestrictedSQL v) (InDeleteStmt v) (InUpdateStmt v) (InInsertStmt v)
    (hasMemTracker v) (hasDiskTracker v) (MaxChunkSize v)
    (wrap_uint64 (FoundRows v + n)) (LastFoundRows v).

(** ** The program *)

Section Program.

Variable env : Env.

(** Calling a collaborator that may panic. *)
Definition call {A} (r : Resp A) : M A :=
  match r with
  | RVal a => ret a
  | RPanic p => panic p
  end.

(** [e.Close()]. *)
Definition closeExecutor (e : Executor) : M (option error) :=
  emit EvClose ;;; ret (ex_close e).

(** [logAudit]: nothing for internal SQL, else the audit plugins'
    general-event hook. *)
Definition logAudit : M unit :=
  w <- getWorld ;;
  if InRestrictedSQL (vars w) then ret tt else emit EvAudit.

(** [buildExecutor].  The statement-priority assignments and the
    prepared statement's plan, text and output names are not tracked;
    the duration is added by the deferred function, also on a panic. *)
Definition buildExecutor : M (Executor + error) :=
  w0 <- getWorld ;;
  let t := build env (trace w0) in
  finally
    (b <- call (outcome t) ;;
     match b_err b with
     | Some err => ret (inr (ErrTrace err))
     | None =>
         w <- getWorld ;;
         let sfu := b_hasLock b
                    && (negb (InDeleteStmt (vars w)) && negb (InUpdateStmt (vars w))
                        && negb (InInsertStmt (vars w))) in
         if b_isExecuteExec b then
           match b_executeBuildErr b with
           | Some err => ret (inr err)
           | None =>
               modifyStmt (setBuildFlags (Some true) sfu) ;;;
               ret (inl (b_exec b))
           end
         else
           modifyStmt (setBuildFlags None sfu) ;;;
           ret (inl (b_exec b))
     end)
    (modifyStmt (addPhase PhBuild (elapsed t)) ;;; emit (EvBuild (elapsed t))).

(** [openExecutor]. *)
Definition openExecutor (e : Executor) : M (option error) :=
  err <- call (outcome (ex_open e)) ;;
  modifyStmt (addPhase PhOpen (elapsed (ex_open e))) ;;;
  emit (EvOpen (elapsed (ex_open e))) ;;;
  ret err.

(** [a.next]: one [Next] call on the tree, filling [req]. *)
Definition next (e : Executor) (req : Chunk)
  : M (Executor * Chunk * option error) :=
  match ex_nexts e with
  | [] =>
      modifyStmt (addPhase PhNext (ex_eofElapsed e)) ;;;
      emit (EvNext (ex_eofElapsed e)) ;;;
      ret (e, Chunk_Reset req, None)
  | t :: rest =>
      out <- call (outcome t) ;;
      modifyStmt (addPhase PhNext (elapsed t)) ;;;
      emit (EvNext (elapsed t)) ;;;
      match out with
      | NRows rows =>
          ret (set_nexts e rest, Chunk_AppendRows (Chunk_Reset req) rows, None)
      | NErr err => ret (set_nexts e rest, Chunk_Reset req, Some err)
      end
  end.

(** [handleNoDelayExecutor]. *)
Definition handleNoDelayExecutor (e : Executor)
  : M (option RecordSet * option error) :=
  finally
    (w <- getWorld ;;
     if isWriteExec (ex_kind e) && negb (SnapshotTS (vars w) =? 0) then
       ret (None, Some errSnapshotWrite)
     else if isWriteExec (ex_kind e) && LowResolutionTSO (vars w) then
       ret (None, Some errLowResolutionWrite)
     else
       r <- next e (newFirstChunk e) ;;
       ret (None, snd r))
    (closeExecutor e ;;; logAudit).

(** The deferred function of [handlePessimisticLockError]: an error
    whose cause is the lock client's deadlock becomes [ErrDeadlock]. *)
Definition reportDeadlock (r : Res (option Executor * option error))
  : Res (option Executor * option error) :=
  match r with
  | Ret (e, Some err) =>
      if isTikvDeadlock err then Ret (e, Some ErrDeadlock) else r
  | _ => r
  end.

(** The body of [handlePessimisticLockError] for a non-nil [lockErr]. *)
Definition recoveryBody (lockErr : error)
  : M (option Executor * option error) :=
  w <- getWorld ;;
  let verdict := OnStmtErrorForNextAction env (trace w) lockErr in
  emit (EvOnStmtErrorForNextAction lockErr) ;;;
  match snd verdict with
  | Some err => ret (None, Some err)
  | None =>
  if negb (isRetryReady (fst verdict)) then ret (None, Some lockErr)
  else
  if MaxRetryCount env <=? retryCount (stmt w) then
    ret (None, Some errRetryLimit)
  else
  modifyStmt incRetryCount ;;;
  w <- getWorld ;;
  let retryErr := OnStmtRetry env (trace w) in
  emit EvOnStmtRetry ;;;
  match retryErr with
  | Some err => ret (None, Some err)
  | None =>
  w <- getWorld ;;
  let ts := GetStmtForUpdateTS env (trace w) in
  emit EvGetStmtForUpdateTS ;;;
  match snd ts with
  | Some err => ret (None, Some err)
  | None =>
  resetPhaseDurations ;;;
  b <- buildExecutor ;;
  match b with
  | inr err => ret (None, Some err)
  | inl e =>
  emit EvStmtRollback ;;;
  emit EvResetForRetry ;;;
  emit EvResetOffset ;;;
  openErr <- openExecutor e ;;
  match openErr with
  | Some err => ret (None, Some err)
  | None => ret (Some e, None)
  end end end end end.

(** [handlePessimisticLockError]. *)
Definition handlePessimisticLockError (lockErr : option error)
  : M (option Executor * option error) :=
  match lockErr with
  | None => ret (None, None)
  | Some lockErr =>
      deferring (recoveryBody lockErr) (fun r => ret (reportDeadlock r))
  end.

(** The number of recoveries the retry budget still allows, plus one:
    every turn of the two retry loops that does not return has raised
    [retryCount], which never passes [MaxRetryCount]. *)
Definition retryFuel (w : World) : nat :=
  S (Z.to_nat (MaxRetryCount env - retryCount (stmt w))).

(** What [handlePessimisticDML] does with the outcome of the recovery
    step, at both places where it calls it: report a deadlock to the
    metrics and return the error, or go round again with the fresh
    executor. *)
Definition afterLockError (again : Executor -> M (option error))
  (r : option Executor * option error) : M (option error) :=
  match snd r with
  | Some err =>
      (if ErrDeadlock_Equal err then emit EvObserveDeadlockDetect else ret tt) ;;;
      ret (Some err)
  | None =>
      match fst r with
      | Some e => again e
      | None => panic (PanicOther 0) (* e is nil: nil dereference in the next turn *)
      end
  end.

(** The [for] loop of [handlePessimisticDML].  The lock-keys execution
    details merged into the statement context are not tracked. *)
Fixpoint pessimisticDMLLoop (fuel : nat) (e : Executor) : M (option error) :=
  match fuel with
  | O => outOfFuel
  | S fuel' =>
      r <- handleNoDelayExecutor e ;;
      w <- getWorld ;;
      if negb (txn_Valid env (trace w)) then ret (snd r)
      else
      match snd r with
      | Some err =>
          rec <- handlePessimisticLockError (Some err) ;;
          afterLockError (pessimisticDMLLoop fuel') rec
      | None =>
          let keysRes := KeysNeedToLock env (trace w) in
          emit EvKeysNeedToLock ;;;
          match snd keysRes with
          | Some err1 => ret (Some err1)
          | None =>
          w <- getWorld ;;
          let keys := CollectUnchangedLockKeys env (trace w) (fst keysRes) in
          if (List.length keys =? 0)%nat then ret None
          else
          let keys := filterTemporaryTableKeys env keys in
          let keys := filterLockTableKeys env keys in
          match newLockCtx env (trace w) with
          | Some err => ret (Some err)
          | None =>
          let t := LockKeys env (trace w) keys in
          lockErr <- call (outcome t) ;;
          modifyStmt (addPhase PhLock (elapsed t)) ;;;
          emit (EvLockKeys keys (elapsed t)) ;;;
          match lockErr with
          | None => ret None
          | Some err =>
              rec <- handlePessimisticLockError (Some err) ;;
              afterLockError (pessimisticDMLLoop fuel') rec
          end end end
      end
  end.

(** [handlePessimisticDML]. *)
Definition handlePessimisticDML (e : Executor) : M (option error) :=
  w <- getWorld ;;
  match Txn env (trace w) with
  | Some err => ret (Some err)
  | None => pessimisticDMLLoop (retryFuel w) e
  end.

(** [chunk.Renew(req, maxChunkSize)]: a fresh, empty chunk. *)
Definition Chunk_Renew (req : Chunk) (maxChunkSize : nat) : Chunk :=
  mkChunk [] maxChunkSize.

(** The inner [for] loop of [runPessimisticSelectForUpdate]. *)
Fixpoint collectRows (fuel : nat) (e0 e : Executor) (req : Chunk)
  (rows : list Row) : M (option RecordSet * option error) :=
  match fuel with
  | O => outOfFuel
  | S fuel' =>
      r <- next e req ;;
      match snd r with
      | Some err => ret (None, Some err)
      | None =>
          let e1 := fst (fst r) in
          let req1 := snd (fst r) in
          if (Chunk_NumRows req1 =? 0)%nat then
            ret (Some (RSRows (mkChunkRowRecordSet rows 0 e0)), None)
          else
            w <- getWorld ;;
            collectRows fuel' e0 e1 (Chunk_Renew req1 (MaxChunkSize (vars w)))
                        (rows ++ chk_rows req1)
      end
  end.

(** [runPessimisticSelectForUpdate]. *)
Definition runPessimisticSelectForUpdate (e : Executor)
  : M (option RecordSet * option error) :=
  finally
    (collectRows (S (List.length (ex_nexts e))) e e (newFirstChunk e) [])
    (closeExecutor e ;;; ret tt).

(** The [for] loop of [handlePessimisticSelectForUpdate]. *)
Fixpoint selectForUpdateLoop (fuel : nat) (e : Executor)
  : M (option RecordSet * option error) :=
  match fuel with
  | O => outOfFuel
  | S fuel' =>
      r <- runPessimisticSelectForUpdate e ;;
      rec <- handlePessimisticLockError (snd r) ;;
      match snd rec with
      | Some err => ret (None, Some err)
      | None =>
          match fst rec with
          | None => ret (fst r, None)
          | Some e' => selectForUpdateLoop fuel' e'
          end
      end
  end.

(** [handlePessimisticSelectForUpdate]. *)
Definition handlePessimisticSelectForUpdate (e : Executor)
  : M (option RecordSet * option error) :=
  w <- getWorld ;;
  if negb (SnapshotTS (vars w) =? 0) then
    closeExecutor e ;;; ret (None, Some errSnapshotWrite)
  else selectForUpdateLoop (retryFuel w) e.

(** The deferred tracker detachment of [handleNoDelay] and the one of
    [CloseRecordSet]. *)
Definition detachMemThenDisk : M unit :=
  w <- getWorld ;;
  (if hasMemTracker (vars w) then emit EvDetachMem else ret tt) ;;;
  (if hasDiskTracker (vars w) then emit EvDetachDisk else ret tt).

Definition detachDiskThenMem : M unit :=
  w <- getWorld ;;
  (if hasDiskTracker (vars w) then emit EvDetachDisk else ret tt) ;;;
  (if hasMemTracker (vars w) then emit EvDetachMem else ret tt).

(** The executor [handleNoDelay] inspects: the analyzed statement of an
    EXPLAIN ANALYZE that is still to run, else the executor itself. *)
Definition toCheck (e : Executor) : Executor * bool :=
  match ex_kind e, ex_analyzeExec e with
  | ExplainExec, Some analyze => (analyze, true)
  | _, _ => (e, false)
  end.

Definition isCalculateNoDelay (e : Executor) : bool :=
  match ex_kind e with
  | ProjectionExec b => b
  | _ => false
  end.

(** [handleNoDelay].  The statement context is never nil here ([Exec]
    has dereferenced it); [rs] is nil on a panic. *)
Definition handleNoDelay (e : Executor) (isPessimistic : bool)
  : M (bool * option RecordSet * option error) :=
  deferring
    (let tc := fst (toCheck e) in
     let isExplainAnalyze := snd (toCheck e) in
     if (ex_schemaLen tc =? 0)%nat then
       let handled := negb isExplainAnalyze in
       if isPessimistic then
         err <- handlePessimisticDML tc ;;
         ret (handled, None, err)
       else
         r <- handleNoDelayExecutor tc ;;
         ret (handled, fst r, snd r)
     else if isCalculateNoDelay tc then
       r <- handleNoDelayExecutor e ;;
       ret (true, fst r, snd r)
     else ret (false, None, None))
    (fun r =>
       match r with
       | Ret (_, Some _, _) => ret r
       | _ => detachMemThenDisk ;;; ret r
       end).

(** The body of [Exec], before its deferred [recover].  The session
    settings for internal ANALYZE, the memory-quota hint, Top SQL and the
    process info are not tracked. *)
Definition ExecBody : M (option RecordSet * option error) :=
  b <- buildExecutor ;;
  match b with
  | inr err => ret (None, Some err)
  | inl e =>
      openErr <- openExecutor e ;;
      match openErr with
      | Some err => closeExecutor e ;;; ret (None, Some err)
      | None =>
          w <- getWorld ;;
          let isPessimistic := IsPessimistic (vars w) in
          if isPessimistic && isSelectForUpdate (stmt w) then
            handlePessimisticSelectForUpdate e
          else
            h <- handleNoDelay e isPessimistic ;;
            match h with
            | (handled, result, err) =>
                if handled || (match err with Some _ => true | None => false end)
                then ret (result, err)
                else
                  w <- getWorld ;;
                  match Txn env (trace w) with
                  | Some err => ret (None, Some err)
                  | None =>
                      let txnStartTS :=
                        if txn_Valid env (trace w) then txn_StartTS env (trace w)
                        else 0 in
                      ret (Some (RSExecutor (mkRecordSet e None txnStartTS)), None)
                  end
            end
      end
  end.

(** [r.(string)] with [strings.Contains(str, memory.PanicMemoryExceed)]. *)
Definition isMemoryExceedPanic (r : PanicValue) : bool :=
  match r with
  | PanicString s => strings_Contains s (PanicMemoryExceed env)
  | PanicOther _ => false
  end.

(** The deferred function of [Exec].  Of the two metrics observed when
    nothing panicked, the retry count is tracked, the lock-keys count is
    not. *)
Definition ExecDeferred (r : Res (option RecordSet * option error))
  : M (Res (option RecordSet * option error)) :=
  match r with
  | Panic p =>
      if negb (isMemoryExceedPanic p) then panic p
      else emit EvLogPanic ;;; ret (Ret (None, Some (ErrPanic p)))
  | _ =>
      w <- getWorld ;;
      (if 0 <? retryCount (stmt w) then emit (EvObserveRetryCount (retryCount (stmt w)))
       else ret tt) ;;;
      ret r
  end.

(** [Exec]. *)
Definition Exec : M (option RecordSet * option error) :=
  deferring ExecBody ExecDeferred.

(** [FinishExecuteStmt]: slow log, statement summary and metrics, seen
    as one record handed to the sinks. *)
Definition FinishExecuteStmt (txnTS : Z) (err : option error) : M unit :=
  emit (EvFinishExecuteStmt txnTS
          (match err with None => true | Some _ => false end)).

(** [CloseRecordSet]. *)
Definition CloseRecordSet (txnStartTS : Z) (lastErr : option error) : M unit :=
  FinishExecuteStmt txnStartTS lastErr ;;;
  logAudit ;;;
  detachDiskThenMem.

(** [recordSet.Close]. *)
Definition recordSet_Close (a : recordSet) : M (option error) :=
  err <- closeExecutor (rs_executor a) ;;
  CloseRecordSet (rs_txnStartTS a) (rs_lastErr a) ;;;
  ret err.

(** [chunkRowRecordSet.Close]. *)
Definition chunkRowRecordSet_Close (c : chunkRowRecordSet) : M (option error) :=
  w <- getWorld ;;
  CloseRecordSet (txn_StartTS env (trace w)) None ;;;
  ret None.

(** [recordSet.Next]: the record set afterwards, the chunk and the
    error.  A panic of the tree is recovered and becomes the error. *)
Definition recordSet_Next (a : recordSet) (req : Chunk)
  : M (recordSet * Chunk * option error) :=
  deferring
    (r <- next (rs_executor a) req ;;
     let e1 := fst (fst r) in
     let req1 := snd (fst r) in
     match snd r with
     | Some err =>
         ret (mkRecordSet e1 (Some err) (rs_txnStartTS a), req1, Some err)
     | None =>
         let a1 := mkRecordSet e1 (rs_lastErr a) (rs_txnStartTS a) in
         if (Chunk_NumRows req1 =? 0)%nat then
           modifyVars setLastFoundRows ;;; ret (a1, req1, None)
         else
           modifyVars (addFoundRows (Z.of_nat (Chunk_NumRows req1))) ;;;
           ret (a1, req1, None)
     end)
    (fun r =>
       match r with
       | Panic p =>
           emit EvLogPanic ;;;
           ret (Ret (mkRecordSet (set_nexts (rs_executor a) (tl (ex_nexts (rs_executor a))))
                       (rs_lastErr a) (rs_txnStartTS a),
                     req, Some (ErrPanic p)))
       | _ => ret r
       end).

End Program.

(** [chunkRowRecordSet.Next]: the record set afterwards and the chunk. *)
Definition chunkRowRecordSet_Next (c : chunkRowRecordSet) (chk : Chunk)
  : chunkRowRecordSet * Chunk :=
  let chk := Chunk_Reset chk in
  if negb (Chunk_IsFull chk) && (crs_idx c <? List.length (crs_rows c))%nat then
    let numToAppend :=
      Nat.min (List.length (crs_rows c) - crs_idx c)
              (Chunk_RequiredRows chk - Chunk_NumRows chk) in
    (mkChunkRowRecordSet (crs_rows c) (crs_idx c + numToAppend) (crs_e c),
     Chunk_AppendRows chk
       (firstn numToAppend (skipn (crs_idx c) (crs_rows c))))
  else (c, chk).

(** * The vocabulary of the properties *)

(** ** Verdicts and errors *)

(** Lock-conflict errors: write conflict, duplicate key, deadlock. *)
Definition isLockConflict (e : error) : bool :=
  match Cause e with
  | ErrWriteConflict | ErrKeyExists | TikvErrDeadlock _ => true
  | _ => false
  end.

(** The transaction manager declines to retry: it answers with an
    action other than retry-ready, or with an error that is itself the
    lock client's deadlock (as when it hands the lock error back). *)
Definition nonRetryVerdict (v : StmtErrorAction * option error) : bool :=
  match v with
  | (_, Some err) => isTikvDeadlock err
  | (action, None) => negb (isRetryReady action)
  end.

(** ** Read-only views *)

(** The events by which the executor is driven or the lock client is
    reached. *)
Definition drivesOrLocks (ev : Event) : bool :=
  match ev with
  | EvNext _ | EvKeysNeedToLock | EvLockKeys _ _ => true
  | _ => false
  end.

(** The session is pinned to a historical or a low-resolution read
    timestamp; the error [handleNoDelayExecutor] then gives a write. *)
Definition readOnlyView (v : SessionVars) : bool :=
  negb (SnapshotTS v =? 0) || LowResolutionTSO v.

Definition readOnlyViolation (v : SessionVars) : error :=
  if negb (SnapshotTS v =? 0) then errSnapshotWrite else errLowResolutionWrite.

(** What the deferred close and audit of [handleNoDelayExecutor] add. *)
Definition closeAndAudit (v : SessionVars) : Trace :=
  if InRestrictedSQL v then [EvClose] else [EvAudit; EvClose].

(** The transaction manager declines to retry an error: it hands the
    error back, or answers with an action other than retry-ready. *)
Definition declinesRetry (err : error) (v : StmtErrorAction * option error)
  : Prop :=
  snd v = Some err \/ (snd v = None /\ isRetryReady (fst v) = false).

(** ** Closing a result stream, lock keys *)

Section EnvVocabulary.

Variable env : Env.

(** The lock-key set after every filter of the loop. *)
Definition filteredLockKeys (tr : Trace) (keys : list Key) : list Key :=
  filterLockTableKeys env
    (filterTemporaryTableKeys env (CollectUnchangedLockKeys env tr keys)).

(** [Close] of a result stream, whichever record set is behind it. *)
Definition RecordSet_Close (rs : RecordSet) : M (option error) :=
  match rs with
  | RSExecutor a => recordSet_Close a
  | RSRows c => chunkRowRecordSet_Close env c
  end.

Definition isFinalize (ev : Event) : bool :=
  match ev with
  | EvFinishExecuteStmt _ _ => true
  | _ => false
  end.

Definition isAudit (ev : Event) : bool :=
  match ev with
  | EvAudit => true
  | _ => false
  end.

Definition isDetach (ev : Event) : bool :=
  match ev with
  | EvDetachMem | EvDetachDisk => true
  | _ => false
  end.

Definition countEvents (p : Event -> bool) (tr : Trace) : nat :=
  List.length (filter p tr).

(** How often the finalize-and-record path has run. *)
Definition finalizeCount (tr : Trace) : nat := countEvents isFinalize tr.

(** What one run of [CloseRecordSet] adds: one [FinishExecuteStmt], the
    audit event unless the SQL is internal, one detachment per tracker. *)
Definition auditsPerClose (v : SessionVars) : nat :=
  if InRestrictedSQL v then 0 else 1.

Definition detachesPerClose (v : SessionVars) : nat :=
  ((if hasDiskTracker v then 1 else 0) + (if hasMemTracker v then 1 else 0))%nat.

End EnvVocabulary.

(** ** Attempts and their durations *)

(** The trace is cut into attempts at the calls to [OnStmtRetry]: the
    events after the last such call belong to the final attempt, those
    before it to the prior attempts. *)
Definition isRetry (ev : Event) : bool :=
  match ev with
  | EvOnStmtRetry => true
  | _ => false
  end.

Definition isLockError (ev : Event) : bool :=
  match ev with
  | EvOnStmtErrorForNextAction _ => true
  | _ => false
  end.

Fixpoint finalAttempt (tr : Trace) : Trace :=
  match tr with
  | [] => []
  | ev :: tr' => if isRetry ev then [] else ev :: finalAttempt tr'
  end.

Fixpoint priorAttempts (tr : Trace) : Trace :=
  match tr with
  | [] => []
  | ev :: tr' => if isRetry ev then tr' else priorAttempts tr'
  end.

(** The time an event contributes to a phase. *)
Definition eventDuration (ph : Phase) (ev : Event) : Z :=
  match ph, ev with
  | PhBuild, EvBuild d => d
  | PhOpen, EvOpen d => d
  | PhNext, EvNext d => d
  | PhLock, EvLockKeys _ d => d
  | _, _ => 0
  end.

Fixpoint sumDurations (ph : Phase) (evs : Trace) : Z :=
  match evs with
  | [] => 0
  | ev :: evs' => eventDuration ph ev + sumDurations ph evs'
  end.

(** The sum of a phase's durations over some events, as [+=] on
    [time.Duration] computes it. *)
Definition phaseTotal (ph : Phase) (evs : Trace) : Z :=
  wrap_int64 (sumDurations ph evs).

Definition retries (tr : Trace) : Z := Z.of_nat (List.length (filter isRetry tr)).
Definition lockErrors (tr : Trace) : Z :=
  Z.of_nat (List.length (filter isLockError tr)).

(** The accounting invariant between the statement and the trace. *)
Definition accounted (a : ExecStmt) (tr : Trace) : Prop :=
  retryCount a = retries tr
  /\ lockErrors tr = retries tr
  /\ forall ph,
       fst (phaseDurations ph a) = phaseTotal ph (finalAttempt tr)
       /\ snd (phaseDurations ph a) = phaseTotal ph (priorAttempts tr).

Definition Accounted (w : World) : Prop := accounted (stmt w) (trace w).

(** Events that carry no duration and are neither a retry nor a lock
    error handed to the recovery step. *)
Definition isNeutral (ev : Event) : bool :=
  match ev with
  | EvBuild _ | EvOpen _ | EvNext _ | EvLockKeys _ _
  | EvOnStmtRetry | EvOnStmtErrorForNextAction _ => false
  | _ => true
  end.

Definition timedEvent (ph : Phase) (d : Z) (keys : list Key) : Event :=
  match ph with
  | PhBuild => EvBuild d
  | PhOpen => EvOpen d
  | PhNext => EvNext d
  | PhLock => EvLockKeys keys d
  end.

(** ** Buffered rows *)

(** The rows a drive of the tree yields when no [Next] call fails: the
    batches up to the first empty one. *)
Fixpoint cleanRows (script : list (Timed NextOut)) : option (list Row) :=
  match script with
  | [] => Some []
  | t :: rest =>
      match outcome t with
      | RVal (NRows rows) =>
          if (List.length rows =? 0)%nat then Some []
          else option_map (app rows) (cleanRows rest)
      | _ => None
      end
  end.

(** The client's side of the cursor contract: pull batches from the
    buffered record set into the same chunk until an empty batch. *)
Fixpoint replay (fuel : nat) (c : chunkRowRecordSet) (chk : Chunk)
  : option (list Row) :=
  match fuel with
  | O => None
  | S fuel' =>
      let r := chunkRowRecordSet_Next c chk in
      if (Chunk_NumRows (snd r) =? 0)%nat then Some []
      else option_map (app (chk_rows (snd r))) (replay fuel' (fst r) (snd r))
  end.

(** * Worked executions: the data *)

(** A pessimistic session outside any read-only view, running an INSERT,
    with a statement that has not started yet. *)
Definition freshStmt : ExecStmt :=
  mkExecStmt false false 0 (0, 0) (0, 0) (0, 0) (0, 0).

Definition pessimisticVars : SessionVars :=
  mkSessionVars 0 false true false false false true true true 1024 0 0.

Definition selectVars : SessionVars :=
  mkSessionVars 0 false true false false false false true true 1024 0 0.

Definition snapshotVars : SessionVars :=
  mkSessionVars 437 false true false false false true true true 1024 0 0.

Definition world0 : World := mkWorld freshStmt pessimisticVars [].
Definition worldSelect : World := mkWorld freshStmt selectVars [].
Definition worldSnapshot : World := mkWorld freshStmt snapshotVars [].

(** The statement after 256 retries, the default budget. *)
Definition worldAtLimit : World :=
  mkWorld (mkExecStmt false false 256 (0, 0) (0, 0) (0, 0) (0, 0))
          pessimisticVars [].

Definition key1 : Key := [Byte.x74; Byte.x31].

(** An INSERT executor: empty schema, one [Next] call that does the work. *)
Definition insertExec (work : Timed NextOut) : Executor :=
  mkExecutor InsertExec 0 (mkTimed 3 (RVal None)) [work] 1 None 32 None.

Definition insertOk : Executor := insertExec (mkTimed 7 (RVal (NRows []))).

(** A reader with one output column and a script of [Next] results. *)
Definition readerExec (script : list (Timed NextOut)) : Executor :=
  mkExecutor OtherExec 1 (mkTimed 2 (RVal None)) script 1 None 32 None.

(** A transaction manager that retries write conflicts and hands every
    other error back. *)
Definition retryConflicts (tr : Trace) (err : error)
  : StmtErrorAction * option error :=
  match Cause err with
  | ErrWriteConflict => (StmtActionRetryReady, None)
  | _ => (StmtActionError, Some err)
  end.

(** The collaborators of the worked executions: the builder hands out
    [built], the lock client answers [locks], [tempFilter] is the
    temporary-table filter, [needed] are the keys the transaction needs
    to lock and [valid] tells whether the transaction is valid. *)
Definition demoEnv (built : Trace -> Timed BuildResult)
  (locks : Trace -> list Key -> Timed (option error))
  (tempFilter : list Key -> list Key) (needed : list Key) (valid : bool)
  : Env :=
  mkEnv 256 "Out Of Memory Quota!" built retryConflicts
    (fun _ => None) (fun _ => (450, None)) (fun _ => None)
    (fun _ => valid) (fun _ => 440)
    (fun _ => (needed, None)) (fun _ keys => keys)
    tempFilter (fun keys => keys) (fun _ => None) locks.

Definition buildOf (e : Executor) (hasLock : bool) (tr : Trace)
  : Timed BuildResult :=
  mkTimed 11 (RVal (mkBuildResult None false None e hasLock)).

Definition lockOk (tr : Trace) (keys : list Key) : Timed (option error) :=
  mkTimed 5 (RVal None).

(** The lock client reports a write conflict on the first two attempts. *)
Definition lockAfterTwoConflicts (tr : Trace) (keys : list Key)
  : Timed (option error) :=
  if retries tr <? 2 then mkTimed 20 (RVal (Some ErrWriteConflict))
  else mkTimed 5 (RVal None).

Definition envPlain : Env :=
  demoEnv (buildOf insertOk false) lockOk (fun keys => keys) [key1] true.

Definition envConflicts : Env :=
  demoEnv (buildOf insertOk false) lockAfterTwoConflicts (fun keys => keys)
    [key1] true.

(** Every key of the statement belongs to a temporary table. *)
Definition envTemporary : Env :=
  demoEnv (buildOf insertOk false) lockOk (fun _ => []) [key1] true.

(** No row matched: the transaction has no key to lock. *)
Definition envNoKeys : Env :=
  demoEnv (buildOf insertOk false) lockOk (fun keys => keys) [] true.

(** The transaction is gone once the statement has been driven. *)
Definition envInvalidTxn : Env :=
  demoEnv (buildOf insertOk false) lockOk (fun keys => keys) [key1] false.

(** An INSERT whose point-get lock meets a write conflict. *)
Definition insertConflict : Executor :=
  insertExec (mkTimed 7 (RVal (NErr ErrWriteConflict))).

(** INSERTs whose [Next] panics. *)
Definition insertIndexPanic : Executor :=
  insertExec (mkTimed 7 (RPanic (PanicString "runtime error: index out of range"))).

Definition insertMemoryPanic : Executor :=
  insertExec (mkTimed 7 (RPanic (PanicString "Out Of Memory Quota![conn_id=5]"))).

Definition envIndexPanic : Env :=
  demoEnv (buildOf insertIndexPanic false) lockOk (fun keys => keys) [key1] true.

Definition envMemoryPanic : Env :=
  demoEnv (buildOf insertMemoryPanic false) lockOk (fun keys => keys) [key1] true.

(** A select-for-update: the first executor yields a batch and then
    meets a write conflict; the rebuilt one yields three rows in two
    batches. *)
Definition readerConflict : Executor :=
  readerExec [mkTimed 4 (RVal (NRows [[1]]));
              mkTimed 6 (RVal (NErr ErrWriteConflict))].

Definition readerClean : Executor :=
  readerExec [mkTimed 4 (RVal (NRows [[1]; [2]]));
              mkTimed 4 (RVal (NRows [[3]]))].

Definition envSelectForUpdate : Env :=
  demoEnv (buildOf readerClean true) lockOk (fun keys => keys) [key1] true.

(** A locking read that writes its rows elsewhere and has no output
    column (SELECT ... FOR UPDATE INTO OUTFILE). *)
Definition selectIntoExec : Executor :=
  mkExecutor OtherExec 0 (mkTimed 2 (RVal None))
    [mkTimed 9 (RVal (NRows []))] 1 None 32 None.

Definition envSelectInto : Env :=
  demoEnv (buildOf selectIntoExec true) lockOk (fun keys => keys) [key1] true.

(** * Further vocabulary *)

(** ** Events of the cursor contract *)

Definition isNextEvent (ev : Event) : bool :=
  match ev with
  | EvNext _ => true
  | _ => false
  end.

Definition isCloseEvent (ev : Event) : bool :=
  match ev with
  | EvClose => true
  | _ => false
  end.

Definition isOpenEvent (ev : Event) : bool :=
  match ev with
  | EvOpen _ => true
  | _ => false
  end.

(** ** The retry budget *)

(** The retry counter equals the number of retries begun, and stays
    within the configured budget. *)
Definition withinBudget (maxRetry : Z) (a : ExecStmt) (tr : Trace) : Prop :=
  retryCount a = retries tr /\ 0 <= retries tr <= maxRetry.

Definition WithinBudget (env : Env) (w : World) : Prop :=
  withinBudget (MaxRetryCount env) (stmt w) (trace w).

(** ** What [Exec] leaves in the trace on its way out *)

(** The metric observed by the deferred function of [Exec] when nothing
    panicked. *)
Definition observedRetries (a : ExecStmt) : Trace :=
  if 0 <? retryCount a then [EvObserveRetryCount (retryCount a)] else [].

(** The tracker detachments of the deferred function of [handleNoDelay],
    newest first. *)
Definition detachedTrackers (v : SessionVars) : Trace :=
  (if hasDiskTracker v then [EvDetachDisk] else [])
  ++ (if hasMemTracker v then [EvDetachMem] else []).

(** ** A conflict that never goes away *)

Definition isLockKeysEvent (ev : Event) : bool :=
  match ev with
  | EvLockKeys _ _ => true
  | _ => false
  end.

(** How often the lock client was asked to lock keys. *)
Definition lockCalls (tr : Trace) : Z :=
  Z.of_nat (countEvents isLockKeysEvent tr).

(** An executor that opens and whose first [Next] call returns rows (or
    reports exhaustion). *)
Definition drivesCleanly (e : Executor) : bool :=
  match outcome (ex_open e) with
  | RVal None =>
      match ex_nexts e with
      | [] => true
      | t :: _ =>
          match outcome t with
          | RVal (NRows _) => true
          | _ => false
          end
      end
  | _ => false
  end.

(** Every attempt gets as far as [LockKeys] and meets [lockErr] there,
    and the transaction manager is ready to retry each time. *)
Definition persistentConflict (env : Env) (lockErr : error) : Prop :=
  (forall tr, Txn env tr = None)
  /\ (forall tr, txn_Valid env tr = true)
  /\ (forall tr, snd (KeysNeedToLock env tr) = None)
  /\ (forall tr tr',
        CollectUnchangedLockKeys env tr' (fst (KeysNeedToLock env tr)) <> [])
  /\ (forall tr, newLockCtx env tr = None)
  /\ (forall tr keys, outcome (LockKeys env tr keys) = RVal (Some lockErr))
  /\ (forall tr,
        OnStmtErrorForNextAction env tr lockErr = (StmtActionRetryReady, None))
  /\ (forall tr, OnStmtRetry env tr = None)
  /\ (forall tr, snd (GetStmtForUpdateTS env tr) = None)
  /\ (forall tr,
        exists b, outcome (build env tr) = RVal b
                  /\ b_err b = None /\ b_isExecuteExec b = false
                  /\ drivesCleanly (b_exec b) = true).

Definition lockAlwaysConflicts (tr : Trace) (keys : list Key)
  : Timed (option error) :=
  mkTimed 20 (RVal (Some ErrWriteConflict)).

Definition envPersistentConflict : Env :=
  demoEnv (buildOf insertOk false) lockAlwaysConflicts (fun keys => keys)
    [key1] true.

(** ** Pulling a live record set *)

(** The caller's side of the cursor contract for a [recordSet]: pull
    batches into the same chunk until an empty batch or an error. *)
Fixpoint pullAll (fuel : nat) (a : recordSet) (req : Chunk)
  : M (list Row * option error) :=
  match fuel with
  | O => outOfFuel
  | S fuel' =>
      r <- recordSet_Next a req ;;
      match snd r with
      | Some err => ret ([], Some err)
      | None =>
          let a1 := fst (fst r) in
          let req1 := snd (fst r) in
          if (Chunk_NumRows req1 =? 0)%nat then ret ([], None)
          else
            rest <- pullAll fuel' a1 req1 ;;
            ret (chk_rows req1 ++ fst rest, snd rest)
      end
  end.

(** ** Data for the worked executions of the execution core *)

(** A plain SELECT: the builder hands out a reader that takes no lock. *)
Definition envStreaming : Env :=
  demoEnv (buildOf readerClean false) lockOk (fun keys => keys) [key1] true.

(** The builder fails: the statement does not compile against the schema. *)
Definition buildFails (tr : Trace) : Timed BuildResult :=
  mkTimed 11 (RVal (mkBuildResult (Some (ErrExternal 54)) false None
                      insertOk false)).

Definition envBuildFails : Env :=
  demoEnv buildFails lockOk (fun keys => keys) [key1] true.

(** The transaction cannot tell which keys it has to lock. *)
Definition envKeysError : Env :=
  mkEnv 256 "Out Of Memory Quota!" (buildOf insertOk false) retryConflicts
    (fun _ => None) (fun _ => (450, None)) (fun _ => None)
    (fun _ => true) (fun _ => 440)
    (fun _ => ([], Some (ErrExternal 27))) (fun _ keys => keys)
    (fun keys => keys) (fun keys => keys) (fun _ => None) lockOk.

(** A live record set over the clean reader, and the chunk of its caller. *)
Definition liveReader : recordSet := mkRecordSet readerClean None 440.

Definition callerChunk : Chunk := mkChunk [] 32.

(** A buffered record set of three rows, one of them already delivered. *)
Definition bufferedReader : chunkRowRecordSet :=
  mkChunkRowRecordSet [[1]; [2]; [3]] 1 readerClean.

(** * Reporting: metrics, log text and result fields *)

(** ** Phase duration observers *)

Definition phaseBuildLocking : string := "build:locking".
Definition phaseOpenLocking : string := "open:locking".
Definition phaseNextLocking : string := "next:locking".
Definition phaseLockLocking : string := "lock:locking".
Definition phaseBuildFinal : string := "build:final".
Definition phaseOpenFinal : string := "open:final".
Definition phaseNextFinal : string := "next:final".
Definition phaseLockFinal : string := "lock:final".
Definition phaseCommitPrewrite : string := "commit:prewrite".
Definition phaseCommitCommit : string := "commit:commit".
Definition phaseCommitWaitCommitTS : string := "commit:wait:commit-ts".
Definition phaseCommitWaitLatestTS : string := "commit:wait:latest-ts".
Definition phaseCommitWaitLatch : string := "commit:wait:local-latch".
Definition phaseCommitWaitBinlog : string := "commit:wait:prewrite-binlog".
Definition phaseWriteResponse : string := "write-response".

(** A child of the histogram vector [metrics.ExecPhaseDuration] is
    identified by its two label values. *)
Record Observer : Type := mkObserver {
  obs_phase : string;
  obs_internal : string
}.

Definition WithLabelValues (phase internal : string) : Observer :=
  mkObserver phase internal.

(** The observers defined beforehand for queries that are not internal. *)
Definition execBuildLocking : Observer := WithLabelValues phaseBuildLocking "0".
Definition execOpenLocking : Observer := WithLabelValues phaseOpenLocking "0".
Definition execNextLocking : Observer := WithLabelValues phaseNextLocking "0".
Definition execLockLocking : Observer := WithLabelValues phaseLockLocking "0".
Definition execBuildFinal : Observer := WithLabelValues phaseBuildFinal "0".
Definition execOpenFinal : Observer := WithLabelValues phaseOpenFinal "0".
Definition execNextFinal : Observer := WithLabelValues phaseNextFinal "0".
Definition execLockFinal : Observer := WithLabelValues phaseLockFinal "0".
Definition execCommitPrewrite : Observer :=
  WithLabelValues phaseCommitPrewrite "0".
Definition execCommitCommit : Observer := WithLabelValues phaseCommitCommit "0".
Definition execCommitWaitCommitTS : Observer :=
  WithLabelValues phaseCommitWaitCommitTS "0".
Definition execCommitWaitLatestTS : Observer :=
  WithLabelValues phaseCommitWaitLatestTS "0".
Definition execCommitWaitLatch : Observer :=
  WithLabelValues phaseCommitWaitLatch "0".
Definition execCommitWaitBinlog : Observer :=
  WithLabelValues phaseCommitWaitBinlog "0".
Definition execWriteResponse : Observer := WithLabelValues phaseWriteResponse "0".

(** [getPhaseDurationObserver]: the [switch] over the phase names. *)
Definition getPhaseDurationObserver (phase : string) (internal : bool)
  : Observer :=
  if internal then WithLabelValues phase "1"
  else if (phase =? phaseBuildLocking)%string then execBuildLocking
  else if (phase =? phaseOpenLocking)%string then execOpenLocking
  else if (phase =? phaseNextLocking)%string then execNextLocking
  else if (phase =? phaseLockLocking)%string then execLockLocking
  else if (phase =? phaseBuildFinal)%string then execBuildFinal
  else if (phase =? phaseOpenFinal)%string then execOpenFinal
  else if (phase =? phaseNextFinal)%string then execNextFinal
  else if (phase =? phaseLockFinal)%string then execLockFinal
  else if (phase =? phaseCommitPrewrite)%string then execCommitPrewrite
  else if (phase =? phaseCommitCommit)%string then execCommitCommit
  else if (phase =? phaseCommitWaitCommitTS)%string then execCommitWaitCommitTS
  else if (phase =? phaseCommitWaitLatestTS)%string then execCommitWaitLatestTS
  else if (phase =? phaseCommitWaitLatch)%string then execCommitWaitLatch
  else if (phase =? phaseCommitWaitBinlog)%string then execCommitWaitBinlog
  else if (phase =? phaseWriteResponse)%string then execWriteResponse
  else WithLabelValues phase "0".

(** One [Observe] call: the observer and the duration whose seconds it
    is given. *)
Record Observation : Type := mkObservation {
  ob_observer : Observer;
  ob_duration : Z
}.

(** The durations of [util.CommitDetails] that are reported. *)
Record CommitDetails : Type := mkCommitDetails {
  PrewriteTime : Z;
  CommitTime : Z;
  GetCommitTsTime : Z;
  GetLatestTsTime : Z;
  LocalLatchTime : Z;
  WaitPrewriteBinlogTime : Z
}.

(** The body of both [range] loops of [observePhaseDurations]; the
    observations come out in the order of the calls. *)
Fixpoint observeEach (internal : bool) (items : list (Z * string))
  : list Observation :=
  match items with
  | [] => []
  | it :: rest =>
      (if 0 <? fst it
       then [mkObservation (getPhaseDurationObserver (snd it) internal) (fst it)]
       else [])
      ++ observeEach internal rest
  end.

(** [observePhaseDurations]; [writeSQLResp] is the [WriteSQLRespDuration]
    of the statement details found in the Go context, if any. *)
Definition observePhaseDurations (a : ExecStmt) (internal : bool)
  (commitDetails : option CommitDetails) (writeSQLResp : option Z)
  : list Observation :=
  observeEach internal
    [(fst (phaseBuildDurations a), phaseBuildFinal);
     (snd (phaseBuildDurations a), phaseBuildLocking);
     (fst (phaseOpenDurations a), phaseOpenFinal);
     (snd (phaseOpenDurations a), phaseOpenLocking);
     (fst (phaseNextDurations a), phaseNextFinal);
     (snd (phaseNextDurations a), phaseNextLocking);
     (fst (phaseLockDurations a), phaseLockFinal);
     (snd (phaseLockDurations a), phaseLockLocking)]
  ++ match commitDetails with
     | None => []
     | Some cd =>
         observeEach internal
           [(PrewriteTime cd, phaseCommitPrewrite);
            (CommitTime cd, phaseCommitCommit);
            (GetCommitTsTime cd, phaseCommitWaitCommitTS);
            (GetLatestTsTime cd, phaseCommitWaitLatestTS);
            (LocalLatchTime cd, phaseCommitWaitLatch);
            (WaitPrewriteBinlogTime cd, phaseCommitWaitBinlog)]
     end
  ++ match writeSQLResp with
     | None => []
     | Some d =>
         if 0 <? d
         then [mkObservation (getPhaseDurationObserver phaseWriteResponse internal) d]
         else []
     end.

(** The label value for the kind of query. *)
Definition internalLabel (internal : bool) : string :=
  if internal then "1" else "0".

(** The phase names of the two duration slots. *)
Definition finalPhase (ph : Phase) : string :=
  match ph with
  | PhBuild => phaseBuildFinal
  | PhOpen => phaseOpenFinal
  | PhNext => phaseNextFinal
  | PhLock => phaseLockFinal
  end.

Definition lockingPhase (ph : Phase) : string :=
  match ph with
  | PhBuild => phaseBuildLocking
  | PhOpen => phaseOpenLocking
  | PhNext => phaseNextLocking
  | PhLock => phaseLockLocking
  end.

(** The statement of the worked executions after two retried attempts. *)
Definition retriedStmt : ExecStmt :=
  mkExecStmt false false 2 (11, 22) (3, 6) (7, 14) (5, 40).

(** ** Query text for the logs *)

(** [int32(n)] of an [int]. *)
Definition wrap_int32 (z : Z) : Z := (z + 2 ^ 31) mod 2 ^ 32 - 2 ^ 31.

(** The bytes [QueryReplacer] replaces: carriage return, line feed, tab. *)
Definition isQueryBreak (c : ascii) : bool :=
  (c =? "013")%char || (c =? "010")%char || (c =? "009")%char.

(** [QueryReplacer.Replace]: every old string is one byte, so the
    replacer works byte by byte. *)
Fixpoint QueryReplacer_Replace (s : string) : string :=
  match s with
  | EmptyString => EmptyString
  | String c rest =>
      String (if isQueryBreak c then " "%char else c)
             (QueryReplacer_Replace rest)
  end.

Section FormatSQL.

(** [fmt.Sprintf("%.*q(len:%d)", maxQueryLen, sql, length)]. *)
Variable Sprintf_q_len : Z -> string -> nat -> string.

(** [variable.QueryLogMaxLen.Load()], an [int32]. *)
Variable maxQueryLen : Z.

(** One call of the function [FormatSQL sql] returns.  The closure
    assigns to the [sql] it has captured, so the call yields the text
    and the [sql] the next call starts from. *)
Definition FormatSQL_String (sql : string) : string * string :=
  let length := String.length sql in
  if maxQueryLen <=? 0 then (QueryReplacer_Replace sql, sql)
  else
    let sql1 :=
      if maxQueryLen <? wrap_int32 (Z.of_nat length)
      then Sprintf_q_len maxQueryLen sql length
      else sql in
    (QueryReplacer_Replace sql1, sql1).

End FormatSQL.

(** A stand-in for the quoting of [fmt.Sprintf]: the first bytes of the
    text between quotes, for texts that need no escape. *)
Definition quoteFirst (max : Z) (sql : string) (len : nat) : string :=
  String "034"%char (substring 0 (Z.to_nat max) sql)
  ++ String "034"%char "(len:...)".

(** A query text written on two lines, with a tab. *)
Definition twoLineQuery : string :=
  "SELECT 1" ++ String "010"%char ("FROM" ++ String "009"%char "t").

(** ** Result fields *)

(** [model.CIStr]: a name as written and in lower case. *)
Record CIStr : Type := mkCIStr {
  ci_O : string;
  ci_L : string
}.

(** The names of [types.FieldName] that [colNames2ResultFields] reads. *)
Record FieldName : Type := mkFieldName {
  fn_DBName : CIStr;
  fn_TblName : CIStr;
  fn_OrigTblName : CIStr;
  fn_ColName : CIStr;
  fn_OrigColName : CIStr
}.

(** The codes of [mysql] column types this development names; any other
    byte is [TypeOther]. *)
Inductive mysqlType : Type :=
| TypeTiny | TypeShort | TypeLong | TypeFloat | TypeDouble | TypeNull
| TypeTimestamp | TypeLonglong | TypeInt24 | TypeDate | TypeDuration
| TypeDatetime | TypeYear | TypeNewDate | TypeNewDecimal
| TypeOther (code : nat).

(** [types.FieldType]: type code, flags, display length and decimals;
    character set and collation play no part here. *)
Record FieldType : Type := mkFieldType {
  ft_tp : mysqlType;
  ft_flag : Z;
  ft_flen : Z;
  ft_decimal : Z
}.

(** [ast.ResultField], with the names of its column and table infos. *)
Record ResultField : Type := mkResultField {
  rf_Column_Name : CIStr;
  rf_Column_FieldType : FieldType;
  rf_ColumnAsName : CIStr;
  rf_Table_Name : CIStr;
  rf_TableAsName : CIStr;
  rf_DBName : CIStr
}.

Section ResultFields.

(** [mysql.MaxAliasIdentifierLen] and [model.NewCIStr]. *)
Variable MaxAliasIdentifierLen : nat.
Variable NewCIStr : string -> CIStr.

(** [if len(s) > MaxAliasIdentifierLen { s = s[:MaxAliasIdentifierLen] }]. *)
Definition truncateAlias (s : string) : string :=
  if (MaxAliasIdentifierLen <? String.length s)%nat
  then substring 0 MaxAliasIdentifierLen s
  else s.

(** The body of the loop of [colNames2ResultFields] for one column. *)
Definition resultField (defaultDB : string) (retType : FieldType)
  (name : FieldName) : ResultField :=
  let dbName :=
    if (ci_L (fn_DBName name) =? "")%string
       && negb (ci_L (fn_TblName name) =? "")%string
    then NewCIStr defaultDB
    else fn_DBName name in
  let origColName :=
    if (ci_L (fn_OrigColName name) =? "")%string
    then fn_ColName name
    else fn_OrigColName name in
  mkResultField origColName retType
    (mkCIStr (truncateAlias (ci_O (fn_ColName name)))
             (truncateAlias (ci_L (fn_ColName name))))
    (fn_OrigTblName name) (fn_TblName name) dbName.

(** The loop from index [i] on, [columns] being the columns of the
    schema from [i] on.  [None] is the run-time panic of [names[i]] out
    of range. *)
Fixpoint resultFieldsFrom (defaultDB : string) (names : list FieldName)
  (i : nat) (columns : list FieldType) : option (list ResultField) :=
  match columns with
  | [] => Some []
  | retType :: rest =>
      match nth_error names i with
      | None => None
      | Some name =>
          match resultFieldsFrom defaultDB names (S i) rest with
          | None => None
          | Some rfs => Some (resultField defaultDB retType name :: rfs)
          end
      end
  end.

(** [colNames2ResultFields]; the schema is given by the return types of
    its columns. *)
Definition colNames2ResultFields (schema : list FieldType)
  (names : list FieldName) (defaultDB : string) : option (list ResultField) :=
  resultFieldsFrom defaultDB names 0 schema.

End ResultFields.

(** Lower-casing of plain ASCII letters, standing in for [model.NewCIStr]. *)
Definition lowerAscii (c : ascii) : ascii :=
  let n := nat_of_ascii c in
  if ((65 <=? n) && (n <=? 90))%nat then ascii_of_nat (n + 32) else c.

Fixpoint lowerString (s : string) : string :=
  match s with
  | EmptyString => EmptyString
  | String c rest => String (lowerAscii c) (lowerString rest)
  end.

Definition newCIStr (s : string) : CIStr := mkCIStr s (lowerString s).

Definition noName : CIStr := mkCIStr "" "".

(** The output names of [SELECT t.id, Total_Price AS Total_Price ...]
    limited, for the example, to aliases of eight bytes. *)
Definition demoNames : list FieldName :=
  [mkFieldName noName (newCIStr "t") (newCIStr "t") (newCIStr "id")
     (newCIStr "id");
   mkFieldName noName noName noName (newCIStr "Total_Price") noName].

Definition demoSchema : list FieldType :=
  [mkFieldType TypeLong 0 11 0; mkFieldType TypeNewDecimal 0 20 2].

(** ** The index names of the slow log *)

(** The loop of [LogSlowQuery] over [stmtCtx.IndexNames]: [idxMap] holds
    the names written so far (a set, here the list of its keys) and
    [buf] the buffer. *)
Fixpoint writeIndexNames (names : list string) (idxMap : list string)
  (buf : string) : string :=
  match names with
  | [] => buf
  | idx :: rest =>
      if existsb (String.eqb idx) idxMap then writeIndexNames rest idxMap buf
      else
        let buf1 :=
          if (1 <? String.length buf)%nat then (buf ++ ",")%string else buf in
        writeIndexNames rest (idx :: idxMap) (buf1 ++ idx)%string
  end.

(** The [indexNames] of [LogSlowQuery]. *)
Definition slowLogIndexNames (IndexNames : list string) : string :=
  if (0 <? List.length IndexNames)%nat
  then (writeIndexNames IndexNames [] "[" ++ "]")%string
  else ""%string.

(** The names of a list in the order of their first occurrence, those of
    [seen] left out. *)
Fixpoint firstOccurrencesFrom (seen : list string) (names : list string)
  : list string :=
  match names with
  | [] => []
  | x :: rest =>
      if existsb (String.eqb x) seen then firstOccurrencesFrom seen rest
      else x :: firstOccurrencesFrom (x :: seen) rest
  end.

Definition firstOccurrences (names : list string) : list string :=
  firstOccurrencesFrom [] names.

Definition nonEmptyName (s : string) : bool := negb (s =? "")%string.

(** ** The plan texts kept in the statement context *)

(** Calls into the planner that the getters below may make. *)
Inductive PlannerCall : Type :=
| CallFlattenPhysicalPlan
| CallBinaryPlanStrFromFlatPlan
| CallNormalizeFlatPlan.

Definition isFlattenCall (c : PlannerCall) : bool :=
  match c with
  | CallFlattenPhysicalPlan => true
  | _ => false
  end.

Section PlanCache.

(** The statement context with its accessors, and the planner. *)
Context {StmtCtx Plan FlatPlan Digest : Type}.
Variable GetPlan : StmtCtx -> option Plan.
Variable GetFlatPlan : StmtCtx -> option FlatPlan.
Variable SetFlatPlan : FlatPlan -> StmtCtx -> StmtCtx.
Variable GetBinaryPlan : StmtCtx -> string.
Variable SetBinaryPlan : string -> StmtCtx -> StmtCtx.
Variable GetPlanDigest : StmtCtx -> string * option Digest.
Variable SetPlanDigest : string -> option Digest -> StmtCtx -> StmtCtx.
Variable FlattenPhysicalPlan : Plan -> option FlatPlan.
Variable BinaryPlanStrFromFlatPlan : StmtCtx -> option FlatPlan -> string.
Variable NormalizeFlatPlan : option FlatPlan -> string * option Digest.

(** A getter yields its result, the statement context after the call
    and the planner calls it made, in order. *)
Definition Getter (A : Type) : Type := A * StmtCtx * list PlannerCall.

(** [getFlatPlan]. *)
Definition getFlatPlan (stmtCtx : StmtCtx) : Getter (option FlatPlan) :=
  match GetPlan stmtCtx with
  | None => (None, stmtCtx, [])
  | Some p =>
      match GetFlatPlan stmtCtx with
      | Some f => (Some f, stmtCtx, [])
      | None =>
          match FlattenPhysicalPlan p with
          | Some flat =>
              (Some flat, SetFlatPlan flat stmtCtx, [CallFlattenPhysicalPlan])
          | None => (None, stmtCtx, [CallFlattenPhysicalPlan])
          end
      end
  end.

(** [getBinaryPlan]. *)
Definition getBinaryPlan (stmtCtx : StmtCtx) : Getter string :=
  let binaryPlan := GetBinaryPlan stmtCtx in
  if (0 <? String.length binaryPlan)%nat then (binaryPlan, stmtCtx, [])
  else
    let '(flat, stmtCtx1, calls) := getFlatPlan stmtCtx in
    let binaryPlan1 := BinaryPlanStrFromFlatPlan stmtCtx1 flat in
    (binaryPlan1, SetBinaryPlan binaryPlan1 stmtCtx1,
     calls ++ [CallBinaryPlanStrFromFlatPlan]).

(** [getPlanDigest]. *)
Definition getPlanDigest (stmtCtx : StmtCtx) : Getter (string * option Digest) :=
  let '(normalized, planDigest) := GetPlanDigest stmtCtx in
  match planDigest with
  | Some d =>
      if (0 <? String.length normalized)%nat
      then ((normalized, planDigest), stmtCtx, [])
      else
        let '(flat, stmtCtx1, calls) := getFlatPlan stmtCtx in
        let '(normalized1, planDigest1) := NormalizeFlatPlan flat in
        ((normalized1, planDigest1),
         SetPlanDigest normalized1 planDigest1 stmtCtx1,
         calls ++ [CallNormalizeFlatPlan])
  | None =>
      let '(flat, stmtCtx1, calls) := getFlatPlan stmtCtx in
      let '(normalized1, planDigest1) := NormalizeFlatPlan flat in
      ((normalized1, planDigest1),
       SetPlanDigest normalized1 planDigest1 stmtCtx1,
       calls ++ [CallNormalizeFlatPlan])
  end.

(** The plan getters of [LogSlowQuery], in the order it calls them:
    [getFlatPlan], [getPlanDigest] and, when binary plans are generated,
    [getBinaryPlan]. *)
Definition slowLogPlans (GenerateBinaryPlan : bool) (stmtCtx : StmtCtx)
  : Getter (option FlatPlan * option Digest * string) :=
  let '(flat, stmtCtx1, calls1) := getFlatPlan stmtCtx in
  let '(digest, stmtCtx2, calls2) := getPlanDigest stmtCtx1 in
  if GenerateBinaryPlan then
    let '(binaryPlan, stmtCtx3, calls3) := getBinaryPlan stmtCtx2 in
    ((flat, snd digest, binaryPlan), stmtCtx3, calls1 ++ calls2 ++ calls3)
  else ((flat, snd digest, ""%string), stmtCtx2, calls1 ++ calls2).

(** What the getters rely on: each setter stores its value and leaves
    the plan and the flat plan alone. *)
Definition accessorLaws : Prop :=
  (forall f sc, GetFlatPlan (SetFlatPlan f sc) = Some f)
  /\ (forall f sc, GetPlan (SetFlatPlan f sc) = GetPlan sc)
  /\ (forall b sc, GetBinaryPlan (SetBinaryPlan b sc) = b)
  /\ (forall b sc, GetPlan (SetBinaryPlan b sc) = GetPlan sc)
  /\ (forall b sc, GetFlatPlan (SetBinaryPlan b sc) = GetFlatPlan sc)
  /\ (forall n d sc, GetPlanDigest (SetPlanDigest n d sc) = (n, d))
  /\ (forall n d sc, GetPlan (SetPlanDigest n d sc) = GetPlan sc)
  /\ (forall n d sc, GetFlatPlan (SetPlanDigest n d sc) = GetFlatPlan sc).

(** The flat plan is there to be read, or the statement has no plan. *)
Definition flatSettled (sc : StmtCtx) : Prop :=
  GetPlan sc = None \/ exists f, GetFlatPlan sc = Some f.

End PlanCache.

(** A statement context for the worked executions: plans are numbers. *)
Record demoStmtCtx : Type := mkDemoStmtCtx {
  sc_plan : option nat;
  sc_flatPlan : option nat;
  sc_binaryPlan : string;
  sc_planDigest : string * option nat
}.

Definition demoSetFlatPlan (f : nat) (sc : demoStmtCtx) : demoStmtCtx :=
  mkDemoStmtCtx (sc_plan sc) (Some f) (sc_binaryPlan sc) (sc_planDigest sc).

Definition demoSetBinaryPlan (b : string) (sc : demoStmtCtx) : demoStmtCtx :=
  mkDemoStmtCtx (sc_plan sc) (sc_flatPlan sc) b (sc_planDigest sc).

Definition demoSetPlanDigest (n : string) (d : option nat) (sc : demoStmtCtx)
  : demoStmtCtx :=
  mkDemoStmtCtx (sc_plan sc) (sc_flatPlan sc) (sc_binaryPlan sc) (n, d).

Definition demoFlatten (p : nat) : option nat := Some (p + 1)%nat.

Definition demoBinaryPlan (sc : demoStmtCtx) (flat : option nat) : string :=
  match flat with
  | Some _ => "binary"
  | None => ""
  end.

Definition demoNormalize (flat : option nat) : string * option nat :=
  match flat with
  | Some f => ("normalized"%string, Some f)
  | None => (""%string, None)
  end.

Definition plannedCtx : demoStmtCtx :=
  mkDemoStmtCtx (Some 7%nat) None "" (""%string, None).

(** * Aggregate function signatures (aggregation, base function descriptor) *)

(** ** Field types *)

Definition isTypeNewDecimal (tp : mysqlType) : bool :=
  match tp with
  | TypeNewDecimal => true
  | _ => false
  end.

(** [ft.SetFlen], [ft.SetDecimal], [ft.DelFlag]: methods of
    [types.FieldType], declared outside this file; each stores one
    attribute, [DelFlag] clearing the bits of the flag. *)
Definition SetFlen (flen : Z) (ft : FieldType) : FieldType :=
  mkFieldType (ft_tp ft) (ft_flag ft) flen (ft_decimal ft).

Definition SetDecimal (decimal : Z) (ft : FieldType) : FieldType :=
  mkFieldType (ft_tp ft) (ft_flag ft) (ft_flen ft) decimal.

Definition DelFlag (flag : Z) (ft : FieldType) : FieldType :=
  mkFieldType (ft_tp ft) (Z.ldiff (ft_flag ft) flag) (ft_flen ft)
    (ft_decimal ft).

(** ** The decimal length of a sum of integers *)

(** [minimalDecimalLenForHoldingInteger]; the error names the type. *)
Definition minimalDecimalLenForHoldingInteger (tp : mysqlType)
  : Z * option error :=
  match tp with
  | TypeTiny => (3, None)
  | TypeShort => (5, None)
  | TypeInt24 => (8, None)
  | TypeLong => (10, None)
  | TypeLonglong => (20, None)
  | TypeYear => (4, None)
  | _ => (-1, Some (ErrNew "Invalid type"))
  end.

Section SumInteger.

(** [types.IsTypeInteger]. *)
Variable IsTypeInteger : mysqlType -> bool.

(** [adjustDecimalLenForSumInteger]: the field type after the call. *)
Definition adjustDecimalLenForSumInteger (ft : FieldType) (tpOld : mysqlType)
  : FieldType :=
  if IsTypeInteger tpOld && isTypeNewDecimal (ft_tp ft) then
    match minimalDecimalLenForHoldingInteger tpOld with
    | (flen, None) =>
        SetFlen (Z.min (ft_flen ft) (wrap_int64 (flen + ft_decimal ft))) ft
    | (_, Some _) => ft
    end
  else ft.

End SumInteger.

(** The storage size in bytes of the binary integer types. *)
Definition integerBytes (tp : mysqlType) : option Z :=
  match tp with
  | TypeTiny => Some 1
  | TypeShort => Some 2
  | TypeInt24 => Some 3
  | TypeLong => Some 4
  | TypeLonglong => Some 8
  | _ => None
  end.

(** The integer types as [types.IsTypeInteger] has them. *)
Definition isIntegerType (tp : mysqlType) : bool :=
  match tp with
  | TypeTiny | TypeShort | TypeInt24 | TypeLong | TypeLonglong | TypeYear => true
  | _ => false
  end.

(** ** APPROX_PERCENTILE *)

(** What the type inference asks of an [expression.Expression]. *)
Record Expression : Type := mkExpression {
  expr_ConstItem : bool;
  expr_EvalInt : Z * bool * option error;   (* value, isNull, err *)
  expr_GetType : FieldType;
  expr_String : string
}.

(** [baseFuncDesc]; [RetTp] is [None] while the pointer is nil. *)
Record baseFuncDesc : Type := mkBaseFuncDesc {
  Name : string;
  Args : list Expression;
  RetTp : option FieldType
}.

Definition setRetTp (ft : FieldType) (a : baseFuncDesc) : baseFuncDesc :=
  mkBaseFuncDesc (Name a) (Args a) (Some ft).

Section ApproxPercentile.

(** [types.NewFieldType], the limits of [mysql] decimals, the not-null
    flag and the formatting of [%d]. *)
Variable NewFieldType : mysqlType -> FieldType.
Variable MaxDecimalWidth : Z.
Variable MaxDecimalScale : Z.
Variable NotNullFlag : Z.
Variable Sprintf_d : Z -> string.

(** The [switch] of [typeInfer4ApproxPercentile] on the type of the
    first argument. *)
Definition approxPercentileRetTp (arg : FieldType) : FieldType :=
  match ft_tp arg with
  | TypeTiny | TypeShort | TypeInt24 | TypeLong | TypeLonglong =>
      NewFieldType TypeLonglong
  | TypeDouble | TypeFloat => NewFieldType TypeDouble
  | TypeNewDecimal =>
      let ft := SetDecimal (ft_decimal arg)
                  (SetFlen MaxDecimalWidth (NewFieldType TypeNewDecimal)) in
      if (ft_decimal ft <? 0) || (MaxDecimalScale <? ft_decimal ft)
      then SetDecimal MaxDecimalScale ft
      else ft
  | TypeDate | TypeDatetime | TypeNewDate | TypeTimestamp => arg
  | _ => DelFlag NotNullFlag arg
  end.

(** [typeInfer4ApproxPercentile]: the error and the descriptor after the
    call.  [None] is the run-time panic of [a.Args[0]] and cannot
    happen after the length test. *)
Definition typeInfer4ApproxPercentile (a : baseFuncDesc)
  : option (option error * baseFuncDesc) :=
  if negb (List.length (Args a) =? 2)%nat then
    Some (Some (ErrNew "APPROX_PERCENTILE should take 2 arguments"), a)
  else
    match nth_error (Args a) 1, nth_error (Args a) 0 with
    | Some arg1, Some arg0 =>
        if negb (expr_ConstItem arg1) then
          Some (Some (ErrNew "APPROX_PERCENTILE should take a constant expression as percentage argument"), a)
        else
          match expr_EvalInt arg1 with
          | (_, _, Some _) =>
              Some (Some (ErrNew ("APPROX_PERCENTILE: Invalid argument "
                                  ++ expr_String arg1)), a)
          | (percent, isNull, None) =>
              if (percent <=? 0) || (100 <? percent) || isNull then
                if isNull then
                  Some (Some (ErrNew "APPROX_PERCENTILE: Percentage value cannot be NULL"), a)
                else
                  Some (Some (ErrNew ("Percentage value " ++ Sprintf_d percent
                                      ++ " is out of range [1, 100]")), a)
              else
                Some (None, setRetTp (approxPercentileRetTp (expr_GetType arg0)) a)
          end
    | _, _ => None
    end.

End ApproxPercentile.

(** A field type fresh from [types.NewFieldType], with the lengths
    unspecified. *)
Definition newFieldType (tp : mysqlType) : FieldType :=
  mkFieldType tp 0 (-1) (-1).

Definition priceColumn : Expression :=
  mkExpression false (0, true, None) (mkFieldType TypeNewDecimal 1 20 2)
    "price".

Definition constantInt (n : Z) : Expression :=
  mkExpression true (n, false, None) (mkFieldType TypeLonglong 1 20 0) "n".

Definition approxPercentileOfPrice : baseFuncDesc :=
  mkBaseFuncDesc "approx_percentile" [priceColumn; constantInt 95] None.

(** ** The text of a function descriptor *)

(** The loop of [baseFuncDesc.String] from index [i] on; [n] is
    [len(a.Args)]. *)
Fixpoint writeArgs (i n : nat) (args : list Expression) (buffer : string)
  : string :=
  match args with
  | [] => buffer
  | arg :: rest =>
      let buffer1 := (buffer ++ expr_String arg)%string in
      writeArgs (S i) n rest
        (if negb (i + 1 =? n)%nat then (buffer1 ++ ", ")%string else buffer1)
  end.

(** [baseFuncDesc.String]. *)
Definition baseFuncDesc_String (a : baseFuncDesc) : string :=
  (writeArgs 0 (List.length (Args a)) (Args a) (Name a ++ "(") ++ ")")%string.

(** ** A run of [N] lock conflicts followed by success *)

(** The attempt a trace is in: the number of retries begun so far. *)
Definition attemptOf (tr : Trace) : nat := countEvents isRetry tr.

(** [f 0 + ... + f (n - 1)]. *)
Fixpoint sumTo (f : nat -> Z) (n : nat) : Z :=
  match n with
  | O => 0
  | S n' => sumTo f n' + f n'
  end.

(** The two pessimistic paths of [Exec]: the DML loop and the
    select-for-update loop. *)
Inductive StmtKind : Type := KindDML | KindSelectForUpdate.

(** What the first [Next] call on a tree takes, and how it ends: with
    rows ([Some None]), with an error, or in a panic ([None]). *)
Definition firstNextTime (e : Executor) : Z :=
  match ex_nexts e with
  | [] => ex_eofElapsed e
  | t :: _ => elapsed t
  end.

Definition firstNextError (e : Executor) : option (option error) :=
  match ex_nexts e with
  | [] => Some None
  | t :: _ =>
      match outcome t with
      | RVal (NRows _) => Some None
      | RVal (NErr err) => Some (Some err)
      | RPanic _ => None
      end
  end.

(** A drive of the tree to the first empty batch or the first error:
    the time of the [Next] calls made, and the error that ends it, if
    one does before any panic. *)
Fixpoint driveTime (eof : Z) (script : list (Timed NextOut)) : Z :=
  match script with
  | [] => eof
  | t :: rest =>
      elapsed t
      + match outcome t with
        | RVal (NRows rows) =>
            if (List.length rows =? 0)%nat then 0 else driveTime eof rest
        | _ => 0
        end
  end.

Fixpoint driveError (script : list (Timed NextOut)) : option error :=
  match script with
  | [] => None
  | t :: rest =>
      match outcome t with
      | RVal (NRows rows) =>
          if (List.length rows =? 0)%nat then None else driveError rest
      | RVal (NErr err) => Some err
      | RPanic _ => None
      end
  end.

(** Both slots of every phase: the current attempt and the prior ones. *)
Definition slotsAre (current prior : Phase -> Z) (a : ExecStmt) : Prop :=
  forall ph,
    phaseDurations ph a = (wrap_int64 (current ph), wrap_int64 (prior ph)).

Section ConflictRun.

(** The run: [N] attempts meet the lock error [lockErr], attempt [N]
    succeeds.  Attempt [i] runs the tree [exec i], built in [buildTime i];
    where the DML loop gets as far as [LockKeys] in attempt [i], that
    call takes [lockTime i]. *)
Variable env : Env.
Variable N : nat.
Variable lockErr : error.
Variable exec : nat -> Executor.
Variable buildTime lockTime : nat -> Z.

(** Attempt [i] of the DML loop gets as far as [LockKeys]. *)
Definition reachesLock (i : nat) : bool :=
  match firstNextError (exec i) with
  | Some None => true
  | _ => false
  end.

(** The time attempt [i] has spent when its tree is built and opened. *)
Definition openedTime (i : nat) (ph : Phase) : Z :=
  match ph with
  | PhBuild => buildTime i
  | PhOpen => elapsed (ex_open (exec i))
  | _ => 0
  end.

(** The time attempt [i] spends in a phase. *)
Definition attemptTime (kind : StmtKind) (ph : Phase) (i : nat) : Z :=
  match ph, kind with
  | PhBuild, _ => buildTime i
  | PhOpen, _ => elapsed (ex_open (exec i))
  | PhNext, KindDML => firstNextTime (exec i)
  | PhNext, KindSelectForUpdate =>
      driveTime (ex_eofElapsed (exec i)) (ex_nexts (exec i))
  | PhLock, KindDML => if reachesLock i then lockTime i else 0
  | PhLock, KindSelectForUpdate => 0
  end.

(** The collaborators both loops rely on: the transaction is there and
    valid, the transaction manager is ready to retry [lockErr] and lets
    the retry begin, the builder hands out [exec i] in attempt [i], every
    tree opens, and the budget allows [N] retries. *)
Definition retriesGranted (hasLock : bool) : Prop :=
  (forall tr, Txn env tr = None)
  /\ (forall tr, txn_Valid env tr = true)
  /\ (forall tr,
        OnStmtErrorForNextAction env tr lockErr = (StmtActionRetryReady, None))
  /\ (forall tr, OnStmtRetry env tr = None)
  /\ (forall tr, snd (GetStmtForUpdateTS env tr) = None)
  /\ (forall tr,
        exists b,
          build env tr = mkTimed (buildTime (attemptOf tr)) (RVal b)
          /\ b_err b = None
          /\ (b_isExecuteExec b = true -> b_executeBuildErr b = None)
          /\ b_exec b = exec (attemptOf tr)
          /\ b_hasLock b = hasLock)
  /\ (forall i, outcome (ex_open (exec i)) = RVal None)
  /\ Z.of_nat N <= MaxRetryCount env < 2 ^ 64.

(** A pessimistic DML statement: the tree has no output column and is
    driven by one [Next] call.  In each of the first [N] attempts that
    call returns [lockErr], or it succeeds and [LockKeys] returns
    [lockErr]; in attempt [N] both succeed. *)
Definition dmlRun (v : SessionVars) : Prop :=
  IsPessimistic v = true
  /\ readOnlyView v = false
  /\ retriesGranted false
  /\ ex_schemaLen (exec 0) = 0%nat
  /\ toCheck (exec 0) = (exec 0, false)
  /\ (forall i, (i < N)%nat ->
        firstNextError (exec i) = Some None
        \/ firstNextError (exec i) = Some (Some lockErr))
  /\ firstNextError (exec N) = Some None
  /\ (forall tr, snd (KeysNeedToLock env tr) = None)
  /\ (forall tr tr',
        CollectUnchangedLockKeys env tr' (fst (KeysNeedToLock env tr)) <> [])
  /\ (forall tr, newLockCtx env tr = None)
  /\ (forall tr keys,
        LockKeys env tr keys
        = mkTimed (lockTime (attemptOf tr))
            (RVal (if (attemptOf tr <? N)%nat then Some lockErr else None))).

(** A pessimistic select-for-update: in each of the first [N] attempts
    the drive of the tree ends in [lockErr]; in attempt [N] it runs to
    the end. *)
Definition sfuRun (v : SessionVars) : Prop :=
  IsPessimistic v = true
  /\ SnapshotTS v = 0
  /\ InDeleteStmt v = false /\ InUpdateStmt v = false /\ InInsertStmt v = false
  /\ retriesGranted true
  /\ (forall i, (i < N)%nat -> driveError (ex_nexts (exec i)) = Some lockErr)
  /\ (exists rows, cleanRows (ex_nexts (exec N)) = Some rows).

Definition conflictsThenSuccess (kind : StmtKind) (v : SessionVars) : Prop :=
  match kind with
  | KindDML => dmlRun v
  | KindSelectForUpdate => sfuRun v
  end.

End ConflictRun.

(** The attempts of the worked execution: the lock client reports a
    write conflict in the first two attempts, which take it 20 each, and
    locks in 5 in the third. *)
Definition lockTimeOf (i : nat) : Z := if (i <? 2)%nat then 20 else 5.

Definition lockByAttempt (tr : Trace) (keys : list Key) : Timed (option error) :=
  mkTimed (lockTimeOf (attemptOf tr))
    (RVal (if (attemptOf tr <? 2)%nat then Some ErrWriteConflict else None)).

Definition envTwoConflicts : Env :=
  demoEnv (buildOf insertOk false) lockByAttempt (fun keys => keys) [key1] true.

(** A select-for-update whose first tree meets a write conflict after
    one batch; the tree built for the retry runs to the end. *)
Definition readerOfAttempt (i : nat) : Executor :=
  if (i =? 0)%nat then readerConflict else readerClean.

Definition buildByAttempt (tr : Trace) : Timed BuildResult :=
  mkTimed 11
    (RVal (mkBuildResult None false None (readerOfAttempt (attemptOf tr)) true)).

Definition envSelectRetry : Env :=
  demoEnv buildByAttempt lockOk (fun keys => keys) [key1] true.

(** * Properties *)

(** ** Arithmetic of the machine integers *)

Lemma wrap_uint64_small (z : Z) : 0 <= z < 2 ^ 64 -> wrap_uint64 z = z.
Proof. intros H. unfold wrap_uint64. apply Z.mod_small. exact H. Qed.

Lemma wrap_int64_add_l (a b : Z) :
  wrap_int64 (wrap_int64 a + b) = wrap_int64 (a + b).
Proof.
  unfold wrap_int64.
  replace ((a + 2 ^ 63) mod 2 ^ 64 - 2 ^ 63 + b + 2 ^ 63)
    with ((a + 2 ^ 63) mod 2 ^ 64 + b) by ring.
  rewrite Zplus_mod_idemp_l.
  replace (a + 2 ^ 63 + b) with (a + b + 2 ^ 63) by ring.
  reflexivity.
Qed.

Lemma wrap_int64_add_r (a b : Z) :
  wrap_int64 (a + wrap_int64 b) = wrap_int64 (a + b).
Proof. rewrite Z.add_comm, wrap_int64_add_l, Z.add_comm. reflexivity. Qed.

(** Runs the monadic plumbing of a goal or of a hypothesis. *)
Ltac go_simpl :=
  repeat (progress
    (cbv beta iota zeta delta
       [bind ret emit getWorld modifyStmt modifyVars resetPhaseDurations call
        panic outOfFuel finally deferring closeExecutor logAudit
        set_stmt set_vars set_trace];
     cbn [stmt vars trace fst snd isRetryReady negb andb orb elapsed outcome])).

Ltac go_simpl_in H :=
  repeat (progress
    (cbv beta iota zeta delta
       [bind ret emit getWorld modifyStmt modifyVars resetPhaseDurations call
        panic outOfFuel finally deferring closeExecutor logAudit
        set_stmt set_vars set_trace] in H;
     cbn [stmt vars trace fst snd isRetryReady negb andb orb elapsed outcome] in H)).

(** ** Deferred functions *)

Lemma deferring_ret {A} (body : M A) (f : Res A -> Res A) (w : World) :
  f OutOfFuel = OutOfFuel ->
  deferring body (fun r => ret (f r)) w = (fst (body w), f (snd (body w))).
Proof.
  intros Hf. unfold deferring, ret.
  destruct (body w) as [w1 [a|p|]]; cbn.
  - destruct (f (Ret a)); reflexivity.
  - destruct (f (Panic p)); reflexivity.
  - rewrite Hf. reflexivity.
Qed.

(** ** The recovery step *)

Section RecoveryFacts.

Variable env : Env.

Lemma handlePessimisticLockError_eq (lockErr : error) (w : World) :
  handlePessimisticLockError env (Some lockErr) w
  = (fst (recoveryBody env lockErr w),
     reportDeadlock (snd (recoveryBody env lockErr w))).
Proof.
  unfold handlePessimisticLockError. apply deferring_ret. reflexivity.
Qed.

Lemma buildExecutor_retryCount (w w' : World) (r : Res (Executor + error)) :
  buildExecutor env w = (w', r) -> retryCount (stmt w') = retryCount (stmt w).
Proof.
  unfold buildExecutor. go_simpl.
  destruct (outcome (build env _)) as [b|p]; go_simpl.
  - destruct (b_err b); go_simpl.
    + intros H; inversion H; subst; cbn. reflexivity.
    + destruct (b_isExecuteExec b); go_simpl.
      * destruct (b_executeBuildErr b); go_simpl;
          intros H; inversion H; subst; cbn; reflexivity.
      * intros H; inversion H; subst; cbn. reflexivity.
  - intros H; inversion H; subst; cbn. reflexivity.
Qed.

Lemma openExecutor_retryCount (e : Executor) (w w' : World)
  (r : Res (option error)) :
  openExecutor e w = (w', r) -> retryCount (stmt w') = retryCount (stmt w).
Proof.
  unfold openExecutor. go_simpl.
  destruct (outcome (ex_open e)); go_simpl; intros H; inversion H; subst; cbn;
    reflexivity.
Qed.

(** The recovery step keeps the retry counter within the budget. *)
Lemma recovery_keeps_counter_bounded (lockErr : option error) (w : World) :
  MaxRetryCount env < 2 ^ 64 ->
  0 <= retryCount (stmt w) <= MaxRetryCount env ->
  0 <= retryCount (stmt (fst (handlePessimisticLockError env lockErr w)))
    <= MaxRetryCount env.
Proof.
  intros Hmax Hrc. destruct lockErr as [lockErr|]; [|exact Hrc].
  rewrite handlePessimisticLockError_eq. cbn [fst].
  unfold recoveryBody. go_simpl.
  destruct (OnStmtErrorForNextAction env (trace w) lockErr) as [action [err|]];
    go_simpl; [exact Hrc|].
  destruct (isRetryReady action); go_simpl; [|exact Hrc].
  destruct (MaxRetryCount env <=? retryCount (stmt w)) eqn:Hle; go_simpl;
    [exact Hrc|].
  apply Z.leb_gt in Hle.
  assert (Hinc : wrap_uint64 (retryCount (stmt w) + 1) = retryCount (stmt w) + 1)
    by (apply wrap_uint64_small; lia).
  destruct (OnStmtRetry env _); [cbn; lia|].
  destruct (GetStmtForUpdateTS env _) as [ts [tsErr|]]; [cbn; lia|].
  go_simpl.
  match goal with
  | |- context [buildExecutor env ?w0] =>
      destruct (buildExecutor env w0) as [w1 rb] eqn:Hb;
      apply buildExecutor_retryCount in Hb; cbn in Hb
  end.
  destruct rb as [[e|err]|p|]; try (cbn; lia).
  go_simpl.
  match goal with
  | |- context [openExecutor e ?w0] =>
      destruct (openExecutor e w0) as [w2 ro] eqn:Ho;
      apply openExecutor_retryCount in Ho; cbn in Ho
  end.
  destruct ro as [[err|]|p|]; cbn; lia.
Qed.

(** C1. With a retry-ready verdict and the retry counter at the
    configured maximum, the recovery step returns no executor and the
    dedicated retry-limit error, which is not the lock-conflict error it
    was given, and leaves the counter at the maximum; below the maximum
    the counter is incremented. *)
Theorem retry_budget_enforced (w : World) (lockErr : error) :
  OnStmtErrorForNextAction env (trace w) lockErr = (StmtActionRetryReady, None) ->
  0 <= retryCount (stmt w) <= MaxRetryCount env ->
  MaxRetryCount env < 2 ^ 64 ->
  (MaxRetryCount env <= retryCount (stmt w) ->
   snd (handlePessimisticLockError env (Some lockErr) w)
     = Ret (None, Some errRetryLimit)
   /\ (isLockConflict lockErr = true ->
       snd (handlePessimisticLockError env (Some lockErr) w)
         <> Ret (None, Some lockErr))
   /\ retryCount (stmt (fst (handlePessimisticLockError env (Some lockErr) w)))
      = MaxRetryCount env)
  /\ (retryCount (stmt w) < MaxRetryCount env ->
      retryCount (stmt (fst (handlePessimisticLockError env (Some lockErr) w)))
      = retryCount (stmt w) + 1).
Proof.
  intros Hverdict Hrc Hmax. rewrite handlePessimisticLockError_eq.
  cbn [fst snd]. split.
  - intros Hge.
    assert (Hle : (MaxRetryCount env <=? retryCount (stmt w)) = true)
      by (apply Z.leb_le; exact Hge).
    unfold recoveryBody. go_simpl. rewrite Hverdict. go_simpl.
    rewrite Hle. go_simpl.
    split; [reflexivity|]. split; [|lia].
    intros Hconf Heq. inversion Heq as [Hl]. rewrite <- Hl in Hconf.
    discriminate Hconf.
  - intros Hlt.
    assert (Hle : (MaxRetryCount env <=? retryCount (stmt w)) = false)
      by (apply Z.leb_gt; exact Hlt).
    assert (Hinc : wrap_uint64 (retryCount (stmt w) + 1) = retryCount (stmt w) + 1)
      by (apply wrap_uint64_small; lia).
    unfold recoveryBody. go_simpl. rewrite Hverdict. go_simpl.
    rewrite Hle. go_simpl.
    destruct (OnStmtRetry env _); [cbn; exact Hinc|].
    destruct (GetStmtForUpdateTS env _) as [ts [tsErr|]]; [cbn; exact Hinc|].
    go_simpl.
    match goal with
    | |- context [buildExecutor env ?w0] =>
        destruct (buildExecutor env w0) as [w1 rb] eqn:Hb;
        apply buildExecutor_retryCount in Hb; cbn in Hb
    end.
    destruct rb as [[e|err]|p|]; try (cbn; rewrite Hb; exact Hinc).
    go_simpl.
    match goal with
    | |- context [openExecutor e ?w0] =>
        destruct (openExecutor e w0) as [w2 ro] eqn:Ho;
        apply openExecutor_retryCount in Ho; cbn in Ho
    end.
    destruct ro as [[err|]|p|]; cbn; rewrite Ho, Hb; exact Hinc.
Qed.

(** C3. An error whose cause is the lock client's deadlock signal, with
    a non-retry verdict of the transaction manager, is never answered
    with a fresh executor, whatever the retry counter: the step returns
    [ErrDeadlock] (not the raw lock-client value), and the only thing it
    did was to ask the manager. *)
Theorem deadlock_is_fatal (w : World) (lockErr : error) :
  isTikvDeadlock lockErr = true ->
  nonRetryVerdict (OnStmtErrorForNextAction env (trace w) lockErr) = true ->
  handlePessimisticLockError env (Some lockErr) w
  = (set_trace w (EvOnStmtErrorForNextAction lockErr :: trace w),
     Ret (None, Some ErrDeadlock))
  /\ ErrDeadlock <> lockErr.
Proof.
  intros Hdead Hverdict. split.
  - rewrite handlePessimisticLockError_eq. unfold recoveryBody. go_simpl.
    destruct (OnStmtErrorForNextAction env (trace w) lockErr) as [action [err|]];
      cbn in Hverdict; go_simpl.
    + unfold reportDeadlock. rewrite Hverdict. reflexivity.
    + rewrite Hverdict. go_simpl. unfold reportDeadlock. rewrite Hdead.
      reflexivity.
  - intros Heq. rewrite <- Heq in Hdead. discriminate Hdead.
Qed.

End RecoveryFacts.

(** ** Writes under a read-only view *)

Section ReadOnlyView.

Variable env : Env.

Lemma handleNoDelayExecutor_readOnly (e : Executor) (w : World) :
  isWriteExec (ex_kind e) = true ->
  readOnlyView (vars w) = true ->
  handleNoDelayExecutor e w
  = (set_trace w (closeAndAudit (vars w) ++ trace w),
     Ret (None, Some (readOnlyViolation (vars w)))).
Proof.
  intros Hw Hro. unfold handleNoDelayExecutor, readOnlyView, readOnlyViolation,
    closeAndAudit in *. go_simpl. rewrite Hw. go_simpl.
  destruct (SnapshotTS (vars w) =? 0); go_simpl.
  - cbn in Hro. rewrite Hro. go_simpl.
    destruct (InRestrictedSQL (vars w)); reflexivity.
  - destruct (InRestrictedSQL (vars w)); reflexivity.
Qed.

(** C4. A write executor run while the session is pinned to a snapshot
    or a low-resolution timestamp returns the read-only error at once:
    the executor is closed and audited but never driven, and the lock
    client is not reached.  The same holds through the pessimistic DML
    loop, the transaction manager declining to retry that error, and
    a select-for-update entered under a snapshot timestamp only closes
    its executor and returns the same error. *)
Theorem write_rejected_under_read_only_view (e : Executor) (w : World) :
  (isWriteExec (ex_kind e) = true ->
   readOnlyView (vars w) = true ->
   handleNoDelayExecutor e w
   = (set_trace w (closeAndAudit (vars w) ++ trace w),
      Ret (None, Some (readOnlyViolation (vars w))))
   /\ forallb (fun ev => negb (drivesOrLocks ev)) (closeAndAudit (vars w)) = true
   /\ (Txn env (trace w) = None ->
       (forall tr, declinesRetry (readOnlyViolation (vars w))
                     (OnStmtErrorForNextAction env tr (readOnlyViolation (vars w)))) ->
       exists new,
         trace (fst (handlePessimisticDML env e w)) = new ++ trace w
         /\ forallb (fun ev => negb (drivesOrLocks ev)) new = true
         /\ snd (handlePessimisticDML env e w)
            = Ret (Some (readOnlyViolation (vars w)))))
  /\ (SnapshotTS (vars w) <> 0 ->
      handlePessimisticSelectForUpdate env e w
      = (set_trace w (EvClose :: trace w), Ret (None, Some errSnapshotWrite))).
Proof.
  split.
  - intros Hw Hro. split; [apply handleNoDelayExecutor_readOnly; assumption|].
    split; [unfold closeAndAudit; destruct (InRestrictedSQL (vars w)); reflexivity|].
    intros Htxn Hverdict.
    unfold handlePessimisticDML. go_simpl. rewrite Htxn.
    unfold retryFuel. cbn [pessimisticDMLLoop]. go_simpl.
    rewrite (handleNoDelayExecutor_readOnly e w Hw Hro). go_simpl.
    destruct (txn_Valid env _); go_simpl.
    + rewrite handlePessimisticLockError_eq. unfold recoveryBody. go_simpl.
      exists (EvOnStmtErrorForNextAction (readOnlyViolation (vars w))
                :: closeAndAudit (vars w)).
      match goal with
      | |- context [OnStmtErrorForNextAction env ?tr ?err] =>
          destruct (Hverdict tr) as [Hback|[Hnone Haction]];
          destruct (OnStmtErrorForNextAction env tr err) as [action oerr]
      end; cbn [fst snd] in *; subst oerr; go_simpl;
        try (rewrite Haction; go_simpl);
        unfold readOnlyViolation, closeAndAudit, afterLockError;
        destruct (InRestrictedSQL (vars w)), (SnapshotTS (vars w) =? 0);
        cbn; repeat split; reflexivity.
    + exists (closeAndAudit (vars w)).
      unfold closeAndAudit.
      destruct (InRestrictedSQL (vars w)); cbn; repeat split; reflexivity.
  - intros Hsnap. unfold handlePessimisticSelectForUpdate. go_simpl.
    destruct (SnapshotTS (vars w) =? 0) eqn:Heq.
    + apply Z.eqb_eq in Heq. contradiction.
    + reflexivity.
Qed.

End ReadOnlyView.

(** ** The pessimistic DML loop *)

Section DMLLoop.

Variable env : Env.

Lemma next_retryCount (e : Executor) (req : Chunk) (w w' : World)
  (r : Res (Executor * Chunk * option error)) :
  next e req w = (w', r) -> retryCount (stmt w') = retryCount (stmt w).
Proof.
  unfold next. destruct (ex_nexts e) as [|t rest]; go_simpl.
  - intros H; inversion H; subst; reflexivity.
  - destruct (outcome t) as [[rows|err]|p]; go_simpl;
      intros H; inversion H; subst; reflexivity.
Qed.

(** A drive that returns without error made exactly one [Next] call,
    then closed and audited. *)
Lemma handleNoDelayExecutor_ok (e : Executor) (w w1 : World)
  (rs : option RecordSet) :
  handleNoDelayExecutor e w = (w1, Ret (rs, None)) ->
  rs = None
  /\ retryCount (stmt w1) = retryCount (stmt w)
  /\ exists d, trace w1 = closeAndAudit (vars w) ++ EvNext d :: trace w.
Proof.
  unfold handleNoDelayExecutor, closeAndAudit. go_simpl.
  destruct (isWriteExec (ex_kind e) && negb (SnapshotTS (vars w) =? 0));
    go_simpl; [destruct (InRestrictedSQL (vars w)); discriminate|].
  destruct (isWriteExec (ex_kind e) && LowResolutionTSO (vars w));
    go_simpl; [destruct (InRestrictedSQL (vars w)); discriminate|].
  unfold next. destruct (ex_nexts e) as [|t rest]; go_simpl.
  - destruct (InRestrictedSQL (vars w)); intros H; inversion H; subst; cbn;
      repeat split; eexists; reflexivity.
  - destruct (outcome t) as [[rows|err]|p]; go_simpl;
      destruct (InRestrictedSQL (vars w)); intros H; inversion H; subst; cbn;
      repeat split; eexists; reflexivity.
Qed.

Lemma handleNoDelayExecutor_retryCount (e : Executor) (w w' : World)
  (r : Res (option RecordSet * option error)) :
  handleNoDelayExecutor e w = (w', r) ->
  retryCount (stmt w') = retryCount (stmt w).
Proof.
  unfold handleNoDelayExecutor. go_simpl.
  destruct (isWriteExec (ex_kind e) && negb (SnapshotTS (vars w) =? 0));
    go_simpl;
    [destruct (InRestrictedSQL (vars w)); intros H; inversion H; reflexivity|].
  destruct (isWriteExec (ex_kind e) && LowResolutionTSO (vars w));
    go_simpl;
    [destruct (InRestrictedSQL (vars w)); intros H; inversion H; reflexivity|].
  destruct (next e (newFirstChunk e) w) as [w1 r1] eqn:Hn.
  apply next_retryCount in Hn.
  destruct r1 as [a|p|]; go_simpl;
    destruct (InRestrictedSQL (vars w1)); intros H; inversion H; subst; cbn;
    exact Hn.
Qed.

(** C10. When the transaction is no longer valid after the drive, the
    loop returns the drive's own result, lock-conflict errors included,
    in the very state the drive left: the recovery step is not entered,
    the retry counter is unchanged, and no lock keys are computed or
    acquired. *)
Theorem invalid_txn_returns_drive_result (e : Executor) (w w1 : World)
  (r : option RecordSet * option error) :
  Txn env (trace w) = None ->
  handleNoDelayExecutor e w = (w1, Ret r) ->
  txn_Valid env (trace w1) = false ->
  handlePessimisticDML env e w = (w1, Ret (snd r))
  /\ retryCount (stmt w1) = retryCount (stmt w).
Proof.
  intros Htxn Hdrive Hvalid. split.
  - unfold handlePessimisticDML. go_simpl. rewrite Htxn.
    unfold retryFuel. cbn [pessimisticDMLLoop]. go_simpl.
    rewrite Hdrive. go_simpl. rewrite Hvalid. reflexivity.
  - eapply handleNoDelayExecutor_retryCount. exact Hdrive.
Qed.


End DMLLoop.

(** ** Closing a result stream *)

Section CloseFacts.

Variable env : Env.

Lemma RecordSet_Close_effects (rs : RecordSet) (w : World) :
  let w1 := fst (RecordSet_Close env rs w) in
  vars w1 = vars w
  /\ finalizeCount (trace w1) = S (finalizeCount (trace w))
  /\ countEvents isAudit (trace w1)
     = (countEvents isAudit (trace w) + auditsPerClose (vars w))%nat
  /\ countEvents isDetach (trace w1)
     = (countEvents isDetach (trace w) + detachesPerClose (vars w))%nat.
Proof.
  destruct rs as [a|c]; unfold RecordSet_Close, recordSet_Close,
    chunkRowRecordSet_Close, CloseRecordSet, FinishExecuteStmt,
    detachDiskThenMem, auditsPerClose, detachesPerClose, finalizeCount,
    countEvents; go_simpl;
    destruct (InRestrictedSQL (vars w)); go_simpl;
    destruct (hasDiskTracker (vars w)); go_simpl;
    destruct (hasMemTracker (vars w)); cbn;
    repeat split; lia.
Qed.

(** C8, as the code has it.  [Close] carries no guard: every call runs
    the finalize-and-record path once, so two calls run it twice, the
    second adding one more [FinishExecuteStmt] and as many audit events
    and tracker detachments as the first. *)
Theorem close_finalizes_on_every_call (rs : RecordSet) (w : World) :
  let w1 := fst (RecordSet_Close env rs w) in
  let w2 := fst (RecordSet_Close env rs w1) in
  finalizeCount (trace w1) = (finalizeCount (trace w) + 1)%nat
  /\ finalizeCount (trace w2) = (finalizeCount (trace w) + 2)%nat
  /\ countEvents isAudit (trace w2)
     = (countEvents isAudit (trace w) + 2 * auditsPerClose (vars w))%nat
  /\ countEvents isDetach (trace w2)
     = (countEvents isDetach (trace w) + 2 * detachesPerClose (vars w))%nat.
Proof.
  cbv zeta.
  destruct (RecordSet_Close_effects rs w) as (Hv & Hf & Ha & Hd).
  destruct (RecordSet_Close_effects rs (fst (RecordSet_Close env rs w)))
    as (_ & Hf' & Ha' & Hd').
  cbv zeta in *. rewrite Hv in *. lia.
Qed.

End CloseFacts.

(** ** [Exec]: panics and the no-delay classification *)

Section ExecFacts.

Variable env : Env.

Lemma Exec_eq (w : World) :
  Exec env w
  = match ExecBody env w with
    | (w1, OutOfFuel) => (w1, OutOfFuel)
    | (w1, r) =>
        match ExecDeferred env r w1 with
        | (w2, Ret r') => (w2, r')
        | (w2, Panic p) => (w2, Panic p)
        | (w2, OutOfFuel) => (w2, OutOfFuel)
        end
    end.
Proof. reflexivity. Qed.

(** [recordSet.Next] returns, whatever the tree does. *)
Lemma recordSet_Next_returns (a : recordSet) (req : Chunk) (w : World) :
  exists r, snd (recordSet_Next a req w) = Ret r.
Proof.
  unfold recordSet_Next, next. go_simpl.
  destruct (ex_nexts (rs_executor a)) as [|t rest]; go_simpl.
  - destruct (Chunk_NumRows (Chunk_Reset req) =? 0)%nat; go_simpl;
      eexists; reflexivity.
  - destruct (outcome t) as [[rows|err]|p]; go_simpl.
    + destruct (Chunk_NumRows _ =? 0)%nat; go_simpl; eexists; reflexivity.
    + eexists; reflexivity.
    + eexists; reflexivity.
Qed.

(** C7, as the code has it.  The deferred function of [Exec] turns a
    panic into an error only when the panic value is a string that
    carries the memory-exceeded signal; every other panic is raised
    again.  [recordSet.Next] recovers every panic and always returns. *)
Theorem exec_recovers_only_memory_exceeded (w w1 : World) (p : PanicValue) :
  ExecBody env w = (w1, Panic p) ->
  (isMemoryExceedPanic env p = true ->
   Exec env w
   = (set_trace w1 (EvLogPanic :: trace w1), Ret (None, Some (ErrPanic p))))
  /\ (isMemoryExceedPanic env p = false -> Exec env w = (w1, Panic p))
  /\ (forall (a : recordSet) (req : Chunk) (w' : World),
        (exists r, snd (recordSet_Next a req w') = Ret r)
        /\ forall w'' p', next (rs_executor a) req w' = (w'', Panic p') ->
             exists a', recordSet_Next a req w'
                        = (set_trace w'' (EvLogPanic :: trace w''),
                           Ret (a', req, Some (ErrPanic p')))).
Proof.
  intros Hbody. rewrite Exec_eq, Hbody. unfold ExecDeferred.
  repeat split.
  - intros Hoom. rewrite Hoom. reflexivity.
  - intros Hoom. rewrite Hoom. reflexivity.
  - apply recordSet_Next_returns.
  - intros w'' p' Hnext. unfold recordSet_Next. go_simpl. rewrite Hnext.
    eexists. reflexivity.
Qed.

Lemma openExecutor_frame (e : Executor) (w w' : World)
  (r : Res (option error)) :
  openExecutor e w = (w', r) ->
  vars w' = vars w /\ isSelectForUpdate (stmt w') = isSelectForUpdate (stmt w).
Proof.
  unfold openExecutor. go_simpl.
  destruct (outcome (ex_open e)); go_simpl; intros H; inversion H; subst; cbn;
    split; reflexivity.
Qed.

Lemma handleNoDelayExecutor_no_stream (e : Executor) (w w' : World)
  (r : option RecordSet * option error) :
  handleNoDelayExecutor e w = (w', Ret r) -> fst r = None.
Proof.
  unfold handleNoDelayExecutor. go_simpl.
  destruct (isWriteExec (ex_kind e) && negb (SnapshotTS (vars w) =? 0));
    go_simpl;
    [destruct (InRestrictedSQL (vars w)); intros H; inversion H; reflexivity|].
  destruct (isWriteExec (ex_kind e) && LowResolutionTSO (vars w));
    go_simpl;
    [destruct (InRestrictedSQL (vars w)); intros H; inversion H; reflexivity|].
  destruct (next e (newFirstChunk e) w) as [w1 [a|p|]]; go_simpl;
    destruct (InRestrictedSQL (vars w1)); intros H; inversion H; reflexivity.
Qed.

(** The classification proper: an executor that is its own [toCheck] and
    has an empty schema, or is the calculate-no-delay projection, is
    handled on the spot and yields no record set. *)
Lemma handleNoDelay_handled (e : Executor) (isPessimistic : bool)
  (w w' : World) (h : bool) (rs : option RecordSet) (err : option error) :
  snd (toCheck e) = false ->
  ex_schemaLen e = 0%nat \/ isCalculateNoDelay e = true ->
  handleNoDelay env e isPessimistic w = (w', Ret (h, rs, err)) ->
  h = true /\ rs = None.
Proof.
  intros Htc Hnd. unfold handleNoDelay.
  assert (Hfst : fst (toCheck e) = e).
  { unfold toCheck in *. destruct (ex_kind e); try reflexivity.
    destruct (ex_analyzeExec e); [discriminate|reflexivity]. }
  rewrite Hfst, Htc. go_simpl.
  destruct (ex_schemaLen e =? 0)%nat eqn:Hlen.
  - destruct isPessimistic; go_simpl.
    + destruct (handlePessimisticDML env e w) as [w1 [a|p|]]; go_simpl;
        unfold detachMemThenDisk; go_simpl;
        destruct (hasMemTracker (vars w1)), (hasDiskTracker (vars w1));
        go_simpl; intros H; inversion H; split; reflexivity.
    + destruct (handleNoDelayExecutor e w) as [w1 [a|p|]] eqn:Hd; go_simpl.
      * apply handleNoDelayExecutor_no_stream in Hd. rewrite Hd.
        unfold detachMemThenDisk; go_simpl;
        destruct (hasMemTracker (vars w1)), (hasDiskTracker (vars w1));
        go_simpl; intros H; inversion H; split; reflexivity.
      * unfold detachMemThenDisk; go_simpl;
        destruct (hasMemTracker (vars w1)), (hasDiskTracker (vars w1));
        go_simpl; intros H; inversion H.
      * intros H; inversion H.
  - destruct Hnd as [Hz|Hcalc];
      [apply Nat.eqb_eq in Hz; rewrite Hz in Hlen; discriminate|].
    rewrite Hcalc. go_simpl.
    destruct (handleNoDelayExecutor e w) as [w1 [a|p|]] eqn:Hd; go_simpl.
    + apply handleNoDelayExecutor_no_stream in Hd. rewrite Hd.
      unfold detachMemThenDisk; go_simpl;
      destruct (hasMemTracker (vars w1)), (hasDiskTracker (vars w1));
      go_simpl; intros H; inversion H; split; reflexivity.
    + unfold detachMemThenDisk; go_simpl;
      destruct (hasMemTracker (vars w1)), (hasDiskTracker (vars w1));
      go_simpl; intros H; inversion H.
    + intros H; inversion H.
Qed.

End ExecFacts.

(** ** Retry accounting *)

Lemma sumDurations_split (ph : Phase) (tr : Trace) :
  sumDurations ph tr
  = sumDurations ph (finalAttempt tr) + sumDurations ph (priorAttempts tr).
Proof.
  induction tr as [|ev tr IH]; [reflexivity|].
  cbn [finalAttempt priorAttempts sumDurations].
  destruct (isRetry ev) eqn:Hev.
  - destruct ev; try discriminate. destruct ph; cbn; lia.
  - cbn [sumDurations]. rewrite IH. lia.
Qed.

Lemma accounted_neutral (a : ExecStmt) (tr : Trace) (ev : Event) :
  isNeutral ev = true -> accounted a tr -> accounted a (ev :: tr).
Proof.
  intros Hn (Hrc & Hle & Hph). unfold accounted, retries, lockErrors in *.
  assert (Hr : isRetry ev = false) by (destruct ev; try reflexivity; discriminate).
  assert (Hl : isLockError ev = false)
    by (destruct ev; try reflexivity; discriminate).
  cbn [filter finalAttempt priorAttempts]. rewrite Hr, Hl.
  repeat split; try assumption.
  - destruct (Hph ph) as [H0 _]. rewrite H0. unfold phaseTotal.
    cbn [sumDurations].
    replace (eventDuration ph ev) with 0
      by (destruct ph, ev; try reflexivity; discriminate).
    reflexivity.
  - apply Hph.
Qed.

Lemma accounted_timed (a : ExecStmt) (tr : Trace) (ph : Phase) (d : Z)
  (keys : list Key) :
  accounted a tr -> accounted (addPhase ph d a) (timedEvent ph d keys :: tr).
Proof.
  intros (Hrc & Hle & Hph). unfold accounted, retries, lockErrors in *.
  assert (Hr : isRetry (timedEvent ph d keys) = false) by (destruct ph; reflexivity).
  assert (Hl : isLockError (timedEvent ph d keys) = false)
    by (destruct ph; reflexivity).
  cbn [filter finalAttempt priorAttempts]. rewrite Hr, Hl.
  split; [destruct ph; exact Hrc|]. split; [exact Hle|].
  intros ph'. destruct (Hph ph') as [H0 H1]. unfold phaseTotal in *.
  cbn [sumDurations].
  destruct ph, ph'; cbn -[wrap_int64 Z.add] in *; split; try assumption;
    try (rewrite H0, wrap_int64_add_l; f_equal; lia);
    try (rewrite H0; f_equal; lia).
Qed.

Lemma accounted_flags (a : ExecStmt) (tr : Trace) (p : option bool) (sfu : bool) :
  accounted a tr -> accounted (setBuildFlags p sfu a) tr.
Proof. intros H. exact H. Qed.

(** One completed retry preparation: the lock error, the counter bump,
    [OnStmtRetry], the fresh for-update timestamp and the fold. *)
Lemma accounted_retry (a : ExecStmt) (tr : Trace) (lockErr : error) :
  retryCount a + 1 < 2 ^ 64 ->
  accounted a tr ->
  accounted (resetPhaseDurations_stmt (incRetryCount a))
    (EvGetStmtForUpdateTS :: EvOnStmtRetry
       :: EvOnStmtErrorForNextAction lockErr :: tr).
Proof.
  intros Hlt (Hrc & Hle & Hph). unfold accounted, retries, lockErrors in *.
  cbn [filter isRetry isLockError finalAttempt priorAttempts List.length].
  assert (Hge : 0 <= retryCount a) by (rewrite Hrc; lia).
  split; [|split].
  - cbn [resetPhaseDurations_stmt incRetryCount retryCount].
    rewrite wrap_uint64_small by lia. lia.
  - lia.
  - intros ph. destruct (Hph ph) as [H0 H1]. unfold phaseTotal in *.
    cbn [sumDurations].
    assert (Hz : eventDuration ph (EvOnStmtErrorForNextAction lockErr) = 0)
      by (destruct ph; reflexivity).
    assert (Hz' : eventDuration ph EvGetStmtForUpdateTS = 0)
      by (destruct ph; reflexivity).
    rewrite Hz, Hz'. cbn [Z.add].
    rewrite (sumDurations_split ph tr).
    destruct ph; cbn -[wrap_int64 Z.add] in *; (split; [reflexivity|]);
      rewrite H0, H1, wrap_int64_add_l, wrap_int64_add_r; f_equal; lia.
Qed.

Ltac acc_solve :=
  unfold Accounted in *; cbn [stmt trace] in *;
  repeat first
    [ assumption
    | apply (accounted_timed _ _ PhBuild _ [])
    | apply (accounted_timed _ _ PhOpen _ [])
    | apply (accounted_timed _ _ PhNext _ [])
    | apply (accounted_timed _ _ PhLock)
    | apply accounted_flags
    | apply accounted_neutral; [reflexivity|] ].

Section Accounting.

Variable env : Env.
Hypothesis MaxRetryCount_uint : MaxRetryCount env < 2 ^ 64.

Lemma buildExecutor_Accounted (w w' : World) (r : Res (Executor + error)) :
  Accounted w -> buildExecutor env w = (w', r) -> Accounted w'.
Proof.
  intros Hacc. unfold buildExecutor. go_simpl.
  destruct (outcome (build env _)) as [b|p]; go_simpl.
  - destruct (b_err b); go_simpl.
    + intros H; inversion H; subst. acc_solve.
    + destruct (b_isExecuteExec b); go_simpl.
      * destruct (b_executeBuildErr b); go_simpl;
          intros H; inversion H; subst; acc_solve.
      * intros H; inversion H; subst. acc_solve.
  - intros H; inversion H; subst. acc_solve.
Qed.

Lemma openExecutor_Accounted (e : Executor) (w w' : World)
  (r : Res (option error)) :
  Accounted w -> openExecutor e w = (w', r) -> Accounted w'.
Proof.
  intros Hacc. unfold openExecutor. go_simpl.
  destruct (outcome (ex_open e)); go_simpl; intros H; inversion H; subst;
    acc_solve.
Qed.

Lemma next_Accounted (e : Executor) (req : Chunk) (w w' : World)
  (r : Res (Executor * Chunk * option error)) :
  Accounted w -> next e req w = (w', r) -> Accounted w'.
Proof.
  intros Hacc. unfold next. destruct (ex_nexts e) as [|t rest]; go_simpl.
  - intros H; inversion H; subst. acc_solve.
  - destruct (outcome t) as [[rows|err]|p]; go_simpl;
      intros H; inversion H; subst; acc_solve.
Qed.

Lemma handleNoDelayExecutor_Accounted (e : Executor) (w w' : World)
  (r : Res (option RecordSet * option error)) :
  Accounted w -> handleNoDelayExecutor e w = (w', r) -> Accounted w'.
Proof.
  intros Hacc. unfold handleNoDelayExecutor. go_simpl.
  destruct (isWriteExec (ex_kind e) && negb (SnapshotTS (vars w) =? 0));
    go_simpl;
    [destruct (InRestrictedSQL (vars w)); intros H; inversion H; acc_solve|].
  destruct (isWriteExec (ex_kind e) && LowResolutionTSO (vars w));
    go_simpl;
    [destruct (InRestrictedSQL (vars w)); intros H; inversion H; acc_solve|].
  destruct (next e (newFirstChunk e) w) as [w1 r1] eqn:Hn.
  apply next_Accounted in Hn; [|exact Hacc].
  destruct r1 as [a|p|]; go_simpl;
    destruct (InRestrictedSQL (vars w1)); intros H; inversion H; subst;
    acc_solve.
Qed.

(** A recovery that hands back an executor, or nothing at all, leaves
    the books balanced. *)
Lemma recoveryBody_Accounted (lockErr : error) (w w' : World)
  (oe : option Executor) :
  Accounted w ->
  recoveryBody env lockErr w = (w', Ret (oe, None)) ->
  Accounted w' /\ retryCount (stmt w) < MaxRetryCount env.
Proof.
  intros Hacc. unfold recoveryBody. go_simpl.
  destruct (OnStmtErrorForNextAction env (trace w) lockErr) as [action [err|]];
    go_simpl; [intros H; inversion H|].
  destruct (isRetryReady action); go_simpl; [|intros H; inversion H].
  destruct (MaxRetryCount env <=? retryCount (stmt w)) eqn:Hle; go_simpl;
    [intros H; inversion H|].
  apply Z.leb_gt in Hle.
  destruct (OnStmtRetry env _); go_simpl; [intros H; inversion H|].
  destruct (GetStmtForUpdateTS env _) as [ts [tsErr|]]; go_simpl;
    [intros H; inversion H|].
  match goal with
  | |- context [buildExecutor env ?w0] =>
      assert (Hacc0 : Accounted w0)
        by (unfold Accounted in *; cbn [stmt trace];
            apply accounted_retry; [lia|exact Hacc]);
      destruct (buildExecutor env w0) as [w1 rb] eqn:Hb;
      apply (buildExecutor_Accounted _ _ _ Hacc0) in Hb
  end.
  destruct rb as [[e|err]|p|]; go_simpl; try (intros H; inversion H; fail).
  match goal with
  | |- context [openExecutor e ?w0] =>
      assert (Hacc1 : Accounted w0) by acc_solve;
      destruct (openExecutor e w0) as [w2 ro] eqn:Ho;
      apply (openExecutor_Accounted _ _ _ _ Hacc1) in Ho
  end.
  destruct ro as [[err|]|p|]; go_simpl; intros H; inversion H; subst.
  split; [exact Ho|exact Hle].
Qed.

Lemma reportDeadlock_no_error (r : Res (option Executor * option error))
  (oe : option Executor) :
  reportDeadlock r = Ret (oe, None) -> r = Ret (oe, None).
Proof.
  destruct r as [[e [err|]]|p|]; cbn; try (intros H; exact H).
  destruct (isTikvDeadlock err); intros H; inversion H.
Qed.

Lemma handlePessimisticLockError_Accounted (lockErr : option error)
  (w w' : World) (oe : option Executor) :
  Accounted w ->
  handlePessimisticLockError env lockErr w = (w', Ret (oe, None)) ->
  Accounted w'.
Proof.
  intros Hacc. destruct lockErr as [lockErr|].
  - rewrite handlePessimisticLockError_eq. intros H.
    inversion H as [[Hw Hr]]. apply reportDeadlock_no_error in Hr.
    eapply recoveryBody_Accounted; [exact Hacc|].
    rewrite <- Hr. apply surjective_pairing.
  - unfold handlePessimisticLockError. go_simpl.
    intros H; inversion H; subst. exact Hacc.
Qed.

Lemma afterLockError_Accounted (again : Executor -> M (option error))
  (r : option Executor * option error) (w w' : World) :
  (forall e w0 w1, Accounted w0 -> again e w0 = (w1, Ret None) -> Accounted w1) ->
  (snd r = None -> Accounted w) ->
  afterLockError again r w = (w', Ret None) -> Accounted w'.
Proof.
  intros Hagain Hacc. unfold afterLockError.
  destruct r as [oe [err|]]; go_simpl.
  - destruct (ErrDeadlock_Equal err); go_simpl; intros H; inversion H.
  - destruct oe as [e|]; [|intros H; inversion H].
    apply Hagain. apply Hacc. reflexivity.
Qed.

Lemma recovery_then_again (again : Executor -> M (option error))
  (lockErr : error) (w w' : World) :
  (forall e w0 w1, Accounted w0 -> again e w0 = (w1, Ret None) -> Accounted w1) ->
  Accounted w ->
  (rec <- handlePessimisticLockError env (Some lockErr) ;;
   afterLockError again rec) w = (w', Ret None) ->
  Accounted w'.
Proof.
  intros Hagain Hacc. go_simpl.
  destruct (handlePessimisticLockError env (Some lockErr) w)
    as [w1 [[oe oerr]|p|]] eqn:Hrec; try (intros H; inversion H; fail).
  apply afterLockError_Accounted; [exact Hagain|].
  cbn [snd]. intros ->.
  eapply handlePessimisticLockError_Accounted; [exact Hacc|exact Hrec].
Qed.

Lemma pessimisticDMLLoop_Accounted (fuel : nat) :
  forall (e : Executor) (w w' : World),
    Accounted w ->
    pessimisticDMLLoop env fuel e w = (w', Ret None) ->
    Accounted w'.
Proof.
  induction fuel as [|fuel IH]; intros e w w' Hacc;
    [intros H; inversion H|].
  cbn [pessimisticDMLLoop].
  unfold bind at 1.
  destruct (handleNoDelayExecutor e w) as [w1 [r|p|]] eqn:Hd;
    try (intros H; inversion H; fail).
  apply (handleNoDelayExecutor_Accounted _ _ _ _ Hacc) in Hd.
  unfold bind at 1, getWorld at 1.
  destruct (txn_Valid env (trace w1)); cbn [negb].
  2:{ unfold ret. intros H; inversion H; subst. exact Hd. }
  destruct (snd r) as [err|].
  - apply recovery_then_again; [exact IH|exact Hd].
  - go_simpl.
    destruct (KeysNeedToLock env (trace w1)) as [keys [err1|]]; go_simpl;
      [intros H; inversion H|].
    destruct (Datatypes.length _ =? 0)%nat; go_simpl.
    + intros H; inversion H; subst. acc_solve.
    + destruct (newLockCtx env _); go_simpl; [intros H; inversion H|].
      destruct (LockKeys env _ _) as [d [[err|]|p]]; go_simpl;
        try (intros H; inversion H; fail).
      * match goal with
        | |- context [handlePessimisticLockError env (Some err) ?w0] =>
            assert (Hacc0 : Accounted w0) by acc_solve;
            intros H; apply (recovery_then_again _ err w0 w' IH Hacc0)
        end.
        go_simpl. exact H.
      * intros H; inversion H; subst. acc_solve.
Qed.

Lemma handlePessimisticDML_Accounted (e : Executor) (w w' : World) :
  Accounted w ->
  handlePessimisticDML env e w = (w', Ret None) ->
  Accounted w'.
Proof.
  intros Hacc. unfold handlePessimisticDML. go_simpl.
  destruct (Txn env (trace w)); [intros H; inversion H|].
  apply pessimisticDMLLoop_Accounted. exact Hacc.
Qed.

Lemma collectRows_Accounted (fuel : nat) :
  forall (e0 e : Executor) (req : Chunk) (rows : list Row) (w w' : World)
         (r : Res (option RecordSet * option error)),
    Accounted w ->
    collectRows fuel e0 e req rows w = (w', r) ->
    Accounted w'.
Proof.
  induction fuel as [|fuel IH]; intros e0 e req rows w w' r Hacc.
  - intros H; inversion H; subst. exact Hacc.
  - cbn [collectRows]. unfold bind at 1.
    destruct (next e req w) as [w1 [[[e1 req1] oerr]|p|]] eqn:Hn;
      apply (next_Accounted _ _ _ _ _ Hacc) in Hn;
      try (intros H; inversion H; subst; exact Hn).
    cbn [fst snd]. destruct oerr as [err|].
    + intros H; inversion H; subst. exact Hn.
    + destruct (Chunk_NumRows req1 =? 0)%nat.
      * intros H; inversion H; subst. exact Hn.
      * go_simpl. apply IH. exact Hn.
Qed.

Lemma runPessimisticSelectForUpdate_Accounted (e : Executor) (w w' : World)
  (r : Res (option RecordSet * option error)) :
  Accounted w ->
  runPessimisticSelectForUpdate e w = (w', r) ->
  Accounted w'.
Proof.
  intros Hacc. unfold runPessimisticSelectForUpdate. go_simpl.
  destruct (collectRows _ e e (newFirstChunk e) [] w) as [w1 r1] eqn:Hc.
  apply (collectRows_Accounted _ _ _ _ _ _ _ _ Hacc) in Hc.
  destruct r1 as [a|p|]; intros H; inversion H; subst; acc_solve.
Qed.

Lemma selectForUpdateLoop_Accounted (fuel : nat) :
  forall (e : Executor) (w w' : World) (rs : option RecordSet),
    Accounted w ->
    selectForUpdateLoop env fuel e w = (w', Ret (rs, None)) ->
    Accounted w'.
Proof.
  induction fuel as [|fuel IH]; intros e w w' rs Hacc;
    [intros H; inversion H|].
  cbn [selectForUpdateLoop]. unfold bind at 1.
  destruct (runPessimisticSelectForUpdate e w) as [w1 [r|p|]] eqn:Hrun;
    try (intros H; inversion H; fail).
  apply (runPessimisticSelectForUpdate_Accounted _ _ _ _ Hacc) in Hrun.
  unfold bind at 1.
  destruct (handlePessimisticLockError env (snd r) w1)
    as [w2 [[oe oerr]|p|]] eqn:Hrec; try (intros H; inversion H; fail).
  cbn [fst snd]. destruct oerr as [err|]; [intros H; inversion H|].
  apply (handlePessimisticLockError_Accounted _ _ _ _ Hrun) in Hrec.
  destruct oe as [e'|].
  - apply IH. exact Hrec.
  - intros H; inversion H; subst. exact Hrec.
Qed.

Lemma handlePessimisticSelectForUpdate_Accounted (e : Executor) (w w' : World)
  (rs : option RecordSet) :
  Accounted w ->
  handlePessimisticSelectForUpdate env e w = (w', Ret (rs, None)) ->
  Accounted w'.
Proof.
  intros Hacc. unfold handlePessimisticSelectForUpdate. go_simpl.
  destruct (SnapshotTS (vars w) =? 0); go_simpl; [|intros H; inversion H].
  apply selectForUpdateLoop_Accounted. exact Hacc.
Qed.

Lemma detachMemThenDisk_Accounted (w : World) :
  Accounted w -> Accounted (fst (detachMemThenDisk w)).
Proof.
  intros Hacc. unfold detachMemThenDisk. go_simpl.
  destruct (hasMemTracker (vars w)), (hasDiskTracker (vars w)); go_simpl;
    acc_solve.
Qed.

Lemma detachMemThenDisk_returns (w : World) :
  snd (detachMemThenDisk w) = Ret tt.
Proof.
  unfold detachMemThenDisk. go_simpl.
  destruct (hasMemTracker (vars w)), (hasDiskTracker (vars w)); reflexivity.
Qed.

Lemma handleNoDelay_Accounted (e : Executor) (isPessimistic : bool)
  (w w' : World) (h : bool) (rs : option RecordSet) :
  Accounted w ->
  handleNoDelay env e isPessimistic w = (w', Ret (h, rs, None)) ->
  Accounted w'.
Proof.
  intros Hacc. unfold handleNoDelay, deferring.
  match goal with
  | |- context [match ?body w with _ => _ end] =>
      destruct (body w) as [w1 r1] eqn:Hbody
  end.
  assert (Hw1 : forall h' rs', r1 = Ret (h', rs', None) -> Accounted w1).
  { intros h' rs' ->. revert Hbody.
    destruct (ex_schemaLen (fst (toCheck e)) =? 0)%nat.
    - destruct isPessimistic; go_simpl.
      + destruct (handlePessimisticDML env (fst (toCheck e)) w)
          as [w2 [oerr|p|]] eqn:Hd; intros H; inversion H; subst.
        eapply handlePessimisticDML_Accounted; [exact Hacc|exact Hd].
      + destruct (handleNoDelayExecutor (fst (toCheck e)) w)
          as [w2 [r|p|]] eqn:Hd; intros H; inversion H; subst.
        eapply handleNoDelayExecutor_Accounted; [exact Hacc|exact Hd].
    - destruct (isCalculateNoDelay (fst (toCheck e))); go_simpl.
      + destruct (handleNoDelayExecutor e w)
          as [w2 [r|p|]] eqn:Hd; intros H; inversion H; subst.
        eapply handleNoDelayExecutor_Accounted; [exact Hacc|exact Hd].
      + intros H; inversion H; subst. exact Hacc. }
  destruct r1 as [[[h1 rs1] err1]|p|].
  - destruct rs1 as [rs1|].
    + go_simpl. intros H; inversion H; subst. eapply Hw1. reflexivity.
    + go_simpl.
      pose proof (detachMemThenDisk_returns w1) as Hret.
      pose proof (detachMemThenDisk_Accounted w1) as Hdet.
      destruct (detachMemThenDisk w1) as [w2 r2]. cbn [fst snd] in *.
      subst r2. intros H; inversion H; subst.
      apply Hdet. eapply Hw1. reflexivity.
  - go_simpl.
    pose proof (detachMemThenDisk_returns w1) as Hret.
    destruct (detachMemThenDisk w1) as [w2 r2]. cbn [fst snd] in *.
    subst r2. intros H; inversion H.
  - intros H; inversion H.
Qed.

Lemma ExecBody_Accounted (w w' : World) (rs : option RecordSet) :
  Accounted w ->
  ExecBody env w = (w', Ret (rs, None)) ->
  Accounted w'.
Proof.
  intros Hacc. unfold ExecBody. unfold bind at 1.
  destruct (buildExecutor env w) as [w1 [[e|err]|p|]] eqn:Hb;
    try (intros H; inversion H; fail).
  apply (buildExecutor_Accounted _ _ _ Hacc) in Hb.
  unfold bind at 1.
  destruct (openExecutor e w1) as [w2 [[err|]|p|]] eqn:Ho;
    try (go_simpl; intros H; inversion H; fail).
  apply (openExecutor_Accounted _ _ _ _ Hb) in Ho.
  go_simpl.
  destruct (IsPessimistic (vars w2) && isSelectForUpdate (stmt w2)).
  - apply handlePessimisticSelectForUpdate_Accounted. exact Ho.
  - destruct (handleNoDelay env e (IsPessimistic (vars w2)) w2)
      as [w3 [[[h rs0] oerr]|p|]] eqn:Hh; try (intros H; inversion H; fail).
    destruct oerr as [err|].
    + rewrite orb_true_r. go_simpl. intros H; inversion H.
    + apply (handleNoDelay_Accounted _ _ _ _ _ _ Ho) in Hh.
      rewrite orb_false_r. destruct h; go_simpl.
      * intros H; inversion H; subst. exact Hh.
      * destruct (Txn env (trace w3)); intros H; inversion H; subst.
        exact Hh.
Qed.

(** The accounting invariant at the end of [Exec]: when a statement that
    starts with a zero retry counter, empty duration slots and an empty
    trace returns without error, the retry counter is the number of lock
    errors handed to the recovery step and of retries begun, and for
    each phase slot 1 holds the sum over the attempts before the last
    retry and slot 0 the sum over the attempt after it. *)
Lemma Exec_accounted (w w' : World) (rs : option RecordSet) :
  trace w = [] ->
  retryCount (stmt w) = 0 ->
  (forall ph, phaseDurations ph (stmt w) = (0, 0)) ->
  Exec env w = (w', Ret (rs, None)) ->
  retryCount (stmt w') = lockErrors (trace w')
  /\ retries (trace w') = lockErrors (trace w')
  /\ forall ph,
       snd (phaseDurations ph (stmt w')) = phaseTotal ph (priorAttempts (trace w'))
       /\ fst (phaseDurations ph (stmt w')) = phaseTotal ph (finalAttempt (trace w')).
Proof.
  intros Htr Hrc Hph Hexec.
  assert (Hacc : Accounted w).
  { unfold Accounted, accounted. rewrite Htr, Hrc. repeat split.
    - rewrite Hph. reflexivity.
    - rewrite Hph. reflexivity. }
  assert (Hacc' : Accounted w').
  { rewrite Exec_eq in Hexec.
    destruct (ExecBody env w) as [w1 [[rs1 err1]|p|]] eqn:Hbody.
    - unfold ExecDeferred in Hexec. go_simpl_in Hexec.
      destruct (0 <? retryCount (stmt w1)); go_simpl_in Hexec;
        inversion Hexec; subst;
        apply (ExecBody_Accounted _ _ _ Hacc) in Hbody; acc_solve.
    - unfold ExecDeferred in Hexec.
      destruct (negb (isMemoryExceedPanic env p)); go_simpl_in Hexec;
        inversion Hexec.
    - inversion Hexec. }
  destruct Hacc' as (H1 & H2 & H3).
  split; [rewrite H1, H2; reflexivity|]. split; [symmetry; exact H2|].
  intros ph. destruct (H3 ph) as [H30 H31]. split; assumption.
Qed.

End Accounting.

(** ** Select-for-update: buffering and replay *)

Lemma replay_from (fuel : nat) :
  forall (rows : list Row) (idx : nat) (e : Executor) (chk : Chunk),
    (0 < chk_requiredRows chk)%nat ->
    (idx <= List.length rows)%nat ->
    (List.length rows - idx < fuel)%nat ->
    replay fuel (mkChunkRowRecordSet rows idx e) chk = Some (skipn idx rows).
Proof.
  induction fuel as [|fuel IH]; intros rows idx e chk Hcap Hidx Hfuel; [lia|].
  cbn [replay]. unfold chunkRowRecordSet_Next, Chunk_IsFull, Chunk_NumRows,
    Chunk_RequiredRows, Chunk_Reset, Chunk_AppendRows.
  cbn [chk_rows chk_requiredRows crs_rows crs_idx crs_e List.length app].
  destruct (chk_requiredRows chk) as [|cap] eqn:Hc; [lia|].
  cbn [Nat.eqb negb andb].
  destruct (idx <? List.length rows)%nat eqn:Hlt.
  - apply Nat.ltb_lt in Hlt. cbn [fst snd chk_rows chk_requiredRows].
    set (n := Nat.min (List.length rows - idx) (S cap - 0)).
    assert (Hn : (0 < n)%nat) by (unfold n; lia).
    assert (Hlen : List.length (firstn n (skipn idx rows)) = n).
    { rewrite length_firstn, length_skipn. unfold n. lia. }
    rewrite Hlen.
    destruct (n =? 0)%nat eqn:Hn0; [apply Nat.eqb_eq in Hn0; lia|].
    rewrite IH.
    + cbn [option_map]. f_equal.
      rewrite <- (firstn_skipn n (skipn idx rows)) at 2.
      rewrite skipn_skipn. f_equal. f_equal. lia.
    + cbn [chk_requiredRows]. lia.
    + unfold n. lia.
    + unfold n. lia.
  - apply Nat.ltb_ge in Hlt. cbn [fst snd chk_rows List.length Nat.eqb].
    rewrite skipn_all2 by exact Hlt. reflexivity.
Qed.

Lemma collectRows_clean (script : list (Timed NextOut)) :
  forall (fuel : nat) (e0 e : Executor) (req : Chunk) (acc rows : list Row)
         (w : World),
    ex_nexts e = script ->
    cleanRows script = Some rows ->
    (List.length script < fuel)%nat ->
    exists w',
      collectRows fuel e0 e req acc w
      = (w', Ret (Some (RSRows (mkChunkRowRecordSet (acc ++ rows) 0 e0)), None))
      /\ retryCount (stmt w') = retryCount (stmt w).
Proof.
  induction script as [|t rest IH];
    intros fuel e0 e req acc rows w Hscript Hclean Hfuel;
    (destruct fuel as [|fuel]; [cbn in Hfuel; lia|]);
    cbn [collectRows]; unfold next; rewrite Hscript; go_simpl.
  - cbn in Hclean. inversion Hclean; subst. cbn. rewrite app_nil_r.
    eexists; split; reflexivity.
  - cbn [cleanRows] in Hclean.
    destruct (outcome t) as [[batch|err]|p]; try discriminate. go_simpl.
    unfold Chunk_NumRows, Chunk_AppendRows, Chunk_Reset.
    cbn [chk_rows app].
    destruct (List.length batch =? 0)%nat.
    + inversion Hclean; subst. rewrite app_nil_r.
      eexists; split; reflexivity.
    + destruct (cleanRows rest) as [rows'|] eqn:Hrest; [|discriminate].
      cbn in Hclean. inversion Hclean; subst.
      go_simpl.
      edestruct (IH fuel e0 (set_nexts e rest)) as [w' [Hrun Hrc]];
        [reflexivity|reflexivity|cbn in Hfuel; lia|].
      rewrite Hrun. rewrite <- app_assoc.
      eexists; split; [reflexivity|]. rewrite Hrc. reflexivity.
Qed.

Lemma runPessimisticSelectForUpdate_clean (e : Executor) (rows : list Row)
  (w : World) :
  cleanRows (ex_nexts e) = Some rows ->
  exists w',
    runPessimisticSelectForUpdate e w
    = (w', Ret (Some (RSRows (mkChunkRowRecordSet rows 0 e)), None))
    /\ retryCount (stmt w') = retryCount (stmt w).
Proof.
  intros Hclean. unfold runPessimisticSelectForUpdate. go_simpl.
  destruct (collectRows_clean (ex_nexts e) (S (List.length (ex_nexts e)))
              e e (newFirstChunk e) [] rows w eq_refl Hclean (Nat.lt_succ_diag_r _))
    as [w' [Hrun Hrc]].
  rewrite Hrun. cbn [app]. eexists; split; [reflexivity|exact Hrc].
Qed.

Lemma collectRows_retryCount (fuel : nat) :
  forall (e0 e : Executor) (req : Chunk) (rows : list Row) (w w' : World)
         (r : Res (option RecordSet * option error)),
    collectRows fuel e0 e req rows w = (w', r) ->
    retryCount (stmt w') = retryCount (stmt w).
Proof.
  induction fuel as [|fuel IH]; intros e0 e req rows w w' r.
  - intros H; inversion H; subst. reflexivity.
  - cbn [collectRows]. unfold bind at 1.
    destruct (next e req w) as [w1 [[[e1 req1] oerr]|p|]] eqn:Hn;
      apply next_retryCount in Hn;
      try (intros H; inversion H; subst; exact Hn).
    cbn [fst snd]. destruct oerr as [err|].
    + intros H; inversion H; subst. exact Hn.
    + destruct (Chunk_NumRows req1 =? 0)%nat.
      * intros H; inversion H; subst. exact Hn.
      * go_simpl. intros H. apply IH in H. rewrite H. exact Hn.
Qed.

Lemma runPessimisticSelectForUpdate_retryCount (e : Executor) (w w' : World)
  (r : Res (option RecordSet * option error)) :
  runPessimisticSelectForUpdate e w = (w', r) ->
  retryCount (stmt w') = retryCount (stmt w).
Proof.
  unfold runPessimisticSelectForUpdate. go_simpl.
  destruct (collectRows _ e e (newFirstChunk e) [] w) as [w1 r1] eqn:Hc.
  apply collectRows_retryCount in Hc.
  destruct r1 as [a|p|]; intros H; inversion H; subst; exact Hc.
Qed.

Section SelectForUpdate.

Variable env : Env.

(** A recovery that hands back an executor stayed within the budget. *)
Lemma recovery_within_budget (lockErr : error) (w w' : World) (e : Executor) :
  handlePessimisticLockError env (Some lockErr) w = (w', Ret (Some e, None)) ->
  retryCount (stmt w) < MaxRetryCount env.
Proof.
  rewrite handlePessimisticLockError_eq. intros H.
  inversion H as [[Hw Hr]]. apply reportDeadlock_no_error in Hr.
  revert Hr. unfold recoveryBody. go_simpl.
  destruct (OnStmtErrorForNextAction env (trace w) lockErr) as [action [err|]];
    go_simpl; [intros H'; inversion H'|].
  destruct (isRetryReady action); go_simpl; [|intros H'; inversion H'].
  destruct (MaxRetryCount env <=? retryCount (stmt w)) eqn:Hle; go_simpl;
    [intros H'; inversion H'|].
  intros _. apply Z.leb_gt. exact Hle.
Qed.

Lemma selectForUpdateLoop_clean (fuel : nat) (e : Executor) (rows : list Row)
  (w : World) :
  cleanRows (ex_nexts e) = Some rows ->
  exists w',
    selectForUpdateLoop env (S fuel) e w
    = (w', Ret (Some (RSRows (mkChunkRowRecordSet rows 0 e)), None)).
Proof.
  intros Hclean. cbn [selectForUpdateLoop].
  destruct (runPessimisticSelectForUpdate_clean e rows w Hclean)
    as [w' [Hrun _]].
  go_simpl. rewrite Hrun. unfold handlePessimisticLockError. go_simpl.
  eexists. reflexivity.
Qed.

(** C9. A select-for-update whose first attempt ends in a lock error,
    whose recovery hands back a rebuilt executor, and whose second
    attempt runs without conflict, returns the buffered record set of
    exactly the rows that a conflict-free execution of the rebuilt
    executor returns; pulling from that record set replays these rows in
    order and then reports an empty batch. *)
Theorem select_for_update_retry_transparent
  (e0 e1 : Executor) (w w1 w2 : World) (rs0 : option RecordSet)
  (lockErr : error) (rows : list Row) :
  SnapshotTS (vars w) = 0 ->
  runPessimisticSelectForUpdate e0 w = (w1, Ret (rs0, Some lockErr)) ->
  handlePessimisticLockError env (Some lockErr) w1 = (w2, Ret (Some e1, None)) ->
  cleanRows (ex_nexts e1) = Some rows ->
  (exists w3,
     handlePessimisticSelectForUpdate env e0 w
     = (w3, Ret (Some (RSRows (mkChunkRowRecordSet rows 0 e1)), None)))
  /\ (forall w', SnapshotTS (vars w') = 0 ->
      exists w'',
        handlePessimisticSelectForUpdate env e1 w'
        = (w'', Ret (Some (RSRows (mkChunkRowRecordSet rows 0 e1)), None)))
  /\ (forall chk, (0 < chk_requiredRows chk)%nat ->
      replay (S (List.length rows)) (mkChunkRowRecordSet rows 0 e1) chk
      = Some rows).
Proof.
  intros Hsnap Hrun Hrec Hclean. split; [|split].
  - pose proof (recovery_within_budget _ _ _ _ Hrec) as Hbudget.
    pose proof (runPessimisticSelectForUpdate_retryCount _ _ _ _ Hrun) as Hrc.
    unfold handlePessimisticSelectForUpdate. go_simpl.
    rewrite Hsnap. cbn [Z.eqb negb]. unfold retryFuel.
    destruct (Z.to_nat (MaxRetryCount env - retryCount (stmt w))) as [|k] eqn:Hk;
      [lia|].
    cbn [selectForUpdateLoop]. go_simpl. rewrite Hrun. go_simpl.
    rewrite Hrec. go_simpl.
    apply selectForUpdateLoop_clean. exact Hclean.
  - intros w' Hsnap'. unfold handlePessimisticSelectForUpdate. go_simpl.
    rewrite Hsnap'. cbn [Z.eqb negb]. unfold retryFuel.
    apply selectForUpdateLoop_clean. exact Hclean.
  - intros chk Hcap.
    rewrite (replay_from _ rows 0 e1 chk Hcap); [reflexivity|lia|lia].
Qed.

End SelectForUpdate.

(** ** The loops return: the fuel of the embedding is never exhausted *)

Section Totality.

Variable env : Env.
Hypothesis MaxRetryCount_uint : MaxRetryCount env < 2 ^ 64.

Lemma buildExecutor_returns (w : World) :
  snd (buildExecutor env w) <> OutOfFuel.
Proof.
  unfold buildExecutor. go_simpl.
  destruct (outcome (build env _)) as [b|p]; go_simpl; [|discriminate].
  destruct (b_err b); go_simpl; [discriminate|].
  destruct (b_isExecuteExec b); go_simpl; [|discriminate].
  destruct (b_executeBuildErr b); go_simpl; discriminate.
Qed.

Lemma openExecutor_returns (e : Executor) (w : World) :
  snd (openExecutor e w) <> OutOfFuel.
Proof.
  unfold openExecutor. go_simpl.
  destruct (outcome (ex_open e)); go_simpl; discriminate.
Qed.

Lemma next_returns (e : Executor) (req : Chunk) (w : World) :
  snd (next e req w) <> OutOfFuel.
Proof.
  unfold next. destruct (ex_nexts e) as [|t rest]; go_simpl; [discriminate|].
  destruct (outcome t) as [[rows|err]|p]; go_simpl; discriminate.
Qed.

Lemma handleNoDelayExecutor_returns (e : Executor) (w : World) :
  snd (handleNoDelayExecutor e w) <> OutOfFuel.
Proof.
  unfold handleNoDelayExecutor. go_simpl.
  destruct (isWriteExec (ex_kind e) && negb (SnapshotTS (vars w) =? 0));
    go_simpl; [destruct (InRestrictedSQL (vars w)); discriminate|].
  destruct (isWriteExec (ex_kind e) && LowResolutionTSO (vars w));
    go_simpl; [destruct (InRestrictedSQL (vars w)); discriminate|].
  pose proof (next_returns e (newFirstChunk e) w) as Hn.
  destruct (next e (newFirstChunk e) w) as [w1 [a|p|]]; go_simpl;
    [| |contradiction]; destruct (InRestrictedSQL (vars w1)); discriminate.
Qed.

Lemma recoveryBody_returns (lockErr : error) (w : World) :
  snd (recoveryBody env lockErr w) <> OutOfFuel.
Proof.
  unfold recoveryBody. go_simpl.
  destruct (OnStmtErrorForNextAction env (trace w) lockErr) as [action [err|]];
    go_simpl; [discriminate|].
  destruct (isRetryReady action); go_simpl; [|discriminate].
  destruct (MaxRetryCount env <=? retryCount (stmt w)); go_simpl; [discriminate|].
  destruct (OnStmtRetry env _); go_simpl; [discriminate|].
  destruct (GetStmtForUpdateTS env _) as [ts [tsErr|]]; go_simpl; [discriminate|].
  match goal with
  | |- context [buildExecutor env ?w0] =>
      pose proof (buildExecutor_returns w0) as Hb;
      destruct (buildExecutor env w0) as [w1 [[e|err]|p|]]
  end; go_simpl; try discriminate; [|contradiction].
  match goal with
  | |- context [openExecutor e ?w0] =>
      pose proof (openExecutor_returns e w0) as Ho;
      destruct (openExecutor e w0) as [w2 [[err|]|p|]]
  end; go_simpl; try discriminate. contradiction.
Qed.

Lemma handlePessimisticLockError_returns (lockErr : option error) (w : World) :
  snd (handlePessimisticLockError env lockErr w) <> OutOfFuel.
Proof.
  destruct lockErr as [lockErr|]; [|discriminate].
  rewrite handlePessimisticLockError_eq. cbn [snd].
  pose proof (recoveryBody_returns lockErr w) as Hr.
  destruct (snd (recoveryBody env lockErr w)) as [[oe [err|]]|p|];
    cbn; try discriminate; [|contradiction].
  destruct (isTikvDeadlock err); discriminate.
Qed.

Lemma wrap_uint64_ge (z : Z) : z < 2 ^ 64 -> z <= wrap_uint64 z.
Proof.
  intros Hlt. unfold wrap_uint64.
  destruct (Z_lt_le_dec z 0) as [Hneg|Hpos].
  - pose proof (Z.mod_pos_bound z (2 ^ 64) ltac:(lia)). lia.
  - rewrite Z.mod_small by lia. lia.
Qed.

(** A recovery that hands back an executor has used up one retry. *)
Lemma recovery_consumes_budget (lockErr : error) (w w' : World) (e : Executor) :
  handlePessimisticLockError env (Some lockErr) w = (w', Ret (Some e, None)) ->
  (Z.to_nat (MaxRetryCount env - retryCount (stmt w'))
   < Z.to_nat (MaxRetryCount env - retryCount (stmt w)))%nat.
Proof.
  intros Hrec.
  pose proof (recovery_within_budget _ _ _ _ _ Hrec) as Hbudget.
  revert Hrec. rewrite handlePessimisticLockError_eq. intros H.
  inversion H as [[Hw Hr]]. apply reportDeadlock_no_error in Hr.
  assert (Hge : retryCount (stmt w) + 1
                <= retryCount (stmt (fst (recoveryBody env lockErr w)))).
  { revert Hr. unfold recoveryBody. go_simpl.
    destruct (OnStmtErrorForNextAction env (trace w) lockErr) as [action [err|]];
      go_simpl; [intros H'; inversion H'|].
    destruct (isRetryReady action); go_simpl; [|intros H'; inversion H'].
    destruct (MaxRetryCount env <=? retryCount (stmt w)); go_simpl;
      [intros H'; inversion H'|].
    destruct (OnStmtRetry env _); go_simpl; [intros H'; inversion H'|].
    destruct (GetStmtForUpdateTS env _) as [ts [tsErr|]]; go_simpl;
      [intros H'; inversion H'|].
    match goal with
    | |- context [buildExecutor env ?w0] =>
        destruct (buildExecutor env w0) as [w1 rb] eqn:Hb;
        apply buildExecutor_retryCount in Hb; cbn in Hb
    end.
    destruct rb as [[e'|err]|p|]; go_simpl; try (intros H'; inversion H'; fail).
    match goal with
    | |- context [openExecutor e' ?w0] =>
        destruct (openExecutor e' w0) as [w3 ro] eqn:Ho;
        apply openExecutor_retryCount in Ho; cbn in Ho
    end.
    destruct ro as [[err|]|p|]; go_simpl; intros H'; inversion H'; subst.
    rewrite Ho, Hb. apply wrap_uint64_ge. lia. }
  lia.
Qed.

Lemma pessimisticDMLLoop_returns (fuel : nat) :
  forall (e : Executor) (w : World),
    (Z.to_nat (MaxRetryCount env - retryCount (stmt w)) < fuel)%nat ->
    snd (pessimisticDMLLoop env fuel e w) <> OutOfFuel.
Proof.
  induction fuel as [|fuel IH]; intros e w Hfuel; [lia|].
  assert (Hagain : forall lockErr w0,
            retryCount (stmt w0) = retryCount (stmt w) ->
            snd ((rec <- handlePessimisticLockError env (Some lockErr) ;;
                  afterLockError (pessimisticDMLLoop env fuel) rec) w0)
            <> OutOfFuel).
  { intros lockErr w0 Hrc0. go_simpl.
    pose proof (handlePessimisticLockError_returns (Some lockErr) w0) as Hret.
    destruct (handlePessimisticLockError env (Some lockErr) w0)
      as [w1 [[oe oerr]|p|]] eqn:Hrec; cbn [snd] in *;
      [|discriminate|contradiction].
    unfold afterLockError. cbn [fst snd].
    destruct oerr as [err|]; go_simpl.
    - destruct (ErrDeadlock_Equal err); go_simpl; discriminate.
    - destruct oe as [e'|]; [|discriminate].
      apply IH. apply recovery_consumes_budget in Hrec. lia. }
  cbn [pessimisticDMLLoop]. unfold bind at 1.
  pose proof (handleNoDelayExecutor_returns e w) as Hd.
  destruct (handleNoDelayExecutor e w) as [w1 [r|p|]] eqn:Hdrive;
    cbn [snd] in *; [|discriminate|contradiction].
  apply handleNoDelayExecutor_retryCount in Hdrive.
  unfold bind at 1, getWorld at 1.
  destruct (txn_Valid env (trace w1)); cbn [negb]; [|discriminate].
  destruct (snd r) as [err|].
  - apply Hagain. exact Hdrive.
  - go_simpl.
    destruct (KeysNeedToLock env (trace w1)) as [keys [err1|]]; go_simpl;
      [discriminate|].
    destruct (Datatypes.length _ =? 0)%nat; go_simpl; [discriminate|].
    destruct (newLockCtx env _); go_simpl; [discriminate|].
    destruct (LockKeys env _ _) as [d [[err|]|p]]; go_simpl;
      try discriminate.
    match goal with
    | |- context [handlePessimisticLockError env (Some err) ?w0] =>
        pose proof (Hagain err w0 Hdrive) as Hgo
    end.
    go_simpl_in Hgo. exact Hgo.
Qed.

Lemma handlePessimisticDML_returns (e : Executor) (w : World) :
  snd (handlePessimisticDML env e w) <> OutOfFuel.
Proof.
  unfold handlePessimisticDML. go_simpl.
  destruct (Txn env (trace w)); [discriminate|].
  apply pessimisticDMLLoop_returns. unfold retryFuel. lia.
Qed.

Lemma collectRows_returns (fuel : nat) :
  forall (e0 e : Executor) (req : Chunk) (rows : list Row) (w : World),
    (List.length (ex_nexts e) < fuel)%nat ->
    snd (collectRows fuel e0 e req rows w) <> OutOfFuel.
Proof.
  induction fuel as [|fuel IH]; intros e0 e req rows w Hfuel; [lia|].
  cbn [collectRows]. unfold next.
  destruct (ex_nexts e) as [|t rest] eqn:Hscript; go_simpl.
  - unfold Chunk_NumRows, Chunk_Reset. cbn. discriminate.
  - destruct (outcome t) as [[batch|err]|p]; go_simpl; try discriminate.
    destruct (Chunk_NumRows _ =? 0)%nat; [discriminate|].
    apply IH. cbn in *. lia.
Qed.

Lemma runPessimisticSelectForUpdate_returns (e : Executor) (w : World) :
  snd (runPessimisticSelectForUpdate e w) <> OutOfFuel.
Proof.
  unfold runPessimisticSelectForUpdate. go_simpl.
  pose proof (collectRows_returns (S (List.length (ex_nexts e))) e e
                (newFirstChunk e) [] w (Nat.lt_succ_diag_r _)) as Hc.
  destruct (collectRows _ e e (newFirstChunk e) [] w) as [w1 [a|p|]];
    cbn [snd] in *; [discriminate|discriminate|contradiction].
Qed.

Lemma selectForUpdateLoop_returns (fuel : nat) :
  forall (e : Executor) (w : World),
    (Z.to_nat (MaxRetryCount env - retryCount (stmt w)) < fuel)%nat ->
    snd (selectForUpdateLoop env fuel e w) <> OutOfFuel.
Proof.
  induction fuel as [|fuel IH]; intros e w Hfuel; [lia|].
  cbn [selectForUpdateLoop]. unfold bind at 1.
  pose proof (runPessimisticSelectForUpdate_returns e w) as Hrun.
  destruct (runPessimisticSelectForUpdate e w) as [w1 [r|p|]] eqn:Hr;
    cbn [snd] in *; [|discriminate|contradiction].
  apply runPessimisticSelectForUpdate_retryCount in Hr.
  unfold bind at 1.
  pose proof (handlePessimisticLockError_returns (snd r) w1) as Hret.
  destruct (handlePessimisticLockError env (snd r) w1)
    as [w2 [[oe oerr]|p|]] eqn:Hrec; cbn [fst snd] in *;
    [|discriminate|contradiction].
  destruct oerr as [err|]; [discriminate|].
  destruct oe as [e'|]; [|discriminate].
  apply IH. destruct (snd r) as [lockErr|].
  - apply recovery_consumes_budget in Hrec. lia.
  - unfold handlePessimisticLockError in Hrec. inversion Hrec.
Qed.

Lemma handlePessimisticSelectForUpdate_returns (e : Executor) (w : World) :
  snd (handlePessimisticSelectForUpdate env e w) <> OutOfFuel.
Proof.
  unfold handlePessimisticSelectForUpdate. go_simpl.
  destruct (SnapshotTS (vars w) =? 0); go_simpl; [|discriminate].
  apply selectForUpdateLoop_returns. unfold retryFuel. lia.
Qed.

Lemma handleNoDelay_returns (e : Executor) (isPessimistic : bool) (w : World) :
  snd (handleNoDelay env e isPessimistic w) <> OutOfFuel.
Proof.
  unfold handleNoDelay, deferring.
  match goal with
  | |- context [match ?body w with _ => _ end] =>
      assert (Hbody : snd (body w) <> OutOfFuel);
      [|destruct (body w) as [w1 r1]]
  end.
  { destruct (ex_schemaLen (fst (toCheck e)) =? 0)%nat.
    - destruct isPessimistic; go_simpl.
      + pose proof (handlePessimisticDML_returns (fst (toCheck e)) w) as Hd.
        destruct (handlePessimisticDML env (fst (toCheck e)) w)
          as [w2 [oerr|p|]]; cbn [snd] in *;
          [discriminate|discriminate|contradiction].
      + pose proof (handleNoDelayExecutor_returns (fst (toCheck e)) w) as Hd.
        destruct (handleNoDelayExecutor (fst (toCheck e)) w)
          as [w2 [r|p|]]; cbn [snd] in *;
          [discriminate|discriminate|contradiction].
    - destruct (isCalculateNoDelay (fst (toCheck e))); go_simpl;
        [|discriminate].
      pose proof (handleNoDelayExecutor_returns e w) as Hd.
      destruct (handleNoDelayExecutor e w)
        as [w2 [r|p|]]; cbn [snd] in *;
        [discriminate|discriminate|contradiction]. }
  cbn [snd] in Hbody.
  destruct r1 as [[[h1 [rs1|]] err1]|p|]; go_simpl; try discriminate;
    try contradiction;
    pose proof (detachMemThenDisk_returns w1) as Hret;
    destruct (detachMemThenDisk w1) as [w2 r2]; cbn [fst snd] in *;
    subst r2; discriminate.
Qed.

Lemma ExecBody_returns (w : World) : snd (ExecBody env w) <> OutOfFuel.
Proof.
  unfold ExecBody. unfold bind at 1.
  pose proof (buildExecutor_returns w) as Hb.
  destruct (buildExecutor env w) as [w1 [[e|err]|p|]]; cbn [snd] in *;
    try discriminate; [|contradiction].
  unfold bind at 1.
  pose proof (openExecutor_returns e w1) as Ho.
  destruct (openExecutor e w1) as [w2 [[err|]|p|]]; cbn [snd] in *;
    go_simpl; try discriminate; [|contradiction].
  destruct (IsPessimistic (vars w2) && isSelectForUpdate (stmt w2)).
  - apply handlePessimisticSelectForUpdate_returns.
  - pose proof (handleNoDelay_returns e (IsPessimistic (vars w2)) w2) as Hh.
    destruct (handleNoDelay env e (IsPessimistic (vars w2)) w2)
      as [w3 [[[h rs0] oerr]|p|]]; cbn [snd] in *;
      [|discriminate|contradiction].
    destruct (h || _); go_simpl; [discriminate|].
    destruct (Txn env (trace w3)); discriminate.
Qed.

(** X5. [Exec] returns or panics: both retry loops stop, because every
    turn that goes round again has used up one retry of the budget. *)
Lemma Exec_returns (w : World) : snd (Exec env w) <> OutOfFuel.
Proof.
  rewrite Exec_eq. pose proof (ExecBody_returns w) as Hb.
  destruct (ExecBody env w) as [w1 [r|p|]]; cbn [snd] in *;
    [| |contradiction].
  - unfold ExecDeferred. go_simpl.
    destruct (0 <? retryCount (stmt w1)); go_simpl; discriminate.
  - unfold ExecDeferred.
    destruct (negb (isMemoryExceedPanic env p)); go_simpl; discriminate.
Qed.

End Totality.

(** ** The no-delay classification of [Exec] *)

Section NoDelay.

Variable env : Env.
Hypothesis MaxRetryCount_uint : MaxRetryCount env < 2 ^ 64.

Lemma ExecBody_no_stream (w w1 : World) (e : Executor) :
  buildExecutor env w = (w1, Ret (inl e)) ->
  IsPessimistic (vars w1) && isSelectForUpdate (stmt w1) = false ->
  snd (toCheck e) = false ->
  ex_schemaLen e = 0%nat \/ isCalculateNoDelay e = true ->
  forall rs err, snd (ExecBody env w) <> Ret (Some rs, err).
Proof.
  intros Hbuild Hsfu Htc Hnd rs' err'. unfold ExecBody. go_simpl.
  rewrite Hbuild. go_simpl.
  destruct (openExecutor e w1) as [w2 [[oerr|]|p|]] eqn:Hopen; go_simpl;
    try discriminate.
  destruct (openExecutor_frame _ _ _ _ Hopen) as [Hv Hs].
  rewrite Hv, Hs, Hsfu. go_simpl.
  destruct (handleNoDelay env e (IsPessimistic (vars w1)) w2)
    as [w3 [[[h rs0] err0]|p|]] eqn:Hh; go_simpl; try discriminate.
  destruct (handleNoDelay_handled _ _ _ _ _ _ _ _ Htc Hnd Hh) as [-> ->].
  go_simpl. discriminate.
Qed.


End NoDelay.

(** * Worked executions *)

Lemma retry_budget_enforced_witness :
  snd (handlePessimisticLockError envPlain (Some ErrWriteConflict) worldAtLimit)
  = Ret (None, Some errRetryLimit).
Proof.
  refine (proj1 (proj1 (retry_budget_enforced envPlain worldAtLimit
                          ErrWriteConflict eq_refl _ _) _)).
  - cbn. lia.
  - cbn. lia.
  - cbn. lia.
Defined.

Lemma deadlock_is_fatal_witness :
  snd (handlePessimisticLockError envPlain (Some (TikvErrDeadlock true)) world0)
  = Ret (None, Some ErrDeadlock).
Proof.
  rewrite (proj1 (deadlock_is_fatal envPlain world0 (TikvErrDeadlock true)
                    eq_refl eq_refl)).
  reflexivity.
Defined.

Lemma write_rejected_under_read_only_view_witness :
  handleNoDelayExecutor insertOk worldSnapshot
  = (set_trace worldSnapshot [EvAudit; EvClose],
     Ret (None, Some errSnapshotWrite))
  /\ snd (handlePessimisticDML envPlain insertOk worldSnapshot)
     = Ret (Some errSnapshotWrite)
  /\ handlePessimisticSelectForUpdate envPlain (readerExec []) worldSnapshot
     = (set_trace worldSnapshot [EvClose], Ret (None, Some errSnapshotWrite)).
Proof.
  split; [|split].
  - exact (proj1 (proj1 (write_rejected_under_read_only_view envPlain insertOk
                           worldSnapshot) eq_refl eq_refl)).
  - destruct (proj2 (proj2 (proj1 (write_rejected_under_read_only_view envPlain
                                     insertOk worldSnapshot) eq_refl eq_refl))
                eq_refl (fun tr => or_introl eq_refl))
      as [new [_ [_ Hres]]].
    exact Hres.
  - refine (proj2 (write_rejected_under_read_only_view envPlain (readerExec [])
                     worldSnapshot) _).
    cbn. discriminate.
Defined.

Lemma invalid_txn_returns_drive_result_witness :
  handlePessimisticDML envInvalidTxn insertConflict world0
  = (fst (handleNoDelayExecutor insertConflict world0),
     Ret (Some ErrWriteConflict)).
Proof.
  exact (proj1 (invalid_txn_returns_drive_result envInvalidTxn insertConflict
                  world0 (fst (handleNoDelayExecutor insertConflict world0))
                  (None, Some ErrWriteConflict) eq_refl eq_refl eq_refl)).
Defined.



Lemma exec_recovers_only_memory_exceeded_witness :
  snd (Exec envMemoryPanic world0)
  = Ret (None, Some (ErrPanic (PanicString "Out Of Memory Quota![conn_id=5]"))).
Proof.
  rewrite (proj1 (exec_recovers_only_memory_exceeded envMemoryPanic world0
                    (fst (ExecBody envMemoryPanic world0))
                    (PanicString "Out Of Memory Quota![conn_id=5]") eq_refl)
             eq_refl).
  reflexivity.
Defined.

(** C7 as worded fails, both ways: an index-out-of-range panic of the
    drive leaves [Exec] as a panic, and the memory-exceeded panic is the
    one that is turned into an error. *)
Lemma exec_panic_handling_is_reversed :
  snd (Exec envIndexPanic world0)
  = Panic (PanicString "runtime error: index out of range")
  /\ snd (Exec envMemoryPanic world0)
     = Ret (None, Some (ErrPanic (PanicString "Out Of Memory Quota![conn_id=5]"))).
Proof. vm_compute. split; reflexivity. Qed.

(** C8 as worded fails: closing the same record set twice runs the
    finalize-and-record path twice. *)
Lemma close_twice_finalizes_twice :
  let rs := RSExecutor (mkRecordSet (readerExec []) None 440) in
  finalizeCount
    (trace (fst (RecordSet_Close envPlain rs
                   (fst (RecordSet_Close envPlain rs world0))))) = 2%nat.
Proof. vm_compute. reflexivity. Qed.



(** An execution in numbers: two conflicts at [LockKeys], then success. *)
Example two_conflicts_then_success :
  let w' := fst (Exec envConflicts world0) in
  snd (Exec envConflicts world0) = Ret (None, None)
  /\ retryCount (stmt w') = 2
  /\ phaseBuildDurations (stmt w') = (11, 22)
  /\ phaseOpenDurations (stmt w') = (3, 6)
  /\ phaseNextDurations (stmt w') = (7, 14)
  /\ phaseLockDurations (stmt w') = (5, 40).
Proof. vm_compute. repeat split; reflexivity. Qed.

Lemma select_for_update_retry_transparent_witness :
  exists w3,
    handlePessimisticSelectForUpdate envSelectForUpdate readerConflict worldSelect
    = (w3, Ret (Some (RSRows (mkChunkRowRecordSet [[1]; [2]; [3]] 0 readerClean)),
                None)).
Proof.
  refine (proj1 (select_for_update_retry_transparent envSelectForUpdate
                   readerConflict readerClean worldSelect
                   (fst (runPessimisticSelectForUpdate readerConflict worldSelect))
                   (fst (handlePessimisticLockError envSelectForUpdate
                           (Some ErrWriteConflict)
                           (fst (runPessimisticSelectForUpdate readerConflict
                                   worldSelect))))
                   None ErrWriteConflict [[1]; [2]; [3]]
                   eq_refl _ _ eq_refl)).
  - vm_compute. reflexivity.
  - vm_compute. reflexivity.
Defined.

(** The replay in numbers: three buffered rows pulled with a chunk of
    two rows give a batch of two, a batch of one and an empty batch. *)
Example replay_three_rows :
  let c0 := mkChunkRowRecordSet [[1]; [2]; [3]] 0 readerClean in
  let chk := mkChunk [] 2 in
  let s1 := chunkRowRecordSet_Next c0 chk in
  let s2 := chunkRowRecordSet_Next (fst s1) (snd s1) in
  let s3 := chunkRowRecordSet_Next (fst s2) (snd s2) in
  chk_rows (snd s1) = [[1]; [2]]
  /\ chk_rows (snd s2) = [[3]]
  /\ chk_rows (snd s3) = []
  /\ replay 4 c0 chk = Some [[1]; [2]; [3]].
Proof. vm_compute. repeat split; reflexivity. Qed.

(** * Further properties of the execution core *)

(** ** The recovery step hands back an executor or an error, never both *)

Section RecoveryShape.

Variable env : Env.

Lemma recoveryBody_shape (lockErr : error) (w : World)
  (r : option Executor * option error) :
  snd (recoveryBody env lockErr w) = Ret r ->
  (exists e, r = (Some e, None)) \/ (exists err, r = (None, Some err)).
Proof.
  unfold recoveryBody. go_simpl.
  destruct (OnStmtErrorForNextAction env (trace w) lockErr) as [action [err|]];
    go_simpl; [intros H; inversion H; right; eexists; reflexivity|].
  destruct (isRetryReady action); go_simpl;
    [|intros H; inversion H; right; eexists; reflexivity].
  destruct (MaxRetryCount env <=? retryCount (stmt w)); go_simpl;
    [intros H; inversion H; right; eexists; reflexivity|].
  destruct (OnStmtRetry env _); go_simpl;
    [intros H; inversion H; right; eexists; reflexivity|].
  destruct (GetStmtForUpdateTS env _) as [ts [tsErr|]]; go_simpl;
    [intros H; inversion H; right; eexists; reflexivity|].
  match goal with
  | |- context [buildExecutor env ?w0] =>
      destruct (buildExecutor env w0) as [w1 [[e|err]|p|]]
  end; go_simpl; try (intros H; inversion H; fail);
    [|intros H; inversion H; right; eexists; reflexivity].
  match goal with
  | |- context [openExecutor e ?w0] =>
      destruct (openExecutor e w0) as [w2 [[err|]|p|]]
  end; go_simpl; intros H; inversion H;
    [right|left]; eexists; reflexivity.
Qed.

(** X1. For a non-nil lock error the recovery step returns either a
    fresh executor and no error, or no executor and an error: there is
    no partial success and no empty answer, so the DML loop never goes
    round with a nil executor. *)
Theorem recovery_all_or_nothing (lockErr : error) (w : World)
  (r : option Executor * option error) :
  snd (handlePessimisticLockError env (Some lockErr) w) = Ret r ->
  (exists e, r = (Some e, None)) \/ (exists err, r = (None, Some err)).
Proof.
  rewrite handlePessimisticLockError_eq. cbn [snd].
  destruct (snd (recoveryBody env lockErr w)) as [r0|p|] eqn:Hbody;
    cbn [reportDeadlock]; try (intros H; inversion H; fail).
  apply recoveryBody_shape in Hbody.
  destruct Hbody as [[e ->]|[err ->]].
  - intros H; inversion H. left. eexists; reflexivity.
  - destruct (isTikvDeadlock err); intros H; inversion H; right;
      eexists; reflexivity.
Qed.

End RecoveryShape.

(** ** Executors are closed on every way out of a drive *)

(** X2. [handleNoDelayExecutor] closes its executor exactly once and
    then runs the audit hook, whether the drive returned, failed, was
    refused or panicked; before that it made at most one [Next] call. *)
Theorem handleNoDelayExecutor_closes_once (e : Executor) (w : World) :
  exists drive,
    trace (fst (handleNoDelayExecutor e w))
    = closeAndAudit (vars w) ++ drive ++ trace w
    /\ (drive = [] \/ exists d, drive = [EvNext d])
    /\ countEvents isCloseEvent (closeAndAudit (vars w) ++ drive) = 1%nat.
Proof.
  unfold handleNoDelayExecutor, closeAndAudit, countEvents. go_simpl.
  destruct (isWriteExec (ex_kind e) && negb (SnapshotTS (vars w) =? 0));
    go_simpl;
    [exists []; destruct (InRestrictedSQL (vars w)); cbn;
     repeat split; left; reflexivity|].
  destruct (isWriteExec (ex_kind e) && LowResolutionTSO (vars w));
    go_simpl;
    [exists []; destruct (InRestrictedSQL (vars w)); cbn;
     repeat split; left; reflexivity|].
  unfold next. destruct (ex_nexts e) as [|t rest]; go_simpl.
  - exists [EvNext (ex_eofElapsed e)].
    destruct (InRestrictedSQL (vars w)); cbn; repeat split;
      right; eexists; reflexivity.
  - destruct (outcome t) as [[rows|err]|p]; go_simpl.
    + exists [EvNext (elapsed t)].
      destruct (InRestrictedSQL (vars w)); cbn; repeat split;
        right; eexists; reflexivity.
    + exists [EvNext (elapsed t)].
      destruct (InRestrictedSQL (vars w)); cbn; repeat split;
        right; eexists; reflexivity.
    + exists [].
      destruct (InRestrictedSQL (vars w)); cbn; repeat split;
        left; reflexivity.
Qed.

Lemma collectRows_trace (fuel : nat) :
  forall (e0 e : Executor) (req : Chunk) (rows : list Row) (w : World),
    exists pulls,
      trace (fst (collectRows fuel e0 e req rows w)) = pulls ++ trace w
      /\ forallb isNextEvent pulls = true
      /\ (forall rs err,
            snd (collectRows fuel e0 e req rows w) = Ret (rs, Some err) ->
            rs = None).
Proof.
  induction fuel as [|fuel IH]; intros e0 e req rows w.
  - exists []. cbn. repeat split. intros rs err H; inversion H.
  - cbn [collectRows]. unfold next.
    destruct (ex_nexts e) as [|t rest]; go_simpl.
    + exists [EvNext (ex_eofElapsed e)]. cbn. repeat split.
      intros rs err H; inversion H.
    + destruct (outcome t) as [[batch|err0]|p]; go_simpl.
      * destruct (Chunk_NumRows _ =? 0)%nat.
        -- exists [EvNext (elapsed t)]. cbn. repeat split.
           intros rs err H; inversion H.
        -- match goal with
           | |- context [collectRows fuel e0 ?e1 ?req1 ?rows1 ?w1] =>
               destruct (IH e0 e1 req1 rows1 w1) as [pulls [Htr [Hall Herr]]]
           end.
           exists (pulls ++ [EvNext (elapsed t)]).
           rewrite Htr. cbn [trace]. rewrite <- app_assoc. cbn [app].
           split; [reflexivity|]. split; [|exact Herr].
           rewrite forallb_app, Hall. reflexivity.
      * exists [EvNext (elapsed t)]. cbn. repeat split.
        intros rs err H; inversion H; reflexivity.
      * exists []. cbn. repeat split. intros rs err H; inversion H.
Qed.

(** X3. [runPessimisticSelectForUpdate] closes its executor exactly
    once, after the last [Next] call, on every way out (exhaustion,
    error or panic), and an attempt that ends in an error returns no
    record set. *)
Theorem runPessimisticSelectForUpdate_closes_once (e : Executor) (w : World) :
  exists pulls,
    trace (fst (runPessimisticSelectForUpdate e w))
    = EvClose :: pulls ++ trace w
    /\ forallb isNextEvent pulls = true
    /\ countEvents isCloseEvent (EvClose :: pulls) = 1%nat
    /\ (forall rs err,
          snd (runPessimisticSelectForUpdate e w) = Ret (rs, Some err) ->
          rs = None).
Proof.
  unfold runPessimisticSelectForUpdate. go_simpl.
  destruct (collectRows_trace (S (List.length (ex_nexts e))) e e
              (newFirstChunk e) [] w) as [pulls [Htr [Hall Herr]]].
  pose proof (collectRows_returns (S (List.length (ex_nexts e))) e e
                (newFirstChunk e) [] w (Nat.lt_succ_diag_r _)) as Hret.
  destruct (collectRows _ e e (newFirstChunk e) [] w) as [w1 [a|p|]];
    cbn [fst snd] in *; [| |contradiction]; exists pulls; rewrite Htr;
    (split; [reflexivity|]); (split; [exact Hall|]); split.
  - unfold countEvents. cbn [filter isCloseEvent List.length]. f_equal.
    clear -Hall. induction pulls as [|ev pulls IH]; [reflexivity|].
    cbn in Hall. apply andb_true_iff in Hall. destruct Hall as [Hev Hall].
    destruct ev; try discriminate. cbn. apply IH. exact Hall.
  - intros rs err H. apply (Herr rs err). exact H.
  - unfold countEvents. cbn [filter isCloseEvent List.length]. f_equal.
    clear -Hall. induction pulls as [|ev pulls IH]; [reflexivity|].
    cbn in Hall. apply andb_true_iff in Hall. destruct Hall as [Hev Hall].
    destruct ev; try discriminate. cbn. apply IH. exact Hall.
  - intros rs err H; inversion H.
Qed.

(** ** The retry budget bounds every execution *)

Lemma retries_cons (ev : Event) (tr : Trace) :
  retries (ev :: tr) = (if isRetry ev then 1 else 0) + retries tr.
Proof.
  unfold retries. cbn [filter]. destruct (isRetry ev); cbn [List.length]; lia.
Qed.

Lemma retryCount_addPhase (ph : Phase) (d : Z) (a : ExecStmt) :
  retryCount (addPhase ph d a) = retryCount a.
Proof. destruct ph; reflexivity. Qed.

Ltac wb_solve :=
  unfold WithinBudget, withinBudget in *; cbn [stmt trace] in *;
  rewrite ?retries_cons, ?retryCount_addPhase;
  cbn [isRetry setBuildFlags resetPhaseDurations_stmt retryCount];
  rewrite ?retries_cons, ?retryCount_addPhase; cbn [isRetry];
  try assumption; try lia.

Section RetryBudget.

Variable env : Env.
Hypothesis MaxRetryCount_uint : MaxRetryCount env < 2 ^ 64.

Lemma buildExecutor_WithinBudget (w : World) :
  WithinBudget env w -> WithinBudget env (fst (buildExecutor env w)).
Proof.
  intros Hwb. unfold buildExecutor. go_simpl.
  destruct (outcome (build env _)) as [b|p]; go_simpl; [|wb_solve].
  destruct (b_err b); go_simpl; [wb_solve|].
  destruct (b_isExecuteExec b); go_simpl; [|wb_solve].
  destruct (b_executeBuildErr b); go_simpl; wb_solve.
Qed.

Lemma openExecutor_WithinBudget (e : Executor) (w : World) :
  WithinBudget env w -> WithinBudget env (fst (openExecutor e w)).
Proof.
  intros Hwb. unfold openExecutor. go_simpl.
  destruct (outcome (ex_open e)); go_simpl; wb_solve.
Qed.

Lemma next_WithinBudget (e : Executor) (req : Chunk) (w : World) :
  WithinBudget env w -> WithinBudget env (fst (next e req w)).
Proof.
  intros Hwb. unfold next. destruct (ex_nexts e) as [|t rest]; go_simpl;
    [wb_solve|].
  destruct (outcome t) as [[rows|err]|p]; go_simpl; wb_solve.
Qed.

Lemma handleNoDelayExecutor_WithinBudget (e : Executor) (w : World) :
  WithinBudget env w -> WithinBudget env (fst (handleNoDelayExecutor e w)).
Proof.
  intros Hwb. unfold handleNoDelayExecutor. go_simpl.
  destruct (isWriteExec (ex_kind e) && negb (SnapshotTS (vars w) =? 0));
    go_simpl; [destruct (InRestrictedSQL (vars w)); wb_solve|].
  destruct (isWriteExec (ex_kind e) && LowResolutionTSO (vars w));
    go_simpl; [destruct (InRestrictedSQL (vars w)); wb_solve|].
  pose proof (next_WithinBudget e (newFirstChunk e) w Hwb) as Hn.
  destruct (next e (newFirstChunk e) w) as [w1 [a|p|]]; cbn [fst] in Hn;
    go_simpl; try exact Hn;
    destruct (InRestrictedSQL (vars w1)); wb_solve.
Qed.

Lemma recoveryBody_WithinBudget (lockErr : error) (w : World) :
  WithinBudget env w -> WithinBudget env (fst (recoveryBody env lockErr w)).
Proof.
  intros Hwb. unfold recoveryBody. go_simpl.
  destruct (OnStmtErrorForNextAction env (trace w) lockErr) as [action [err|]];
    go_simpl; [wb_solve|].
  destruct (isRetryReady action); go_simpl; [|wb_solve].
  destruct (MaxRetryCount env <=? retryCount (stmt w)) eqn:Hle; go_simpl;
    [wb_solve|].
  apply Z.leb_gt in Hle.
  assert (Hstep : withinBudget (MaxRetryCount env) (incRetryCount (stmt w))
                    (EvOnStmtRetry :: EvOnStmtErrorForNextAction lockErr :: trace w)).
  { unfold WithinBudget, withinBudget in *. rewrite !retries_cons.
    cbn [isRetry incRetryCount retryCount].
    rewrite wrap_uint64_small by lia. lia. }
  destruct (OnStmtRetry env _); go_simpl; [exact Hstep|].
  unfold withinBudget in Hstep. rewrite !retries_cons in Hstep.
  cbn [isRetry] in Hstep.
  destruct (GetStmtForUpdateTS env _) as [ts [tsErr|]]; go_simpl;
    [wb_solve|].
  match goal with
  | |- context [buildExecutor env ?w0] =>
      assert (Hwb0 : WithinBudget env w0) by wb_solve;
      pose proof (buildExecutor_WithinBudget w0 Hwb0) as Hb;
      destruct (buildExecutor env w0) as [w1 [[e|err]|p|]]
  end; cbn [fst] in Hb; go_simpl; try exact Hb.
  match goal with
  | |- context [openExecutor e ?w0] =>
      assert (Hwb1 : WithinBudget env w0) by wb_solve;
      pose proof (openExecutor_WithinBudget e w0 Hwb1) as Ho;
      destruct (openExecutor e w0) as [w2 [[err|]|p|]]
  end; cbn [fst] in Ho; go_simpl; exact Ho.
Qed.

Lemma handlePessimisticLockError_WithinBudget (lockErr : option error)
  (w : World) :
  WithinBudget env w ->
  WithinBudget env (fst (handlePessimisticLockError env lockErr w)).
Proof.
  intros Hwb. destruct lockErr as [lockErr|]; [|exact Hwb].
  rewrite handlePessimisticLockError_eq. cbn [fst].
  apply recoveryBody_WithinBudget. exact Hwb.
Qed.

Lemma afterLockError_WithinBudget (again : Executor -> M (option error))
  (r : option Executor * option error) (w : World) :
  (forall e w0, WithinBudget env w0 -> WithinBudget env (fst (again e w0))) ->
  WithinBudget env w ->
  WithinBudget env (fst (afterLockError again r w)).
Proof.
  intros Hagain Hwb. unfold afterLockError.
  destruct r as [oe [err|]]; go_simpl.
  - destruct (ErrDeadlock_Equal err); go_simpl; wb_solve.
  - destruct oe as [e|]; [apply Hagain; exact Hwb|exact Hwb].
Qed.

Lemma recovery_again_WithinBudget (again : Executor -> M (option error))
  (lockErr : error) (w : World) :
  (forall e w0, WithinBudget env w0 -> WithinBudget env (fst (again e w0))) ->
  WithinBudget env w ->
  WithinBudget env
    (fst ((rec <- handlePessimisticLockError env (Some lockErr) ;;
           afterLockError again rec) w)).
Proof.
  intros Hagain Hwb. go_simpl.
  pose proof (handlePessimisticLockError_WithinBudget (Some lockErr) w Hwb) as Hr.
  destruct (handlePessimisticLockError env (Some lockErr) w) as [w1 [r|p|]];
    cbn [fst] in *; try exact Hr.
  apply afterLockError_WithinBudget; assumption.
Qed.

Lemma pessimisticDMLLoop_WithinBudget (fuel : nat) :
  forall (e : Executor) (w : World),
    WithinBudget env w ->
    WithinBudget env (fst (pessimisticDMLLoop env fuel e w)).
Proof.
  induction fuel as [|fuel IH]; intros e w Hwb; [exact Hwb|].
  cbn [pessimisticDMLLoop]. unfold bind at 1.
  pose proof (handleNoDelayExecutor_WithinBudget e w Hwb) as Hd.
  destruct (handleNoDelayExecutor e w) as [w1 [r|p|]]; cbn [fst] in *;
    try exact Hd.
  unfold bind at 1, getWorld at 1.
  destruct (txn_Valid env (trace w1)); cbn [negb]; [|exact Hd].
  destruct (snd r) as [err|].
  - apply recovery_again_WithinBudget; [exact IH|exact Hd].
  - go_simpl.
    destruct (KeysNeedToLock env (trace w1)) as [keys [err1|]]; go_simpl;
      [wb_solve|].
    destruct (Datatypes.length _ =? 0)%nat; go_simpl; [wb_solve|].
    destruct (newLockCtx env _); go_simpl; [wb_solve|].
    destruct (LockKeys env _ _) as [d [[err|]|p]]; go_simpl;
      [|wb_solve|wb_solve].
    match goal with
    | |- context [handlePessimisticLockError env (Some err) ?w0] =>
        assert (Hwb0 : WithinBudget env w0) by wb_solve;
        pose proof (recovery_again_WithinBudget _ err w0 IH Hwb0) as Hgo
    end.
    go_simpl_in Hgo. exact Hgo.
Qed.

Lemma handlePessimisticDML_WithinBudget (e : Executor) (w : World) :
  WithinBudget env w -> WithinBudget env (fst (handlePessimisticDML env e w)).
Proof.
  intros Hwb. unfold handlePessimisticDML. go_simpl.
  destruct (Txn env (trace w)); [exact Hwb|].
  apply pessimisticDMLLoop_WithinBudget. exact Hwb.
Qed.

Lemma collectRows_WithinBudget (fuel : nat) :
  forall (e0 e : Executor) (req : Chunk) (rows : list Row) (w : World),
    WithinBudget env w ->
    WithinBudget env (fst (collectRows fuel e0 e req rows w)).
Proof.
  induction fuel as [|fuel IH]; intros e0 e req rows w Hwb; [exact Hwb|].
  cbn [collectRows]. unfold bind at 1.
  pose proof (next_WithinBudget e req w Hwb) as Hn.
  destruct (next e req w) as [w1 [[[e1 req1] oerr]|p|]]; cbn [fst snd] in *;
    try exact Hn.
  destruct oerr as [err|]; [exact Hn|].
  destruct (Chunk_NumRows req1 =? 0)%nat; [exact Hn|].
  go_simpl. apply IH. exact Hn.
Qed.

Lemma runPessimisticSelectForUpdate_WithinBudget (e : Executor) (w : World) :
  WithinBudget env w ->
  WithinBudget env (fst (runPessimisticSelectForUpdate e w)).
Proof.
  intros Hwb. unfold runPessimisticSelectForUpdate. go_simpl.
  pose proof (collectRows_WithinBudget (S (List.length (ex_nexts e))) e e
                (newFirstChunk e) [] w Hwb) as Hc.
  destruct (collectRows _ e e (newFirstChunk e) [] w) as [w1 [a|p|]];
    cbn [fst] in *; try exact Hc; wb_solve.
Qed.

Lemma selectForUpdateLoop_WithinBudget (fuel : nat) :
  forall (e : Executor) (w : World),
    WithinBudget env w ->
    WithinBudget env (fst (selectForUpdateLoop env fuel e w)).
Proof.
  induction fuel as [|fuel IH]; intros e w Hwb; [exact Hwb|].
  cbn [selectForUpdateLoop]. unfold bind at 1.
  pose proof (runPessimisticSelectForUpdate_WithinBudget e w Hwb) as Hrun.
  destruct (runPessimisticSelectForUpdate e w) as [w1 [r|p|]];
    cbn [fst] in *; try exact Hrun.
  unfold bind at 1.
  pose proof (handlePessimisticLockError_WithinBudget (snd r) w1 Hrun) as Hrec.
  destruct (handlePessimisticLockError env (snd r) w1)
    as [w2 [[oe oerr]|p|]]; cbn [fst snd] in *; try exact Hrec.
  destruct oerr as [err|]; [exact Hrec|].
  destruct oe as [e'|]; [apply IH; exact Hrec|exact Hrec].
Qed.

Lemma handlePessimisticSelectForUpdate_WithinBudget (e : Executor) (w : World) :
  WithinBudget env w ->
  WithinBudget env (fst (handlePessimisticSelectForUpdate env e w)).
Proof.
  intros Hwb. unfold handlePessimisticSelectForUpdate. go_simpl.
  destruct (SnapshotTS (vars w) =? 0); go_simpl; [|wb_solve].
  apply selectForUpdateLoop_WithinBudget. exact Hwb.
Qed.

Lemma detachMemThenDisk_WithinBudget (w : World) :
  WithinBudget env w -> WithinBudget env (fst (detachMemThenDisk w)).
Proof.
  intros Hwb. unfold detachMemThenDisk. go_simpl.
  destruct (hasMemTracker (vars w)), (hasDiskTracker (vars w)); go_simpl;
    wb_solve.
Qed.

Lemma handleNoDelay_WithinBudget (e : Executor) (isPessimistic : bool)
  (w : World) :
  WithinBudget env w ->
  WithinBudget env (fst (handleNoDelay env e isPessimistic w)).
Proof.
  intros Hwb. unfold handleNoDelay, deferring.
  match goal with
  | |- context [match ?body w with _ => _ end] =>
      assert (Hbody : WithinBudget env (fst (body w)));
      [|destruct (body w) as [w1 r1]]
  end.
  { destruct (ex_schemaLen (fst (toCheck e)) =? 0)%nat.
    - destruct isPessimistic; go_simpl.
      + pose proof (handlePessimisticDML_WithinBudget (fst (toCheck e)) w Hwb)
          as Hd.
        destruct (handlePessimisticDML env (fst (toCheck e)) w)
          as [w2 [oerr|p|]]; exact Hd.
      + pose proof (handleNoDelayExecutor_WithinBudget (fst (toCheck e)) w Hwb)
          as Hd.
        destruct (handleNoDelayExecutor (fst (toCheck e)) w)
          as [w2 [r|p|]]; exact Hd.
    - destruct (isCalculateNoDelay (fst (toCheck e))); go_simpl;
        [|exact Hwb].
      pose proof (handleNoDelayExecutor_WithinBudget e w Hwb) as Hd.
      destruct (handleNoDelayExecutor e w) as [w2 [r|p|]]; exact Hd. }
  cbn [fst] in Hbody.
  pose proof (detachMemThenDisk_WithinBudget w1 Hbody) as Hdet.
  pose proof (detachMemThenDisk_returns w1) as Hret.
  destruct r1 as [[[h1 [rs1|]] err1]|p|]; go_simpl; try exact Hbody;
    destruct (detachMemThenDisk w1) as [w2 r2]; cbn [fst snd] in *;
    subst r2; exact Hdet.
Qed.

Lemma ExecBody_WithinBudget (w : World) :
  WithinBudget env w -> WithinBudget env (fst (ExecBody env w)).
Proof.
  intros Hwb. unfold ExecBody. unfold bind at 1.
  pose proof (buildExecutor_WithinBudget w Hwb) as Hb.
  destruct (buildExecutor env w) as [w1 [[e|err]|p|]]; cbn [fst] in *;
    try exact Hb.
  unfold bind at 1.
  pose proof (openExecutor_WithinBudget e w1 Hb) as Ho.
  destruct (openExecutor e w1) as [w2 [[err|]|p|]]; cbn [fst] in *;
    go_simpl; try exact Ho.
  destruct (IsPessimistic (vars w2) && isSelectForUpdate (stmt w2)).
  - apply handlePessimisticSelectForUpdate_WithinBudget. exact Ho.
  - pose proof (handleNoDelay_WithinBudget e (IsPessimistic (vars w2)) w2 Ho)
      as Hh.
    destruct (handleNoDelay env e (IsPessimistic (vars w2)) w2)
      as [w3 [[[h rs0] oerr]|p|]]; cbn [fst] in *; try exact Hh.
    destruct (h || _); go_simpl; [exact Hh|].
    destruct (Txn env (trace w3)); exact Hh.
Qed.

(** X4. However [Exec] ends (result, error or panic), a statement that
    started with a zero retry counter has begun at most [MaxRetryCount]
    retries, and its retry counter is the number of retries begun. *)
Theorem retries_never_exceed_budget (w : World) :
  0 <= MaxRetryCount env ->
  trace w = [] ->
  retryCount (stmt w) = 0 ->
  retries (trace (fst (Exec env w))) <= MaxRetryCount env
  /\ retryCount (stmt (fst (Exec env w))) = retries (trace (fst (Exec env w))).
Proof.
  intros Hmax Htr Hrc.
  assert (Hwb : WithinBudget env w).
  { unfold WithinBudget, withinBudget. rewrite Htr, Hrc. cbn. lia. }
  assert (Hwb' : WithinBudget env (fst (Exec env w))).
  { rewrite Exec_eq. pose proof (ExecBody_WithinBudget w Hwb) as Hb.
    destruct (ExecBody env w) as [w1 [r|p|]]; cbn [fst] in *.
    - unfold ExecDeferred. go_simpl.
      destruct (0 <? retryCount (stmt w1)); go_simpl; wb_solve.
    - unfold ExecDeferred.
      destruct (negb (isMemoryExceedPanic env p)); go_simpl; wb_solve.
    - exact Hb. }
  destruct Hwb' as [H1 H2]. split; [lia|exact H1].
Qed.

End RetryBudget.

(** ** Failures before the drive, and statements that stream *)

Section ExecPaths.

Variable env : Env.

(** X6. A build failure makes [Exec] return that error without opening,
    driving or closing anything; an [Open] failure makes it close the
    executor once and return the error of [Open]. *)
Theorem exec_build_or_open_failure (w w1 : World) :
  (forall err,
      buildExecutor env w = (w1, Ret (inr err)) ->
      Exec env w
      = (set_trace w1 (observedRetries (stmt w1) ++ trace w1),
         Ret (None, Some err)))
  /\ (forall e err,
        buildExecutor env w = (w1, Ret (inl e)) ->
        outcome (ex_open e) = RVal (Some err) ->
        Exec env w
        = (mkWorld (addPhase PhOpen (elapsed (ex_open e)) (stmt w1)) (vars w1)
             (observedRetries (stmt w1)
              ++ EvClose :: EvOpen (elapsed (ex_open e)) :: trace w1),
           Ret (None, Some err))).
Proof.
  split.
  - intros err Hb. rewrite Exec_eq. unfold ExecBody. go_simpl. rewrite Hb.
    go_simpl. unfold ExecDeferred, observedRetries. go_simpl.
    destruct w1 as [s1 v1 t1]. cbn [stmt vars trace].
    destruct (0 <? retryCount s1); reflexivity.
  - intros e err Hb Hopen. rewrite Exec_eq. unfold ExecBody. go_simpl.
    rewrite Hb. go_simpl. unfold openExecutor. go_simpl. rewrite Hopen.
    go_simpl. unfold ExecDeferred, observedRetries. go_simpl.
    rewrite retryCount_addPhase.
    destruct (0 <? retryCount (stmt w1)); reflexivity.
Qed.

(** X7. A statement that is neither a pessimistic select-for-update nor
    no-delay (the executor checked has output columns and is not the
    calculate-no-delay projection) is not driven by [Exec]: after build
    and [Open] it is handed to the caller as a record set around the
    untouched executor, with no [Next] and no [Close] call made.  The
    deferred function of [handleNoDelay] has detached the trackers all
    the same, since its record set is nil. *)
Theorem exec_streams_without_driving (w w1 : World) (e : Executor) :
  buildExecutor env w = (w1, Ret (inl e)) ->
  outcome (ex_open e) = RVal None ->
  IsPessimistic (vars w1) && isSelectForUpdate (stmt w1) = false ->
  (ex_schemaLen (fst (toCheck e)) =? 0)%nat = false ->
  isCalculateNoDelay (fst (toCheck e)) = false ->
  (forall tr, Txn env tr = None) ->
  exists ts,
    Exec env w
    = (mkWorld (addPhase PhOpen (elapsed (ex_open e)) (stmt w1)) (vars w1)
         (observedRetries (stmt w1) ++ detachedTrackers (vars w1)
          ++ EvOpen (elapsed (ex_open e)) :: trace w1),
       Ret (Some (RSExecutor (mkRecordSet e None ts)), None)).
Proof.
  intros Hb Hopen Hsfu Hlen Hcalc Htxn.
  rewrite Exec_eq. unfold ExecBody. go_simpl. rewrite Hb. go_simpl.
  unfold openExecutor. go_simpl. rewrite Hopen. go_simpl.
  replace (isSelectForUpdate (addPhase PhOpen (elapsed (ex_open e)) (stmt w1)))
    with (isSelectForUpdate (stmt w1)) by reflexivity.
  rewrite Hsfu. unfold handleNoDelay. go_simpl. rewrite Hlen, Hcalc.
  go_simpl. unfold detachMemThenDisk, detachedTrackers. go_simpl.
  destruct (hasMemTracker (vars w1)), (hasDiskTracker (vars w1)); go_simpl;
    rewrite Htxn; unfold ExecDeferred, observedRetries; go_simpl;
    rewrite retryCount_addPhase;
    destruct (0 <? retryCount (stmt w1)); eexists; reflexivity.
Qed.

(** X8. In the pessimistic DML loop an error of [KeysNeedToLock] or of
    [newLockCtx] is returned as it is: the recovery step is not entered
    (no verdict asked, no retry, no deadlock translation) and
    [LockKeys] is not called. *)
Theorem key_collection_errors_bypass_recovery (e : Executor) (w w1 : World)
  (rs : option RecordSet) :
  Txn env (trace w) = None ->
  handleNoDelayExecutor e w = (w1, Ret (rs, None)) ->
  txn_Valid env (trace w1) = true ->
  (forall keys err,
      KeysNeedToLock env (trace w1) = (keys, Some err) ->
      handlePessimisticDML env e w
      = (set_trace w1 (EvKeysNeedToLock :: trace w1), Ret (Some err)))
  /\ (forall keys err,
        KeysNeedToLock env (trace w1) = (keys, None) ->
        CollectUnchangedLockKeys env (EvKeysNeedToLock :: trace w1) keys <> [] ->
        newLockCtx env (EvKeysNeedToLock :: trace w1) = Some err ->
        handlePessimisticDML env e w
        = (set_trace w1 (EvKeysNeedToLock :: trace w1), Ret (Some err))).
Proof.
  intros Htxn Hdrive Hvalid.
  assert (Hstart : forall r,
            (forall fuel,
               pessimisticDMLLoop env (S fuel) e w = r) ->
            handlePessimisticDML env e w = r).
  { intros r Hr. unfold handlePessimisticDML. go_simpl. rewrite Htxn.
    unfold retryFuel. apply Hr. }
  split.
  - intros keys err Hkeys. apply Hstart. intros fuel.
    cbn [pessimisticDMLLoop]. go_simpl. rewrite Hdrive. go_simpl.
    rewrite Hvalid. go_simpl. rewrite Hkeys. reflexivity.
  - intros keys err Hkeys Hne Hctx. apply Hstart. intros fuel.
    cbn [pessimisticDMLLoop]. go_simpl. rewrite Hdrive. go_simpl.
    rewrite Hvalid. go_simpl. rewrite Hkeys. go_simpl.
    destruct (CollectUnchangedLockKeys env (EvKeysNeedToLock :: trace w1) keys)
      as [|k ks] eqn:Hc; [contradiction|].
    cbn [List.length Nat.eqb]. rewrite Hctx. reflexivity.
Qed.

End ExecPaths.

(** ** A conflict that never goes away exhausts the budget *)

Section BudgetExhaustion.

Variable env : Env.
Variable lockErr : error.
Hypothesis MaxRetryCount_uint : MaxRetryCount env < 2 ^ 64.
Hypothesis Hconflict : persistentConflict env lockErr.

Lemma lockCalls_cons (ev : Event) (tr : Trace) :
  lockCalls (ev :: tr) = (if isLockKeysEvent ev then 1 else 0) + lockCalls tr.
Proof.
  unfold lockCalls, countEvents. cbn [filter].
  destruct (isLockKeysEvent ev); cbn [List.length]; lia.
Qed.

Lemma clean_drive (e : Executor) (w : World) :
  drivesCleanly e = true ->
  readOnlyView (vars w) = false ->
  exists w1,
    handleNoDelayExecutor e w = (w1, Ret (None, None))
    /\ vars w1 = vars w
    /\ retryCount (stmt w1) = retryCount (stmt w)
    /\ lockCalls (trace w1) = lockCalls (trace w).
Proof.
  intros Hclean Hro. unfold readOnlyView in Hro.
  apply orb_false_iff in Hro. destruct Hro as [Hsnap Hlow].
  unfold handleNoDelayExecutor. go_simpl. rewrite Hsnap, Hlow.
  rewrite !andb_false_r. go_simpl.
  unfold drivesCleanly in Hclean. unfold next.
  destruct (outcome (ex_open e)) as [[oerr|]|p]; try discriminate.
  destruct (ex_nexts e) as [|t rest]; go_simpl.
  - destruct (InRestrictedSQL (vars w)); go_simpl;
      (eexists; split; [reflexivity|]); cbn [vars stmt trace];
      rewrite retryCount_addPhase, !lockCalls_cons; cbn [isLockKeysEvent];
      repeat split; lia.
  - destruct (outcome t) as [[rows|err]|p]; try discriminate. go_simpl.
    destruct (InRestrictedSQL (vars w)); go_simpl;
      (eexists; split; [reflexivity|]); cbn [vars stmt trace];
      rewrite retryCount_addPhase, !lockCalls_cons; cbn [isLockKeysEvent];
      repeat split; lia.
Qed.

Lemma conflict_recovery (w : World) :
  0 <= retryCount (stmt w) ->
  (MaxRetryCount env <= retryCount (stmt w) ->
   handlePessimisticLockError env (Some lockErr) w
   = (set_trace w (EvOnStmtErrorForNextAction lockErr :: trace w),
      Ret (None, Some errRetryLimit)))
  /\ (retryCount (stmt w) < MaxRetryCount env ->
      exists w3 e',
        handlePessimisticLockError env (Some lockErr) w
        = (w3, Ret (Some e', None))
        /\ drivesCleanly e' = true
        /\ vars w3 = vars w
        /\ retryCount (stmt w3) = retryCount (stmt w) + 1
        /\ lockCalls (trace w3) = lockCalls (trace w)).
Proof.
  intros Hge.
  destruct Hconflict as (_ & _ & _ & _ & _ & _ & Hverdict & Hretry & Hts & Hbuild).
  split.
  - intros Hmax. rewrite handlePessimisticLockError_eq.
    unfold recoveryBody. go_simpl. rewrite Hverdict. go_simpl.
    replace (MaxRetryCount env <=? retryCount (stmt w)) with true
      by (symmetry; apply Z.leb_le; exact Hmax).
    reflexivity.
  - intros Hlt. rewrite handlePessimisticLockError_eq.
    unfold recoveryBody. go_simpl. rewrite Hverdict. go_simpl.
    replace (MaxRetryCount env <=? retryCount (stmt w)) with false
      by (symmetry; apply Z.leb_gt; exact Hlt).
    go_simpl. rewrite Hretry. go_simpl.
    match goal with
    | |- context [GetStmtForUpdateTS env ?tr] =>
        pose proof (Hts tr) as Hts';
        destruct (GetStmtForUpdateTS env tr) as [ts tsErr]
    end.
    cbn [snd] in Hts'. subst tsErr. go_simpl.
    unfold buildExecutor. go_simpl.
    match goal with
    | |- context [build env ?tr] =>
        destruct (Hbuild tr) as (b & Hb1 & Hb2 & Hb3 & Hb4)
    end.
    rewrite Hb1. go_simpl. rewrite Hb2. go_simpl. rewrite Hb3. go_simpl.
    unfold openExecutor. go_simpl.
    pose proof Hb4 as Hopen. unfold drivesCleanly in Hopen.
    destruct (outcome (ex_open (b_exec b))) as [[oerr|]|p]; try discriminate.
    go_simpl. cbn [reportDeadlock].
    eexists. eexists. split; [reflexivity|]. cbn [vars stmt trace].
    rewrite !retryCount_addPhase. cbn [setBuildFlags retryCount
      resetPhaseDurations_stmt incRetryCount].
    rewrite !lockCalls_cons. cbn [isLockKeysEvent].
    rewrite wrap_uint64_small by lia.
    repeat split; try assumption; lia.
Qed.

(** One attempt under a persistent conflict: the drive succeeds, the
    keys are collected and [LockKeys] fails; what remains is the
    recovery step. *)
Lemma conflict_attempt (fuel : nat) (e : Executor) (w : World) :
  drivesCleanly e = true ->
  readOnlyView (vars w) = false ->
  exists w2,
    pessimisticDMLLoop env (S fuel) e w
    = (rec <- handlePessimisticLockError env (Some lockErr) ;;
       afterLockError (pessimisticDMLLoop env fuel) rec) w2
    /\ vars w2 = vars w
    /\ retryCount (stmt w2) = retryCount (stmt w)
    /\ lockCalls (trace w2) = lockCalls (trace w) + 1.
Proof.
  intros Hclean Hro.
  destruct Hconflict as (_ & Hvalid & Hkeys & Hne & Hctx & Hlock & _).
  destruct (clean_drive e w Hclean Hro) as (w1 & Hd & Hv & Hrc1 & Hl1).
  cbn [pessimisticDMLLoop]. go_simpl. rewrite Hd. go_simpl.
  rewrite Hvalid. go_simpl.
  pose proof (Hkeys (trace w1)) as Hk.
  pose proof (Hne (trace w1) (EvKeysNeedToLock :: trace w1)) as Hne'.
  destruct (KeysNeedToLock env (trace w1)) as [keys kerr].
  cbn [fst snd] in *. subst kerr. go_simpl.
  destruct (CollectUnchangedLockKeys env (EvKeysNeedToLock :: trace w1) keys)
    as [|k ks] eqn:Hc; [contradiction|].
  cbn [List.length Nat.eqb]. rewrite Hctx. go_simpl.
  match goal with
  | |- context [LockKeys env ?tr ?ks0] =>
      pose proof (Hlock tr ks0) as Hl;
      destruct (LockKeys env tr ks0) as [d out]
  end.
  cbn [outcome elapsed] in *. subst out. go_simpl.
  eexists. split; [reflexivity|]. cbn [vars stmt trace].
  rewrite retryCount_addPhase, !lockCalls_cons. cbn [isLockKeysEvent].
  repeat split; try assumption. lia.
Qed.

Lemma persistent_conflict_loop (n : nat) :
  forall (fuel : nat) (e : Executor) (w : World),
    Z.to_nat (MaxRetryCount env - retryCount (stmt w)) = n ->
    0 <= retryCount (stmt w) <= MaxRetryCount env ->
    (n < fuel)%nat ->
    drivesCleanly e = true ->
    readOnlyView (vars w) = false ->
    snd (pessimisticDMLLoop env fuel e w) = Ret (Some errRetryLimit)
    /\ retryCount (stmt (fst (pessimisticDMLLoop env fuel e w)))
       = MaxRetryCount env
    /\ lockCalls (trace (fst (pessimisticDMLLoop env fuel e w)))
       = lockCalls (trace w) + Z.of_nat n + 1.
Proof.
  induction n as [|n IH]; intros fuel e w Hn Hrc Hfuel Hclean Hro;
    (destruct fuel as [|fuel]; [lia|]);
    destruct (conflict_attempt fuel e w Hclean Hro)
      as (w2 & Hloop & Hv2 & Hrc2 & Hl2);
    rewrite Hloop; go_simpl;
    destruct (conflict_recovery w2 ltac:(lia)) as [Hstop Hgo].
  - rewrite Hstop by lia. go_simpl. unfold afterLockError. go_simpl.
    cbn [ErrDeadlock_Equal errRetryLimit Cause]. go_simpl.
    rewrite !lockCalls_cons. cbn [isLockKeysEvent]. repeat split; lia.
  - destruct Hgo as (w3 & e' & Hrec & Hclean' & Hv3 & Hrc3 & Hl3); [lia|].
    rewrite Hrec. go_simpl. unfold afterLockError. go_simpl.
    destruct (IH fuel e' w3) as (Hres & Hfinal & Hcalls);
      try assumption; try lia.
    + rewrite Hv3, Hv2. exact Hro.
    + repeat split; try assumption. lia.
Qed.

(** X9. When every attempt reaches [LockKeys] and meets the same lock
    error there, the transaction manager being ready to retry each
    time, [handlePessimisticDML] gives up with the retry-limit error
    once the budget is spent: the retry counter ends at
    [MaxRetryCount] and [LockKeys] was called once per attempt, that is
    once more than there were retries left. *)
Theorem persistent_conflict_exhausts_budget (e : Executor) (w : World) :
  0 <= retryCount (stmt w) <= MaxRetryCount env ->
  drivesCleanly e = true ->
  readOnlyView (vars w) = false ->
  snd (handlePessimisticDML env e w) = Ret (Some errRetryLimit)
  /\ retryCount (stmt (fst (handlePessimisticDML env e w))) = MaxRetryCount env
  /\ lockCalls (trace (fst (handlePessimisticDML env e w)))
     = lockCalls (trace w) + (MaxRetryCount env - retryCount (stmt w)) + 1.
Proof.
  intros Hrc Hclean Hro.
  destruct Hconflict as (Htxn & _).
  unfold handlePessimisticDML. go_simpl. rewrite Htxn. unfold retryFuel.
  destruct (persistent_conflict_loop
              (Z.to_nat (MaxRetryCount env - retryCount (stmt w)))
              (S (Z.to_nat (MaxRetryCount env - retryCount (stmt w))))
              e w eq_refl Hrc (Nat.lt_succ_diag_r _) Hclean Hro)
    as (Hres & Hfinal & Hcalls).
  repeat split; try assumption. rewrite Hcalls. lia.
Qed.

End BudgetExhaustion.

(** ** Found rows, batches and the duration fold *)

Lemma wrap_uint64_add_l (a b : Z) :
  wrap_uint64 (wrap_uint64 a + b) = wrap_uint64 (a + b).
Proof. unfold wrap_uint64. apply Zplus_mod_idemp_l. Qed.

Lemma wrap_uint64_range (z : Z) : 0 <= wrap_uint64 z < 2 ^ 64.
Proof. unfold wrap_uint64. apply Z.mod_pos_bound. lia. Qed.

Lemma pullAll_clean (script : list (Timed NextOut)) :
  forall (fuel : nat) (a : recordSet) (req : Chunk) (rows : list Row)
         (w : World),
    ex_nexts (rs_executor a) = script ->
    cleanRows script = Some rows ->
    (List.length script < fuel)%nat ->
    0 <= FoundRows (vars w) < 2 ^ 64 ->
    exists w',
      pullAll fuel a req w = (w', Ret (rows, None))
      /\ LastFoundRows (vars w')
         = wrap_uint64 (FoundRows (vars w) + Z.of_nat (List.length rows))
      /\ FoundRows (vars w') = LastFoundRows (vars w').
Proof.
  induction script as [|t rest IH];
    intros fuel a req rows w Hscript Hclean Hfuel Hrange;
    (destruct fuel as [|fuel]; [cbn in Hfuel; lia|]);
    cbn [pullAll]; unfold recordSet_Next, next; rewrite Hscript; go_simpl.
  - cbn in Hclean. inversion Hclean; subst.
    unfold Chunk_NumRows, Chunk_Reset. cbn [chk_rows List.length Nat.eqb].
    go_simpl. eexists. split; [reflexivity|].
    cbn [vars setLastFoundRows LastFoundRows FoundRows List.length].
    rewrite Z.add_0_r, wrap_uint64_small by exact Hrange.
    split; reflexivity.
  - cbn [cleanRows] in Hclean.
    destruct (outcome t) as [[batch|err]|p]; try discriminate. go_simpl.
    unfold Chunk_NumRows, Chunk_AppendRows, Chunk_Reset.
    cbn [chk_rows app chk_requiredRows].
    destruct (List.length batch =? 0)%nat eqn:Hlen; go_simpl;
      cbn [chk_rows]; rewrite ?Hlen; go_simpl.
    + inversion Hclean; subst. eexists. split; [reflexivity|].
      cbn [vars setLastFoundRows LastFoundRows FoundRows List.length].
      rewrite Z.add_0_r, wrap_uint64_small by exact Hrange.
      split; reflexivity.
    + destruct (cleanRows rest) as [rows'|] eqn:Hrest; [|discriminate].
      cbn in Hclean. inversion Hclean; subst.
      match goal with
      | |- context [pullAll fuel ?a1 ?req1 ?w1] =>
          destruct (IH fuel a1 req1 rows' w1) as (w' & Hrun & Hlast & Hfound);
          [reflexivity|reflexivity|cbn in Hfuel; lia
          |cbn [vars addFoundRows FoundRows]; apply wrap_uint64_range|]
      end.
      rewrite Hrun. go_simpl. eexists. split; [reflexivity|].
      split; [|exact Hfound].
      rewrite Hlast. cbn [vars addFoundRows FoundRows].
      rewrite wrap_uint64_add_l, length_app. f_equal. lia.
Qed.

(** X10. Pulling a live record set to exhaustion, when no [Next] call
    fails, delivers the rows of the executor in order and leaves
    [LastFoundRows] at the found-row count from before plus the number
    of rows delivered (as [uint64] addition computes it). *)
Theorem drained_stream_sets_last_found_rows (a : recordSet) (req : Chunk)
  (rows : list Row) (w : World) :
  cleanRows (ex_nexts (rs_executor a)) = Some rows ->
  0 <= FoundRows (vars w) < 2 ^ 64 ->
  exists w',
    pullAll (S (List.length (ex_nexts (rs_executor a)))) a req w
    = (w', Ret (rows, None))
    /\ LastFoundRows (vars w')
       = wrap_uint64 (FoundRows (vars w) + Z.of_nat (List.length rows)).
Proof.
  intros Hclean Hrange.
  destruct (pullAll_clean (ex_nexts (rs_executor a))
              (S (List.length (ex_nexts (rs_executor a)))) a req rows w
              eq_refl Hclean (Nat.lt_succ_diag_r _) Hrange)
    as (w' & Hrun & Hlast & _).
  exists w'. split; assumption.
Qed.

(** X11. One [Next] on a buffered record set: the batch is the next
    rows of the buffer in order, never more than the chunk's required
    rows; the cursor advances by the size of the batch and stays within
    the buffer; and the batch is empty exactly when the buffer is
    exhausted or the chunk asks for no rows at all. *)
Theorem chunkRowRecordSet_Next_batch (c : chunkRowRecordSet) (chk : Chunk) :
  (crs_idx c <= List.length (crs_rows c))%nat ->
  let r := chunkRowRecordSet_Next c chk in
  let n := Chunk_NumRows (snd r) in
  (n <= Chunk_RequiredRows chk)%nat
  /\ chk_rows (snd r) = firstn n (skipn (crs_idx c) (crs_rows c))
  /\ crs_rows (fst r) = crs_rows c
  /\ crs_idx (fst r) = (crs_idx c + n)%nat
  /\ (crs_idx (fst r) <= List.length (crs_rows c))%nat
  /\ (n = 0%nat <->
      crs_idx c = List.length (crs_rows c) \/ Chunk_RequiredRows chk = 0%nat).
Proof.
  intros Hidx. cbv zeta.
  unfold chunkRowRecordSet_Next, Chunk_IsFull, Chunk_NumRows,
    Chunk_RequiredRows, Chunk_Reset, Chunk_AppendRows.
  cbn [chk_rows chk_requiredRows List.length app].
  destruct (chk_requiredRows chk) as [|cap] eqn:Hcap.
  - cbn [Nat.eqb negb andb fst snd chk_rows List.length firstn].
    repeat split; try reflexivity; lia.
  - cbn [Nat.eqb negb andb].
    destruct (crs_idx c <? List.length (crs_rows c))%nat eqn:Hlt.
    + apply Nat.ltb_lt in Hlt.
      cbn [fst snd chk_rows crs_rows crs_idx chk_requiredRows].
      set (n := Nat.min (List.length (crs_rows c) - crs_idx c) (S cap - 0)).
      assert (Hlen : List.length (firstn n (skipn (crs_idx c) (crs_rows c))) = n).
      { rewrite length_firstn, length_skipn. unfold n. lia. }
      rewrite Hlen. repeat split; try reflexivity; unfold n; lia.
    + apply Nat.ltb_ge in Hlt.
      cbn [fst snd chk_rows List.length firstn].
      repeat split; try reflexivity; lia.
Qed.

(** X12. Folding the current-attempt slots into the prior-attempt slots
    loses no time, leaves the retry counter and the statement flags
    alone, and folding twice is the same as folding once. *)
Theorem resetPhaseDurations_fold (a : ExecStmt) :
  (forall ph,
      fst (phaseDurations ph (resetPhaseDurations_stmt a)) = 0
      /\ wrap_int64 (fst (phaseDurations ph (resetPhaseDurations_stmt a))
                     + snd (phaseDurations ph (resetPhaseDurations_stmt a)))
         = wrap_int64 (fst (phaseDurations ph a) + snd (phaseDurations ph a)))
  /\ retryCount (resetPhaseDurations_stmt a) = retryCount a
  /\ isSelectForUpdate (resetPhaseDurations_stmt a) = isSelectForUpdate a
  /\ resetPhaseDurations_stmt (resetPhaseDurations_stmt a)
     = resetPhaseDurations_stmt a.
Proof.
  assert (Hidem : forall x, wrap_int64 (wrap_int64 x + 0) = wrap_int64 x)
    by (intros x; rewrite wrap_int64_add_l; f_equal; lia).
  assert (Hw : forall x, wrap_int64 (wrap_int64 x) = wrap_int64 x).
  { intros x. rewrite <- (Hidem x) at 2.
    replace (wrap_int64 x + 0) with (wrap_int64 x) by lia. reflexivity. }
  split; [|split; [reflexivity|split; [reflexivity|]]].
  - intros ph. destruct ph; cbn -[wrap_int64 Z.add];
      (split; [reflexivity|]); rewrite Z.add_0_l, Hw; f_equal; lia.
  - unfold resetPhaseDurations_stmt, foldCurrent. cbn -[wrap_int64 Z.add].
    rewrite !Hidem. reflexivity.
Qed.

(** ** Worked executions of the execution core *)

Lemma recovery_all_or_nothing_witness :
  (exists e, (Some insertOk, @None error) = (Some e, None))
  \/ (exists err, (Some insertOk, @None error) = (None, Some err)).
Proof.
  exact (recovery_all_or_nothing envPlain ErrWriteConflict world0
           (Some insertOk, None) eq_refl).
Defined.

Lemma retries_never_exceed_budget_witness :
  retries (trace (fst (Exec envConflicts world0))) <= MaxRetryCount envConflicts
  /\ retryCount (stmt (fst (Exec envConflicts world0)))
     = retries (trace (fst (Exec envConflicts world0))).
Proof.
  refine (retries_never_exceed_budget envConflicts _ world0 _ eq_refl eq_refl);
    cbn; lia.
Defined.

Lemma Exec_returns_witness : snd (Exec envPersistentConflict world0) <> OutOfFuel.
Proof.
  refine (Exec_returns envPersistentConflict _ world0). cbn. lia.
Defined.

Lemma exec_build_or_open_failure_witness :
  Exec envBuildFails world0
  = (mkWorld (addPhase PhBuild 11 freshStmt) pessimisticVars [EvBuild 11],
     Ret (None, Some (ErrTrace (ErrExternal 54)))).
Proof.
  exact (proj1 (exec_build_or_open_failure envBuildFails world0
                  (fst (buildExecutor envBuildFails world0)))
           (ErrTrace (ErrExternal 54)) eq_refl).
Defined.

Lemma exec_streams_without_driving_witness :
  exists ts,
    Exec envStreaming worldSelect
    = (mkWorld (addPhase PhOpen 2 (addPhase PhBuild 11 freshStmt)) selectVars
         [EvDetachDisk; EvDetachMem; EvOpen 2; EvBuild 11],
       Ret (Some (RSExecutor (mkRecordSet readerClean None ts)), None)).
Proof.
  exact (exec_streams_without_driving envStreaming worldSelect
           (fst (buildExecutor envStreaming worldSelect)) readerClean
           eq_refl eq_refl eq_refl eq_refl eq_refl (fun _ => eq_refl)).
Defined.

Lemma key_collection_errors_bypass_recovery_witness :
  handlePessimisticDML envKeysError insertOk world0
  = (set_trace (fst (handleNoDelayExecutor insertOk world0))
       (EvKeysNeedToLock :: trace (fst (handleNoDelayExecutor insertOk world0))),
     Ret (Some (ErrExternal 27))).
Proof.
  exact (proj1 (key_collection_errors_bypass_recovery envKeysError insertOk
                  world0 (fst (handleNoDelayExecutor insertOk world0)) None
                  eq_refl eq_refl eq_refl)
           [] (ErrExternal 27) eq_refl).
Defined.

Lemma persistent_conflict_exhausts_budget_witness :
  snd (handlePessimisticDML envPersistentConflict insertOk world0)
  = Ret (Some errRetryLimit)
  /\ retryCount (stmt (fst (handlePessimisticDML envPersistentConflict
                              insertOk world0))) = 256
  /\ lockCalls (trace (fst (handlePessimisticDML envPersistentConflict
                              insertOk world0))) = 257.
Proof.
  refine (persistent_conflict_exhausts_budget envPersistentConflict
            ErrWriteConflict _ _ insertOk world0 _ eq_refl eq_refl).
  - cbn. lia.
  - repeat split; try (intros; reflexivity); try (intros; discriminate).
    intros tr. eexists. repeat split; reflexivity.
  - cbn. lia.
Defined.

Lemma drained_stream_sets_last_found_rows_witness :
  exists w',
    pullAll 3 liveReader callerChunk world0 = (w', Ret ([[1]; [2]; [3]], None))
    /\ LastFoundRows (vars w') = 3.
Proof.
  refine (drained_stream_sets_last_found_rows liveReader callerChunk
            [[1]; [2]; [3]] world0 eq_refl _).
  cbn. lia.
Defined.

Lemma chunkRowRecordSet_Next_batch_witness :
  let r := chunkRowRecordSet_Next bufferedReader callerChunk in
  let n := Chunk_NumRows (snd r) in
  (n <= Chunk_RequiredRows callerChunk)%nat
  /\ chk_rows (snd r) = firstn n (skipn 1 [[1]; [2]; [3]])
  /\ crs_rows (fst r) = [[1]; [2]; [3]]
  /\ crs_idx (fst r) = (1 + n)%nat
  /\ (crs_idx (fst r) <= 3)%nat
  /\ (n = 0%nat <-> 1%nat = 3%nat \/ Chunk_RequiredRows callerChunk = 0%nat).
Proof.
  refine (chunkRowRecordSet_Next_batch bufferedReader callerChunk _).
  cbn. lia.
Defined.

(** * Further properties of the reporting code *)

(** ** Phase duration observers *)

Lemma getPhaseDurationObserver_eq (phase : string) (internal : bool) :
  getPhaseDurationObserver phase internal
  = WithLabelValues phase (internalLabel internal).
Proof.
  unfold getPhaseDurationObserver, internalLabel.
  destruct internal; [reflexivity|].
  repeat match goal with
         | |- context [(phase =? ?c)%string] =>
             destruct (String.eqb_spec phase c) as [->|_]; [reflexivity|]
         end.
  reflexivity.
Qed.

(** X13. The table of predefined observers is consistent: for every
    phase name [getPhaseDurationObserver] yields the observer labelled
    with that very phase, and with "1" for internal and "0" for other
    queries, whether the phase is one of the fifteen predefined ones or
    not. *)
Theorem getPhaseDurationObserver_labels (phase : string) (internal : bool) :
  obs_phase (getPhaseDurationObserver phase internal) = phase
  /\ obs_internal (getPhaseDurationObserver phase internal)
     = (if internal then "1" else "0")%string.
Proof.
  rewrite getPhaseDurationObserver_eq. destruct internal; split; reflexivity.
Qed.

Lemma observeEach_In (internal : bool) (items : list (Z * string))
  (o : Observation) :
  In o (observeEach internal items)
  <-> exists it, In it items /\ 0 < fst it
                 /\ o = mkObservation
                          (WithLabelValues (snd it) (internalLabel internal))
                          (fst it).
Proof.
  induction items as [|it rest IH]; cbn [observeEach].
  - split; [intros []|intros (it & [] & _)].
  - rewrite in_app_iff, IH. split.
    + intros [H|(it' & Hin & Hpos & ->)].
      * destruct (0 <? fst it) eqn:Hlt; [|destruct H].
        destruct H as [<-|[]]. exists it. rewrite getPhaseDurationObserver_eq.
        repeat split; [left; reflexivity|apply Z.ltb_lt; exact Hlt].
      * exists it'. repeat split; [right; exact Hin|exact Hpos].
    + intros (it' & [<-|Hin] & Hpos & ->).
      * left. apply Z.ltb_lt in Hpos. rewrite Hpos.
        rewrite getPhaseDurationObserver_eq. left; reflexivity.
      * right. exists it'. repeat split; assumption.
Qed.

Lemma observeEach_NoDup (internal : bool) (items : list (Z * string)) :
  NoDup (map snd items) ->
  NoDup (map (fun o => obs_phase (ob_observer o)) (observeEach internal items)).
Proof.
  induction items as [|it rest IH]; cbn [observeEach map];
    [intros _; constructor|].
  intros Hnd. inversion Hnd as [|name names Hfresh Hrest]; subst.
  destruct (0 <? fst it); cbn [app map]; [|apply IH; exact Hrest].
  constructor; [|apply IH; exact Hrest].
  rewrite getPhaseDurationObserver_eq. cbn [ob_observer obs_phase WithLabelValues].
  intros Hin. apply in_map_iff in Hin. destruct Hin as (o & Hname & Hin).
  apply observeEach_In in Hin. destruct Hin as (it' & Hin' & _ & ->).
  cbn [ob_observer obs_phase WithLabelValues] in Hname.
  apply Hfresh. rewrite <- Hname. apply in_map. exact Hin'.
Qed.

(** X14. [observePhaseDurations] reports only positive durations, all
    under the label of the kind of query, and no phase twice.  Of each
    execution phase the time of the final attempt is reported under
    "<phase>:final" and the time of the retried attempts under
    "<phase>:locking", each exactly when it is positive. *)
Theorem observePhaseDurations_reports (a : ExecStmt) (internal : bool)
  (commitDetails : option CommitDetails) (writeSQLResp : option Z) :
  let out := observePhaseDurations a internal commitDetails writeSQLResp in
  (forall o, In o out ->
     0 < ob_duration o
     /\ obs_internal (ob_observer o) = internalLabel internal)
  /\ NoDup (map (fun o => obs_phase (ob_observer o)) out)
  /\ (forall ph,
        (0 < fst (phaseDurations ph a)
         <-> In (mkObservation
                   (WithLabelValues (finalPhase ph) (internalLabel internal))
                   (fst (phaseDurations ph a))) out)
        /\ (0 < snd (phaseDurations ph a)
            <-> In (mkObservation
                      (WithLabelValues (lockingPhase ph) (internalLabel internal))
                      (snd (phaseDurations ph a))) out)).
Proof.
  cbv zeta.
  set (execItems :=
         [(fst (phaseBuildDurations a), phaseBuildFinal);
          (snd (phaseBuildDurations a), phaseBuildLocking);
          (fst (phaseOpenDurations a), phaseOpenFinal);
          (snd (phaseOpenDurations a), phaseOpenLocking);
          (fst (phaseNextDurations a), phaseNextFinal);
          (snd (phaseNextDurations a), phaseNextLocking);
          (fst (phaseLockDurations a), phaseLockFinal);
          (snd (phaseLockDurations a), phaseLockLocking)]).
  set (commitItems :=
         match commitDetails with
         | None => []
         | Some cd =>
             [(PrewriteTime cd, phaseCommitPrewrite);
              (CommitTime cd, phaseCommitCommit);
              (GetCommitTsTime cd, phaseCommitWaitCommitTS);
              (GetLatestTsTime cd, phaseCommitWaitLatestTS);
              (LocalLatchTime cd, phaseCommitWaitLatch);
              (WaitPrewriteBinlogTime cd, phaseCommitWaitBinlog)]
         end).
  set (respItems :=
         match writeSQLResp with
         | None => []
         | Some d => [(d, phaseWriteResponse)]
         end).
  assert (Hout : observePhaseDurations a internal commitDetails writeSQLResp
                 = observeEach internal (execItems ++ commitItems ++ respItems)).
  { assert (Happ : forall l1 l2,
               observeEach internal (l1 ++ l2)
               = observeEach internal l1 ++ observeEach internal l2).
    { induction l1 as [|x l1 IH]; intros l2; cbn [observeEach app];
        [reflexivity|]. rewrite IH, app_assoc. reflexivity. }
    rewrite !Happ. unfold observePhaseDurations. fold execItems.
    f_equal. f_equal.
    - unfold commitItems. destruct commitDetails; reflexivity.
    - unfold respItems. destruct writeSQLResp as [d|]; [|reflexivity].
      cbn [observeEach fst snd]. rewrite app_nil_r. reflexivity. }
  rewrite Hout. split; [|split].
  - intros o Hin. apply observeEach_In in Hin.
    destruct Hin as (it & _ & Hpos & ->). split; [exact Hpos|reflexivity].
  - apply observeEach_NoDup.
    rewrite !map_app. unfold execItems, commitItems, respItems.
    destruct commitDetails, writeSQLResp; cbn [map snd app];
      repeat (constructor; [cbn [In]; intuition discriminate|]);
      constructor.
  - assert (Hitem : forall d name,
              In (d, name) execItems ->
              (0 < d <-> In (mkObservation
                               (WithLabelValues name (internalLabel internal)) d)
                           (observeEach internal
                              (execItems ++ commitItems ++ respItems)))).
    { intros d name Hin. rewrite observeEach_In. split.
      - intros Hpos. exists (d, name). repeat split; [|exact Hpos].
        apply in_or_app. left. exact Hin.
      - intros (it & _ & Hpos & Heq). inversion Heq; subst. exact Hpos. }
    intros ph. split; apply Hitem; unfold execItems; destruct ph;
      cbn [phaseDurations finalPhase lockingPhase In]; tauto.
Qed.

Lemma observePhaseDurations_reports_witness :
  In (mkObservation (WithLabelValues "lock:locking" "0") 40)
     (observePhaseDurations retriedStmt false None None).
Proof.
  refine (proj1 (proj2 (proj2 (proj2 (observePhaseDurations_reports
                   retriedStmt false None None)) PhLock)) _).
  cbn. lia.
Defined.

(** ** Query text for the logs *)

Lemma QueryReplacer_Replace_length (s : string) :
  String.length (QueryReplacer_Replace s) = String.length s.
Proof.
  induction s as [|c s IH]; cbn [QueryReplacer_Replace String.length];
    [reflexivity|]. rewrite IH. reflexivity.
Qed.

Lemma QueryReplacer_Replace_get (s : string) (i : nat) :
  String.get i (QueryReplacer_Replace s)
  = option_map (fun c => if isQueryBreak c then " "%char else c)
               (String.get i s).
Proof.
  revert i. induction s as [|c s IH]; intros i;
    cbn [QueryReplacer_Replace String.get]; [reflexivity|].
  destruct i as [|i]; [reflexivity|]. apply IH.
Qed.

(** X15. The text a [FormatSQL] closure returns holds no carriage
    return, line feed or tab, whatever the text and the length limit.
    When the limit is off or not exceeded, the text has the length of
    the SQL and differs from it only where such a byte became a space,
    the captured SQL is left as it was, and so a second call returns the
    same text.  The limit counts as exceeded only when the length is
    positive as an [int32]. *)
Theorem FormatSQL_one_line (Sprintf_q_len : Z -> string -> nat -> string)
  (maxQueryLen : Z) (sql : string) :
  let r := FormatSQL_String Sprintf_q_len maxQueryLen sql in
  (forall i c, String.get i (fst r) = Some c -> isQueryBreak c = false)
  /\ (maxQueryLen <= 0
      \/ wrap_int32 (Z.of_nat (String.length sql)) <= maxQueryLen ->
      snd r = sql
      /\ String.length (fst r) = String.length sql
      /\ (forall i,
            String.get i (fst r)
            = option_map (fun c => if isQueryBreak c then " "%char else c)
                         (String.get i sql))
      /\ FormatSQL_String Sprintf_q_len maxQueryLen (snd r) = r).
Proof.
  cbv zeta. split.
  - assert (Hclean : forall s i c,
              String.get i (QueryReplacer_Replace s) = Some c ->
              isQueryBreak c = false).
    { intros s i c. rewrite QueryReplacer_Replace_get.
      destruct (String.get i s) as [c0|]; cbn [option_map]; [|discriminate].
      intros H; inversion H; subst.
      destruct (isQueryBreak c0) eqn:Hb; [reflexivity|exact Hb]. }
    unfold FormatSQL_String.
    destruct (maxQueryLen <=? 0); cbn [fst]; apply Hclean.
  - intros Hoff.
    assert (Heq : FormatSQL_String Sprintf_q_len maxQueryLen sql
                  = (QueryReplacer_Replace sql, sql)).
    { unfold FormatSQL_String.
      destruct (Z.leb_spec maxQueryLen 0) as [_|Hpos]; [reflexivity|].
      destruct (Z.ltb_spec maxQueryLen
                  (wrap_int32 (Z.of_nat (String.length sql))))
        as [Hlt|_]; [lia|reflexivity]. }
    rewrite Heq. cbn [fst snd]. repeat split.
    + apply QueryReplacer_Replace_length.
    + apply QueryReplacer_Replace_get.
    + exact Heq.
Qed.

Lemma FormatSQL_one_line_witness :
  let r := FormatSQL_String quoteFirst 4096 twoLineQuery in
  snd r = twoLineQuery /\ fst r = "SELECT 1 FROM t"%string.
Proof.
  destruct (proj2 (FormatSQL_one_line quoteFirst 4096 twoLineQuery))
    as (Hsnd & _ & _ & _).
  - right. vm_compute. discriminate.
  - split; [exact Hsnd|reflexivity].
Defined.

(** ** Result fields *)

Lemma substring_0_length (n : nat) (s : string) :
  String.length (substring 0 n s) = Nat.min n (String.length s).
Proof.
  revert n. induction s as [|c s IH]; intros [|n];
    cbn [substring String.length Nat.min]; try reflexivity.
  rewrite IH. reflexivity.
Qed.

Lemma substring_0_prefix (n : nat) (s : string) :
  prefix (substring 0 n s) s = true.
Proof.
  revert n. induction s as [|c s IH]; intros [|n];
    cbn [substring prefix]; try reflexivity.
  destruct (ascii_dec c c) as [_|Hne]; [apply IH|contradiction].
Qed.

Lemma prefix_refl (s : string) : prefix s s = true.
Proof.
  induction s as [|c s IH]; cbn [prefix]; [reflexivity|].
  destruct (ascii_dec c c) as [_|Hne]; [exact IH|contradiction].
Qed.

Lemma truncateAlias_bound (maxLen : nat) (s : string) :
  (String.length (truncateAlias maxLen s) <= maxLen)%nat
  /\ prefix (truncateAlias maxLen s) s = true
  /\ ((String.length s <= maxLen)%nat -> truncateAlias maxLen s = s).
Proof.
  unfold truncateAlias.
  destruct (Nat.ltb_spec maxLen (String.length s)) as [Hlt|Hge].
  - rewrite substring_0_length. repeat split; [lia|apply substring_0_prefix|lia].
  - repeat split; [exact Hge|apply prefix_refl].
Qed.

Lemma resultFieldsFrom_some (maxLen : nat) (NewCIStr : string -> CIStr)
  (defaultDB : string) (names : list FieldName) (columns : list FieldType) :
  forall i,
    (i + List.length columns <= List.length names)%nat ->
    exists rfs,
      resultFieldsFrom maxLen NewCIStr defaultDB names i columns = Some rfs.
Proof.
  induction columns as [|c columns IH]; intros i Hlen;
    cbn [resultFieldsFrom List.length] in *; [eexists; reflexivity|].
  destruct (nth_error names i) as [name|] eqn:Hn.
  - destruct (IH (S i)) as [rfs Hr]; [lia|]. rewrite Hr. eexists; reflexivity.
  - apply nth_error_None in Hn. lia.
Qed.

Lemma resultFieldsFrom_none (maxLen : nat) (NewCIStr : string -> CIStr)
  (defaultDB : string) (names : list FieldName) (columns : list FieldType) :
  forall i,
    (i <= List.length names)%nat ->
    (List.length names < i + List.length columns)%nat ->
    resultFieldsFrom maxLen NewCIStr defaultDB names i columns = None.
Proof.
  induction columns as [|c columns IH]; intros i Hi Hlen;
    cbn [resultFieldsFrom List.length] in *; [lia|].
  destruct (nth_error names i) as [name|] eqn:Hn; [|reflexivity].
  assert (Hlt : (i < List.length names)%nat)
    by (apply nth_error_Some; rewrite Hn; discriminate).
  rewrite (IH (S i)); [reflexivity|lia|lia].
Qed.

Lemma resultFieldsFrom_nth (maxLen : nat) (NewCIStr : string -> CIStr)
  (defaultDB : string) (names : list FieldName) (columns : list FieldType) :
  forall i rfs,
    resultFieldsFrom maxLen NewCIStr defaultDB names i columns = Some rfs ->
    List.length rfs = List.length columns
    /\ forall k rf,
         nth_error rfs k = Some rf ->
         exists retType name,
           nth_error columns k = Some retType
           /\ nth_error names (i + k) = Some name
           /\ rf = resultField maxLen NewCIStr defaultDB retType name.
Proof.
  induction columns as [|c columns IH]; intros i rfs;
    cbn [resultFieldsFrom].
  - intros H; inversion H; subst. split; [reflexivity|].
    intros [|k] rf Hk; discriminate.
  - destruct (nth_error names i) as [name|] eqn:Hn; [|discriminate].
    destruct (resultFieldsFrom maxLen NewCIStr defaultDB names (S i) columns)
      as [rest|] eqn:Hrest; [|discriminate].
    intros H; inversion H; subst. destruct (IH (S i) rest Hrest) as [Hlen Hnth].
    split; [cbn [List.length]; rewrite Hlen; reflexivity|].
    intros [|k] rf Hk; cbn [nth_error] in Hk.
    + inversion Hk; subst. exists c, name. rewrite Nat.add_0_r.
      repeat split; [exact Hn].
    + destruct (Hnth k rf Hk) as (retType & name' & Hc & Hn' & ->).
      exists retType, name'. rewrite Nat.add_succ_r.
      repeat split; assumption.
Qed.

(** X16. [colNames2ResultFields] returns (rather than panicking on
    [names[i]]) exactly when there are at least as many output names as
    schema columns; it then yields one field per schema column, and
    output names beyond the schema are ignored. *)
Theorem colNames2ResultFields_defined (maxLen : nat)
  (NewCIStr : string -> CIStr) (schema : list FieldType)
  (names : list FieldName) (defaultDB : string) :
  ((List.length schema <= List.length names)%nat
   <-> exists rfs,
         colNames2ResultFields maxLen NewCIStr schema names defaultDB = Some rfs)
  /\ (forall rfs,
        colNames2ResultFields maxLen NewCIStr schema names defaultDB = Some rfs ->
        List.length rfs = List.length schema
        /\ colNames2ResultFields maxLen NewCIStr schema
             (firstn (List.length schema) names) defaultDB = Some rfs).
Proof.
  unfold colNames2ResultFields. split; [split|].
  - intros Hlen. apply resultFieldsFrom_some. exact Hlen.
  - intros [rfs Hr].
    destruct (Nat.le_gt_cases (List.length schema) (List.length names))
      as [Hle|Hgt]; [exact Hle|].
    rewrite resultFieldsFrom_none in Hr; [discriminate|lia|exact Hgt].
  - intros rfs Hr.
    destruct (resultFieldsFrom_nth _ _ _ _ _ _ _ Hr) as [Hlen _].
    split; [exact Hlen|].
    assert (Hle : (List.length schema <= List.length names)%nat).
    { destruct (Nat.le_gt_cases (List.length schema) (List.length names))
        as [Hle|Hgt]; [exact Hle|].
      rewrite resultFieldsFrom_none in Hr; [discriminate|lia|exact Hgt]. }
    clear Hlen. revert Hr Hle.
    assert (Hgen : forall columns i rfs0,
               (i + List.length columns <= List.length names)%nat ->
               resultFieldsFrom maxLen NewCIStr defaultDB names i columns
               = Some rfs0 ->
               resultFieldsFrom maxLen NewCIStr defaultDB
                 (firstn (i + List.length columns) names) i columns
               = Some rfs0
               /\ forall m, (i + List.length columns <= m)%nat ->
                    resultFieldsFrom maxLen NewCIStr defaultDB
                      (firstn m names) i columns = Some rfs0).
    { induction columns as [|c columns IH]; intros i rfs0 Hle Hr;
        cbn [resultFieldsFrom List.length] in *.
      - split; [exact Hr|intros; exact Hr].
      - destruct (nth_error names i) as [name|] eqn:Hn; [|discriminate].
        destruct (resultFieldsFrom maxLen NewCIStr defaultDB names (S i) columns)
          as [rest|] eqn:Hrest; [|discriminate].
        assert (Hall : forall m, (i + S (List.length columns) <= m)%nat ->
                  match nth_error (firstn m names) i with
                  | Some name0 =>
                      match resultFieldsFrom maxLen NewCIStr defaultDB
                              (firstn m names) (S i) columns with
                      | Some rfs1 =>
                          Some (resultField maxLen NewCIStr defaultDB c name0
                                :: rfs1)
                      | None => None
                      end
                  | None => None
                  end = Some rfs0).
        { intros m Hm. rewrite nth_error_firstn.
          destruct (Nat.ltb_spec i m) as [_|Hge]; [|lia]. rewrite Hn.
          destruct (IH (S i) rest ltac:(lia) Hrest) as [_ Hm'].
          rewrite (Hm' m ltac:(lia)). exact Hr. }
        split; [apply Hall; lia|exact Hall]. }
    intros Hr Hle. exact (proj1 (Hgen schema 0%nat rfs Hle Hr)).
Qed.

(** X17. Field [i] of the result is made of schema column [i] and output
    name [i].  Its alias is the column name cut to at most
    [MaxAliasIdentifierLen] bytes (both spellings; a name within the
    limit is kept whole), while the name of its column info is never
    cut: it is the original column name or, when that has no lower-case
    spelling, the uncut column name.  The database name is the one
    given, or the session's default when none is given and the field has
    a table name. *)
Theorem colNames2ResultFields_fields (maxLen : nat)
  (NewCIStr : string -> CIStr) (schema : list FieldType)
  (names : list FieldName) (defaultDB : string) (rfs : list ResultField) :
  colNames2ResultFields maxLen NewCIStr schema names defaultDB = Some rfs ->
  forall i rf,
    nth_error rfs i = Some rf ->
    exists retType name,
      nth_error schema i = Some retType
      /\ nth_error names i = Some name
      /\ rf_Column_FieldType rf = retType
      /\ rf_Table_Name rf = fn_OrigTblName name
      /\ rf_TableAsName rf = fn_TblName name
      /\ (String.length (ci_O (rf_ColumnAsName rf)) <= maxLen)%nat
      /\ (String.length (ci_L (rf_ColumnAsName rf)) <= maxLen)%nat
      /\ prefix (ci_O (rf_ColumnAsName rf)) (ci_O (fn_ColName name)) = true
      /\ prefix (ci_L (rf_ColumnAsName rf)) (ci_L (fn_ColName name)) = true
      /\ ((String.length (ci_O (fn_ColName name)) <= maxLen)%nat ->
          ci_O (rf_ColumnAsName rf) = ci_O (fn_ColName name))
      /\ (rf_Column_Name rf = fn_OrigColName name
          /\ ci_L (fn_OrigColName name) <> ""%string
          \/ rf_Column_Name rf = fn_ColName name
             /\ ci_L (fn_OrigColName name) = ""%string)
      /\ (rf_DBName rf = fn_DBName name
          /\ (ci_L (fn_DBName name) <> ""%string
              \/ ci_L (fn_TblName name) = ""%string)
          \/ rf_DBName rf = NewCIStr defaultDB
             /\ ci_L (fn_DBName name) = ""%string
             /\ ci_L (fn_TblName name) <> ""%string).
Proof.
  unfold colNames2ResultFields. intros Hr i rf Hi.
  destruct (resultFieldsFrom_nth _ _ _ _ _ _ _ Hr) as [_ Hnth].
  destruct (Hnth i rf Hi) as (retType & name & Hc & Hn & ->).
  exists retType, name. cbn [Nat.add] in Hn.
  destruct (truncateAlias_bound maxLen (ci_O (fn_ColName name)))
    as (HO1 & HO2 & HO3).
  destruct (truncateAlias_bound maxLen (ci_L (fn_ColName name)))
    as (HL1 & HL2 & _).
  unfold resultField.
  cbn [rf_Column_FieldType rf_Table_Name rf_TableAsName rf_ColumnAsName
       rf_Column_Name rf_DBName ci_O ci_L].
  repeat (split; [first [assumption|reflexivity]|]). split.
  - destruct (String.eqb_spec (ci_L (fn_OrigColName name)) "") as [He|Hne];
      [right|left]; split; first [reflexivity|assumption].
  - destruct (String.eqb_spec (ci_L (fn_DBName name)) "") as [He|Hne];
      destruct (String.eqb_spec (ci_L (fn_TblName name)) "") as [He'|Hne'];
      cbn [andb negb].
    + left. split; [reflexivity|right; exact He'].
    + right. repeat split; assumption.
    + left. split; [reflexivity|left; exact Hne].
    + left. split; [reflexivity|left; exact Hne].
Qed.

Lemma colNames2ResultFields_defined_witness :
  exists rfs,
    colNames2ResultFields 8 newCIStr demoSchema demoNames "shop" = Some rfs.
Proof.
  refine (proj1 (proj1 (colNames2ResultFields_defined 8 newCIStr demoSchema
                          demoNames "shop")) _).
  cbn. lia.
Defined.

Lemma colNames2ResultFields_fields_witness :
  exists retType name,
    nth_error demoSchema 1 = Some retType
    /\ nth_error demoNames 1 = Some name
    /\ ci_O (rf_ColumnAsName
               (resultField 8 newCIStr "shop" retType name)) = "Total_Pr"%string
    /\ ci_O (rf_Column_Name
               (resultField 8 newCIStr "shop" retType name))
       = "Total_Price"%string.
Proof.
  destruct (colNames2ResultFields_fields 8 newCIStr demoSchema demoNames
              "shop" _ eq_refl 1%nat
              (resultField 8 newCIStr "shop"
                 (mkFieldType TypeNewDecimal 0 20 2)
                 (mkFieldName noName noName noName (newCIStr "Total_Price")
                    noName))
              eq_refl)
    as (retType & name & Hc & Hn & _).
  exists retType, name. split; [exact Hc|]. split; [exact Hn|].
  cbn in Hc, Hn. inversion Hc; inversion Hn; subst. split; reflexivity.
Defined.

(** ** The index names of the slow log *)

Lemma existsb_eqb_In (x : string) (l : list string) :
  existsb (String.eqb x) l = true <-> In x l.
Proof.
  rewrite existsb_exists. split.
  - intros (y & Hin & Heq). apply String.eqb_eq in Heq. subst. exact Hin.
  - intros Hin. exists x. split; [exact Hin|apply String.eqb_refl].
Qed.

Lemma firstOccurrencesFrom_In (names seen : list string) (x : string) :
  In x (firstOccurrencesFrom seen names) <-> In x names /\ ~ In x seen.
Proof.
  revert seen. induction names as [|y rest IH]; intros seen;
    cbn [firstOccurrencesFrom In]; [tauto|].
  destruct (existsb (String.eqb y) seen) eqn:Hy.
  - apply existsb_eqb_In in Hy. rewrite IH. split.
    + intros [H1 H2]. split; [right; exact H1|exact H2].
    + intros [[->|H1] H2]; [contradiction|split; assumption].
  - assert (Hny : ~ In y seen).
    { intros Hin. apply existsb_eqb_In in Hin. congruence. }
    cbn [In]. rewrite IH. cbn [In]. split.
    + intros [->|[H1 H2]]; [split; [left; reflexivity|exact Hny]|].
      split; [right; exact H1|tauto].
    + intros [[->|H1] H2]; [left; reflexivity|].
      destruct (string_dec y x) as [->|Hne]; [left; reflexivity|].
      right. split; [exact H1|]. intros [He|Hin]; [contradiction|tauto].
Qed.

Lemma firstOccurrencesFrom_NoDup (names seen : list string) :
  NoDup (firstOccurrencesFrom seen names).
Proof.
  revert seen. induction names as [|y rest IH]; intros seen;
    cbn [firstOccurrencesFrom]; [constructor|].
  destruct (existsb (String.eqb y) seen); [apply IH|].
  constructor; [|apply IH].
  rewrite firstOccurrencesFrom_In. cbn [In]. tauto.
Qed.

Lemma append_nil_r (s : string) : (s ++ "")%string = s.
Proof.
  induction s as [|c s IH]; cbn [append]; [reflexivity|].
  rewrite IH. reflexivity.
Qed.

Lemma append_assoc (a b c : string) :
  ((a ++ b) ++ c)%string = (a ++ (b ++ c))%string.
Proof.
  induction a as [|x a IH]; cbn [append]; [reflexivity|].
  rewrite IH. reflexivity.
Qed.

Lemma append_length (a b : string) :
  String.length (a ++ b) = (String.length a + String.length b)%nat.
Proof.
  induction a as [|x a IH]; cbn [append String.length]; [reflexivity|].
  rewrite IH. reflexivity.
Qed.

Lemma concat_empty_cons (a : string) (l : list string) :
  String.concat "" (a :: l) = (a ++ String.concat "" l)%string.
Proof.
  destruct l as [|b l]; cbn [String.concat append];
    [rewrite append_nil_r|]; reflexivity.
Qed.

(** Once the buffer holds more than the bracket, every new name goes in
    after a comma. *)
Lemma writeIndexNames_started (names seen : list string) (buf : string) :
  (1 < String.length buf)%nat ->
  writeIndexNames names seen buf
  = (buf ++ String.concat ""
              (map (fun x => "," ++ x) (firstOccurrencesFrom seen names)))%string.
Proof.
  revert seen buf. induction names as [|y rest IH]; intros seen buf Hlen;
    cbn [writeIndexNames firstOccurrencesFrom].
  - cbn [map String.concat]. rewrite append_nil_r. reflexivity.
  - destruct (existsb (String.eqb y) seen); [apply IH; exact Hlen|].
    apply Nat.ltb_lt in Hlen. rewrite Hlen. apply Nat.ltb_lt in Hlen.
    rewrite IH by (rewrite !append_length; lia).
    cbn [map]. rewrite concat_empty_cons, !append_assoc. reflexivity.
Qed.

Lemma concat_comma (x : string) (l : list string) :
  (x ++ String.concat "" (map (fun y => "," ++ y) l))%string
  = String.concat "," (x :: l).
Proof.
  revert x. induction l as [|y l IH]; intros x.
  - cbn [map String.concat]. apply append_nil_r.
  - cbn [map]. rewrite concat_empty_cons, append_assoc, IH. reflexivity.
Qed.

(** X18. For index names that begin with a non-empty name, the slow log
    shows them between brackets, separated by commas, each name once, in
    the order of first use.  An empty list gives the empty text. *)
Theorem slowLogIndexNames_distinct (first : string) (rest : list string) :
  first <> ""%string ->
  slowLogIndexNames (first :: rest)
  = ("[" ++ String.concat "," (firstOccurrences (first :: rest)) ++ "]")%string
  /\ NoDup (firstOccurrences (first :: rest))
  /\ (forall x, In x (firstOccurrences (first :: rest)) <-> In x (first :: rest))
  /\ slowLogIndexNames [] = ""%string.
Proof.
  intros Hne. split; [|split; [|split]].
  - unfold slowLogIndexNames, firstOccurrences.
    cbn [List.length Nat.ltb Nat.leb writeIndexNames firstOccurrencesFrom
         existsb String.length].
    rewrite writeIndexNames_started.
    + rewrite <- concat_comma, !append_assoc. reflexivity.
    + destruct first as [|c first]; [contradiction|]. cbn. lia.
  - apply firstOccurrencesFrom_NoDup.
  - intros x. unfold firstOccurrences. rewrite firstOccurrencesFrom_In.
    cbn [In]. tauto.
  - reflexivity.
Qed.

Lemma slowLogIndexNames_distinct_witness :
  slowLogIndexNames ["t:idx_a"; "t:PRIMARY"; "t:idx_a"]%string
  = "[t:idx_a,t:PRIMARY]"%string.
Proof.
  refine (eq_trans (proj1 (slowLogIndexNames_distinct "t:idx_a"
                             ["t:PRIMARY"; "t:idx_a"]%string _)) eq_refl).
  discriminate.
Defined.

(** ** The plan texts kept in the statement context *)

Section PlanCacheFacts.

Context {StmtCtx Plan FlatPlan Digest : Type}.
Variable GetPlan : StmtCtx -> option Plan.
Variable GetFlatPlan : StmtCtx -> option FlatPlan.
Variable SetFlatPlan : FlatPlan -> StmtCtx -> StmtCtx.
Variable GetBinaryPlan : StmtCtx -> string.
Variable SetBinaryPlan : string -> StmtCtx -> StmtCtx.
Variable GetPlanDigest : StmtCtx -> string * option Digest.
Variable SetPlanDigest : string -> option Digest -> StmtCtx -> StmtCtx.
Variable FlattenPhysicalPlan : Plan -> option FlatPlan.
Variable BinaryPlanStrFromFlatPlan : StmtCtx -> option FlatPlan -> string.
Variable NormalizeFlatPlan : option FlatPlan -> string * option Digest.

Hypothesis laws :
  accessorLaws GetPlan GetFlatPlan SetFlatPlan GetBinaryPlan SetBinaryPlan
    GetPlanDigest SetPlanDigest.

Abbreviation flatPlan := (getFlatPlan GetPlan GetFlatPlan SetFlatPlan
                        FlattenPhysicalPlan).
Abbreviation binaryPlan := (getBinaryPlan GetPlan GetFlatPlan SetFlatPlan
                          GetBinaryPlan SetBinaryPlan FlattenPhysicalPlan
                          BinaryPlanStrFromFlatPlan).
Abbreviation planDigest := (getPlanDigest GetPlan GetFlatPlan SetFlatPlan
                          GetPlanDigest SetPlanDigest FlattenPhysicalPlan
                          NormalizeFlatPlan).

Abbreviation flatSettled := (flatSettled GetPlan GetFlatPlan).

Lemma getFlatPlan_settled (sc : StmtCtx) :
  flatSettled sc -> flatPlan sc = (fst (fst (flatPlan sc)), sc, []).
Proof.
  unfold getFlatPlan. intros [Hnone|[f Hf]].
  - rewrite Hnone. reflexivity.
  - rewrite Hf. destruct (GetPlan sc); reflexivity.
Qed.

Lemma getFlatPlan_settles (sc : StmtCtx) :
  (forall p, GetPlan sc = Some p -> FlattenPhysicalPlan p <> None) ->
  flatSettled (snd (fst (flatPlan sc)))
  /\ GetPlan (snd (fst (flatPlan sc))) = GetPlan sc
  /\ (List.length (snd (flatPlan sc)) <= 1)%nat
  /\ (flatSettled sc -> snd (flatPlan sc) = []).
Proof.
  destruct laws as (Hff & Hpf & _).
  intros Hflat. unfold getFlatPlan, flatSettled.
  destruct (GetPlan sc) as [p|] eqn:Hp; cbn [fst snd].
  - destruct (GetFlatPlan sc) as [f|] eqn:Hf; cbn [fst snd].
    + repeat split; [right; exists f; exact Hf|exact Hp|cbn; lia].
    + destruct (FlattenPhysicalPlan p) as [flat|] eqn:Hfl; cbn [fst snd].
      * repeat split;
          [right; exists flat; apply Hff|rewrite Hpf; exact Hp|cbn; lia|].
        intros [Hn|[f Hf']]; congruence.
      * exfalso. exact (Hflat p eq_refl Hfl).
  - repeat split; [left; exact Hp|exact Hp|cbn; lia].
Qed.

(** X19. [getFlatPlan] flattens the plan at most once per call, and not
    at all when the statement has no plan or a flat plan is stored.  A
    flat plan it returned is stored: the next call returns it again,
    makes no planner call and leaves the statement context as it is.  A
    flattening that yields nothing is not remembered, so the next call
    flattens again. *)
Theorem getFlatPlan_cached (sc : StmtCtx) :
  let get := getFlatPlan GetPlan GetFlatPlan SetFlatPlan FlattenPhysicalPlan in
  (List.length (snd (get sc)) <= 1)%nat
  /\ (GetPlan sc = None -> get sc = (None, sc, []))
  /\ (forall f, GetFlatPlan sc = Some f -> snd (get sc) = [])
  /\ (forall f,
        fst (fst (get sc)) = Some f ->
        get (snd (fst (get sc))) = (Some f, snd (fst (get sc)), []))
  /\ (forall p,
        GetPlan sc = Some p -> GetFlatPlan sc = None ->
        FlattenPhysicalPlan p = None ->
        get sc = (None, sc, [CallFlattenPhysicalPlan])).
Proof.
  destruct laws as (Hff & Hpf & _).
  cbv zeta. unfold getFlatPlan. repeat split.
  - destruct (GetPlan sc) as [p|]; [|cbn; lia].
    destruct (GetFlatPlan sc); [cbn; lia|].
    destruct (FlattenPhysicalPlan p); cbn; lia.
  - intros ->. reflexivity.
  - intros f ->. destruct (GetPlan sc); reflexivity.
  - intros f. destruct (GetPlan sc) as [p|] eqn:Hp; cbn [fst snd];
      [|discriminate].
    destruct (GetFlatPlan sc) as [f0|] eqn:Hf; cbn [fst snd].
    + intros H; inversion H; subst. rewrite Hp, Hf. reflexivity.
    + destruct (FlattenPhysicalPlan p) as [flat|] eqn:Hfl; cbn [fst snd];
        [|discriminate].
      intros H; inversion H; subst. rewrite Hpf, Hp, Hff. reflexivity.
  - intros p -> -> ->. reflexivity.
Qed.

Lemma filter_flatten_app (l1 l2 : list PlannerCall) :
  List.length (filter isFlattenCall (l1 ++ l2))
  = (List.length (filter isFlattenCall l1)
     + List.length (filter isFlattenCall l2))%nat.
Proof.
  rewrite filter_app, length_app. reflexivity.
Qed.

Lemma filter_flatten_le (l : list PlannerCall) :
  (List.length (filter isFlattenCall l) <= List.length l)%nat.
Proof.
  induction l as [|c l IH]; cbn [filter List.length]; [lia|].
  destruct (isFlattenCall c); cbn [List.length]; lia.
Qed.

Lemma getPlanDigest_settled (sc : StmtCtx) :
  flatSettled sc ->
  filter isFlattenCall (snd (planDigest sc)) = []
  /\ flatSettled (snd (fst (planDigest sc)))
  /\ GetPlan (snd (fst (planDigest sc))) = GetPlan sc.
Proof.
  destruct laws as (_ & _ & _ & _ & _ & _ & Hpd & Hfd).
  intros Hs. pose proof (getFlatPlan_settled sc Hs) as Hflat.
  assert (Hset : forall n d, flatSettled (SetPlanDigest n d sc)).
  { intros n d. destruct Hs as [Hn|[f Hf]]; [left|right].
    - rewrite Hpd. exact Hn.
    - exists f. rewrite Hfd. exact Hf. }
  unfold getPlanDigest.
  destruct (GetPlanDigest sc) as [normalized [d|]].
  - destruct (0 <? String.length normalized)%nat; cbn [fst snd].
    + repeat split; [exact Hs].
    + rewrite Hflat.
      destruct (NormalizeFlatPlan (fst (fst (flatPlan sc)))) as [n1 d1].
      cbn [fst snd app filter isFlattenCall].
      repeat split; [apply Hset|apply Hpd].
  - rewrite Hflat.
    destruct (NormalizeFlatPlan (fst (fst (flatPlan sc)))) as [n1 d1].
    cbn [fst snd app filter isFlattenCall].
    repeat split; [apply Hset|apply Hpd].
Qed.

Lemma getBinaryPlan_settled (sc : StmtCtx) :
  flatSettled sc -> filter isFlattenCall (snd (binaryPlan sc)) = [].
Proof.
  intros Hs. pose proof (getFlatPlan_settled sc Hs) as Hflat.
  unfold getBinaryPlan.
  destruct (0 <? String.length (GetBinaryPlan sc))%nat; [reflexivity|].
  rewrite Hflat. reflexivity.
Qed.

(** X20. The plan getters of [LogSlowQuery] share one flattening: when
    the plan, if the statement has one, can be flattened,
    [FlattenPhysicalPlan] is called at most once for the flat plan, the
    plan digest and the binary plan together, and not at all when a flat
    plan was stored beforehand. *)
Theorem slow_log_flattens_once (GenerateBinaryPlan : bool) (sc : StmtCtx) :
  (forall p, GetPlan sc = Some p -> FlattenPhysicalPlan p <> None) ->
  let calls :=
    snd (slowLogPlans GetPlan GetFlatPlan SetFlatPlan GetBinaryPlan
           SetBinaryPlan GetPlanDigest SetPlanDigest FlattenPhysicalPlan
           BinaryPlanStrFromFlatPlan NormalizeFlatPlan GenerateBinaryPlan sc) in
  (List.length (filter isFlattenCall calls) <= 1)%nat
  /\ ((exists f, GetFlatPlan sc = Some f) ->
      filter isFlattenCall calls = []).
Proof.
  intros Hflat. cbv zeta.
  destruct (getFlatPlan_settles sc Hflat) as (Hs1 & Hp1 & Hlen1 & Hnone1).
  unfold slowLogPlans.
  destruct (flatPlan sc) as [[flat sc1] calls1] eqn:H1. cbn [fst snd] in *.
  destruct (getPlanDigest_settled sc1 Hs1) as (Hc2 & Hs2 & Hp2).
  destruct (planDigest sc1) as [[digest sc2] calls2] eqn:H2.
  cbn [fst snd] in *.
  pose proof (getBinaryPlan_settled sc2 Hs2) as Hc3.
  pose proof (filter_flatten_le calls1) as Hle.
  destruct GenerateBinaryPlan.
  - destruct (binaryPlan sc2) as [[b sc3] calls3] eqn:H3. cbn [fst snd] in *.
    rewrite !filter_app, Hc2, Hc3, !app_nil_r. split; [lia|].
    intros Hf. rewrite Hnone1; [reflexivity|right; exact Hf].
  - cbn [snd]. rewrite !filter_app, Hc2, !app_nil_r. split; [lia|].
    intros Hf. rewrite Hnone1; [reflexivity|right; exact Hf].
Qed.

End PlanCacheFacts.

Lemma demo_accessorLaws :
  accessorLaws sc_plan sc_flatPlan demoSetFlatPlan sc_binaryPlan
    demoSetBinaryPlan sc_planDigest demoSetPlanDigest.
Proof.
  repeat split.
Qed.

Lemma getFlatPlan_cached_witness :
  getFlatPlan sc_plan sc_flatPlan demoSetFlatPlan demoFlatten
    (demoSetFlatPlan 8 plannedCtx)
  = (Some 8%nat, demoSetFlatPlan 8 plannedCtx, []).
Proof.
  exact (proj1 (proj2 (proj2 (proj2
           (getFlatPlan_cached sc_plan sc_flatPlan demoSetFlatPlan
              sc_binaryPlan demoSetBinaryPlan sc_planDigest
              demoSetPlanDigest demoFlatten demo_accessorLaws plannedCtx))))
           8%nat eq_refl).
Defined.

Lemma slow_log_flattens_once_witness :
  (List.length
     (filter isFlattenCall
        (snd (slowLogPlans sc_plan sc_flatPlan demoSetFlatPlan sc_binaryPlan
                demoSetBinaryPlan sc_planDigest demoSetPlanDigest demoFlatten
                demoBinaryPlan demoNormalize true plannedCtx))) <= 1)%nat.
Proof.
  refine (proj1 (slow_log_flattens_once sc_plan
                   sc_flatPlan demoSetFlatPlan sc_binaryPlan demoSetBinaryPlan
                   sc_planDigest demoSetPlanDigest demoFlatten demoBinaryPlan
                   demoNormalize demo_accessorLaws true plannedCtx _)).
  intros p _. discriminate.
Defined.

(** * Further properties of the aggregate function signatures *)

(** X21. The table of [minimalDecimalLenForHoldingInteger] is right and
    tight for the binary integer types: the length it gives is the
    number of decimal digits of the largest unsigned value of the type,
    no more and no less.  Types that are neither a binary integer nor
    YEAR get the error and the length -1. *)
Theorem minimalDecimalLen_is_digit_count (tp : mysqlType) :
  (forall bytes,
      integerBytes tp = Some bytes ->
      exists n,
        minimalDecimalLenForHoldingInteger tp = (n, None)
        /\ 10 ^ (n - 1) <= 2 ^ (8 * bytes) - 1 < 10 ^ n)
  /\ (isIntegerType tp = false <->
      exists err, minimalDecimalLenForHoldingInteger tp = (-1, Some err))
  /\ (isIntegerType tp = true ->
      snd (minimalDecimalLenForHoldingInteger tp) = None
      /\ 0 < fst (minimalDecimalLenForHoldingInteger tp)).
Proof.
  split; [|split].
  - intros bytes Hb.
    destruct tp; cbn [integerBytes] in Hb; inversion Hb; subst;
      cbn [minimalDecimalLenForHoldingInteger]; eexists;
      (split; [reflexivity|]); split; vm_compute;
      first [reflexivity|discriminate].
  - split.
    + intros Hi. destruct tp; cbn in Hi; try discriminate;
        eexists; reflexivity.
    + intros [err He]. destruct tp; cbn in He |- *; try reflexivity;
        inversion He.
  - intros Hi. destruct tp; cbn in Hi |- *; try discriminate;
      split; (reflexivity || lia).
Qed.

(** X22. [adjustDecimalLenForSumInteger] changes nothing but the length,
    and never makes it longer, whatever [types.IsTypeInteger] holds to
    be an integer type.  The length changes only for a decimal whose
    argument was of an integer type the table knows; it then becomes the
    smaller of the old length and the digits of the integer type plus
    the decimals, so the digits before the point are the smaller of what
    there was and what the integer type needs.  A second call changes
    nothing more. *)
Theorem adjustDecimalLenForSumInteger_shrinks
  (IsTypeInteger : mysqlType -> bool) (ft : FieldType) (tpOld : mysqlType) :
  let ft' := adjustDecimalLenForSumInteger IsTypeInteger ft tpOld in
  ft_tp ft' = ft_tp ft /\ ft_flag ft' = ft_flag ft
  /\ ft_decimal ft' = ft_decimal ft
  /\ ft_flen ft' <= ft_flen ft
  /\ (ft_flen ft' < ft_flen ft ->
      IsTypeInteger tpOld = true /\ ft_tp ft = TypeNewDecimal
      /\ snd (minimalDecimalLenForHoldingInteger tpOld) = None)
  /\ (IsTypeInteger tpOld = true -> ft_tp ft = TypeNewDecimal ->
      snd (minimalDecimalLenForHoldingInteger tpOld) = None ->
      - 2 ^ 62 <= ft_decimal ft <= 2 ^ 62 ->
      ft_flen ft' - ft_decimal ft'
      = Z.min (ft_flen ft - ft_decimal ft)
              (fst (minimalDecimalLenForHoldingInteger tpOld)))
  /\ adjustDecimalLenForSumInteger IsTypeInteger ft' tpOld = ft'.
Proof.
  cbv zeta.
  assert (Hkeep : forall g,
             IsTypeInteger tpOld && isTypeNewDecimal (ft_tp g) = false
             \/ snd (minimalDecimalLenForHoldingInteger tpOld) <> None ->
             adjustDecimalLenForSumInteger IsTypeInteger g tpOld = g).
  { intros g Hg. unfold adjustDecimalLenForSumInteger.
    destruct (IsTypeInteger tpOld && isTypeNewDecimal (ft_tp g));
      [|reflexivity].
    destruct (minimalDecimalLenForHoldingInteger tpOld) as [n [e|]];
      [reflexivity|]. destruct Hg as [Hg|Hg]; [discriminate|].
    cbn [snd] in Hg. contradiction. }
  destruct (IsTypeInteger tpOld && isTypeNewDecimal (ft_tp ft)) eqn:Hgate;
    [destruct (minimalDecimalLenForHoldingInteger tpOld) as [n [e|]] eqn:Hmin|].
  - rewrite !Hkeep by (right; rewrite ?Hmin; cbn [snd]; discriminate).
    repeat split; try reflexivity; try lia.
    intros _ _ Hnone. cbn [snd] in Hnone. discriminate.
  - apply andb_true_iff in Hgate. destruct Hgate as [Hint Hdec].
    assert (Htp : ft_tp ft = TypeNewDecimal)
      by (destruct (ft_tp ft); cbn in Hdec; congruence).
    assert (Hn : 0 < n <= 20)
      by (destruct tpOld; cbn in Hmin; inversion Hmin; lia).
    assert (Hstep : forall g,
               ft_tp g = TypeNewDecimal ->
               adjustDecimalLenForSumInteger IsTypeInteger g tpOld
               = SetFlen (Z.min (ft_flen g) (wrap_int64 (n + ft_decimal g))) g).
    { intros g Hg. unfold adjustDecimalLenForSumInteger.
      rewrite Hint, Hg, Hmin. reflexivity. }
    rewrite Hstep by exact Htp.
    set (m := Z.min (ft_flen ft) (wrap_int64 (n + ft_decimal ft))).
    rewrite Hstep by exact Htp.
    cbn [SetFlen ft_tp ft_flag ft_flen ft_decimal fst snd].
    split; [reflexivity|]. split; [reflexivity|]. split; [reflexivity|].
    split; [unfold m; lia|].
    split; [intros _; repeat split; [exact Hint|exact Htp]|].
    split.
    + intros _ _ _ Hrange. unfold m, wrap_int64.
      rewrite Z.mod_small by lia. lia.
    + unfold SetFlen. cbn [ft_tp ft_flag ft_decimal]. f_equal. unfold m. lia.
  - rewrite !Hkeep by (left; exact Hgate).
    split; [reflexivity|]. split; [reflexivity|]. split; [reflexivity|].
    split; [lia|]. split; [lia|]. split; [|reflexivity].
    intros Hint Htp _ _. rewrite Hint, Htp in Hgate. discriminate.
Qed.

Lemma minimalDecimalLen_is_digit_count_witness :
  exists n,
    minimalDecimalLenForHoldingInteger TypeLonglong = (n, None)
    /\ 10 ^ (n - 1) <= 2 ^ (8 * 8) - 1 < 10 ^ n.
Proof.
  exact (proj1 (minimalDecimalLen_is_digit_count TypeLonglong) 8 eq_refl).
Defined.

Lemma adjustDecimalLenForSumInteger_shrinks_witness :
  ft_flen (adjustDecimalLenForSumInteger isIntegerType
             (mkFieldType TypeNewDecimal 0 65 0) TypeLong)
  - 0
  = Z.min (65 - 0) 10.
Proof.
  refine (proj1 (proj2 (proj2 (proj2 (proj2 (proj2
            (adjustDecimalLenForSumInteger_shrinks isIntegerType
               (mkFieldType TypeNewDecimal 0 65 0) TypeLong))))))
            eq_refl eq_refl eq_refl _).
  cbn. lia.
Defined.

(** X23. [typeInfer4ApproxPercentile] never indexes its arguments out
    of range.  It accepts the call exactly when there are two
    arguments, the second is a constant and evaluates without error to
    a non-null integer from 1 to 100.  A refused call leaves the
    descriptor as it was; an accepted one sets the return type and
    nothing else, and for a decimal first argument that type has the
    largest decimal width and between 0 and [MaxDecimalScale] decimals,
    those of the argument when they lie in that range. *)
Theorem typeInfer4ApproxPercentile_validates
  (NewFieldType : mysqlType -> FieldType)
  (MaxDecimalWidth MaxDecimalScale NotNullFlag : Z)
  (Sprintf_d : Z -> string) (a : baseFuncDesc) :
  0 <= MaxDecimalScale ->
  exists err a',
    typeInfer4ApproxPercentile NewFieldType MaxDecimalWidth MaxDecimalScale
      NotNullFlag Sprintf_d a = Some (err, a')
    /\ (err = None <->
        exists arg0 arg1 percent,
          Args a = [arg0; arg1] /\ expr_ConstItem arg1 = true
          /\ expr_EvalInt arg1 = (percent, false, None)
          /\ 1 <= percent <= 100)
    /\ (err <> None -> a' = a)
    /\ (err = None ->
        Name a' = Name a /\ Args a' = Args a
        /\ exists ft,
             RetTp a' = Some ft
             /\ forall arg0,
                  nth_error (Args a) 0 = Some arg0 ->
                  ft_tp (expr_GetType arg0) = TypeNewDecimal ->
                  ft_flen ft = MaxDecimalWidth
                  /\ 0 <= ft_decimal ft <= MaxDecimalScale
                  /\ (0 <= ft_decimal (expr_GetType arg0) <= MaxDecimalScale ->
                      ft_decimal ft = ft_decimal (expr_GetType arg0))).
Proof.
  intros Hscale. unfold typeInfer4ApproxPercentile.
  destruct (Args a) as [|arg0 [|arg1 [|arg2 rest]]] eqn:Hargs;
    cbn [List.length Nat.eqb negb nth_error];
    try (eexists; eexists; split; [reflexivity|];
         split; [split; [discriminate|intros (x0 & x1 & p & Hx & _);
                                      discriminate]|];
         split; [reflexivity|discriminate]).
  assert (Hrefuse : forall msg,
            (Some (ErrNew msg) = None <->
             exists x0 x1 percent,
               [arg0; arg1] = [x0; x1] /\ expr_ConstItem x1 = true
               /\ expr_EvalInt x1 = (percent, false, None)
               /\ 1 <= percent <= 100) ->
            exists err a',
              Some (Some (ErrNew msg), a) = Some (err, a')
              /\ (err = None <->
                  exists x0 x1 percent,
                    [arg0; arg1] = [x0; x1] /\ expr_ConstItem x1 = true
                    /\ expr_EvalInt x1 = (percent, false, None)
                    /\ 1 <= percent <= 100)
              /\ (err <> None -> a' = a)
              /\ (err = None ->
                  Name a' = Name a /\ Args a' = [arg0; arg1]
                  /\ exists ft,
                       RetTp a' = Some ft
                       /\ forall x0,
                            Some arg0 = Some x0 ->
                            ft_tp (expr_GetType x0) = TypeNewDecimal ->
                            ft_flen ft = MaxDecimalWidth
                            /\ 0 <= ft_decimal ft <= MaxDecimalScale
                            /\ (0 <= ft_decimal (expr_GetType x0)
                                <= MaxDecimalScale ->
                                ft_decimal ft = ft_decimal (expr_GetType x0)))).
  { intros msg Hiff. eexists; eexists. split; [reflexivity|].
    split; [exact Hiff|]. split; [reflexivity|discriminate]. }
  destruct (expr_ConstItem arg1) eqn:Hconst; cbn [negb].
  2:{ apply Hrefuse. split; [discriminate|].
      intros (x0 & x1 & p & Hx & Hc & _). inversion Hx; subst. congruence. }
  destruct (expr_EvalInt arg1) as [[percent isNull] [e|]] eqn:Heval.
  { apply Hrefuse. split; [discriminate|].
    intros (x0 & x1 & p & Hx & _ & He & _). inversion Hx; subst. congruence. }
  destruct ((percent <=? 0) || (100 <? percent) || isNull) eqn:Hbad.
  { assert (Hno : ~ exists x0 x1 p,
                [arg0; arg1] = [x0; x1] /\ expr_ConstItem x1 = true
                /\ expr_EvalInt x1 = (p, false, None) /\ 1 <= p <= 100).
    { intros (x0 & x1 & p & Hx & _ & He & Hp). inversion Hx; subst.
      rewrite Heval in He. inversion He; subst. cbn [orb] in Hbad.
      rewrite orb_false_r in Hbad. apply orb_true_iff in Hbad.
      destruct Hbad as [Hb|Hb]; [apply Z.leb_le in Hb|apply Z.ltb_lt in Hb];
        lia. }
    destruct isNull; apply Hrefuse; (split; [discriminate|]);
      intros Hex; contradiction. }
  apply orb_false_iff in Hbad. destruct Hbad as [Hbad Hnull].
  apply orb_false_iff in Hbad. destruct Hbad as [Hlow Hhigh].
  apply Z.leb_gt in Hlow. apply Z.ltb_ge in Hhigh. subst isNull.
  eexists; eexists. split; [reflexivity|]. split; [|split].
  - split; [|reflexivity]. intros _. exists arg0, arg1, percent.
    repeat split; [exact Hconst|exact Heval|lia|lia].
  - intros Hne. contradiction.
  - intros _. cbn [setRetTp Name Args RetTp]. rewrite Hargs.
    split; [reflexivity|]. split; [reflexivity|].
    eexists. split; [reflexivity|].
    intros x0 Hx0 Hdec. inversion Hx0; subst x0.
    unfold approxPercentileRetTp. rewrite Hdec.
    cbn [SetDecimal SetFlen ft_tp ft_flag ft_flen ft_decimal].
    destruct (Z.ltb_spec (ft_decimal (expr_GetType arg0)) 0) as [Hneg|Hpos];
      cbn [orb].
    + cbn [SetDecimal ft_flen ft_decimal]. repeat split; lia.
    + destruct (Z.ltb_spec MaxDecimalScale (ft_decimal (expr_GetType arg0)))
        as [Hbig|Hfit]; cbn [SetDecimal ft_flen ft_decimal];
        repeat split; lia.
Qed.

Lemma typeInfer4ApproxPercentile_validates_witness :
  exists err a',
    typeInfer4ApproxPercentile newFieldType 65 30 1 (fun _ => "95"%string)
      approxPercentileOfPrice = Some (err, a')
    /\ err = None
    /\ RetTp a' = Some (mkFieldType TypeNewDecimal 0 65 2).
Proof.
  destruct (typeInfer4ApproxPercentile_validates newFieldType 65 30 1
              (fun _ => "95"%string) approxPercentileOfPrice)
    as (err & a' & Hrun & _); [lia|].
  exists err, a'. split; [exact Hrun|].
  cbv in Hrun. inversion Hrun; subst. split; reflexivity.
Defined.

(** ** The text of a function descriptor *)

Lemma writeArgs_joined (n : nat) (args : list Expression) :
  forall i buffer,
    (i + List.length args = n)%nat ->
    writeArgs i n args buffer
    = (buffer ++ String.concat ", " (map expr_String args))%string.
Proof.
  induction args as [|arg rest IH]; intros i buffer Hlen;
    cbn [writeArgs map List.length] in *.
  - cbn [String.concat]. rewrite append_nil_r. reflexivity.
  - rewrite IH by lia. destruct rest as [|arg' rest].
    + cbn [List.length] in Hlen.
      replace (i + 1 =? n)%nat with true
        by (symmetry; apply Nat.eqb_eq; lia).
      cbn [negb map String.concat]. rewrite append_nil_r. reflexivity.
    + cbn [List.length] in Hlen.
      replace (i + 1 =? n)%nat with false
        by (symmetry; apply Nat.eqb_neq; lia).
      cbn [negb map String.concat]. rewrite !append_assoc. reflexivity.
Qed.

(** X24. The text of a function descriptor is its name followed by the
    texts of its arguments between parentheses, separated by a comma and
    a space, with no separator after the last argument. *)
Theorem baseFuncDesc_String_joined (a : baseFuncDesc) :
  baseFuncDesc_String a
  = (Name a ++ "(" ++ String.concat ", " (map expr_String (Args a)) ++ ")")%string.
Proof.
  unfold baseFuncDesc_String.
  rewrite writeArgs_joined by reflexivity. rewrite !append_assoc. reflexivity.
Qed.

(** * Retry accounting along a run of conflicts *)

Lemma attemptOf_cons (ev : Event) (tr : Trace) :
  attemptOf (ev :: tr) = if isRetry ev then S (attemptOf tr) else attemptOf tr.
Proof.
  unfold attemptOf, countEvents. cbn [filter].
  destruct (isRetry ev); reflexivity.
Qed.

Lemma slotsAre_ext (c c' p p' : Phase -> Z) (a : ExecStmt) :
  (forall ph, wrap_int64 (c ph) = wrap_int64 (c' ph)) ->
  (forall ph, wrap_int64 (p ph) = wrap_int64 (p' ph)) ->
  slotsAre c p a -> slotsAre c' p' a.
Proof.
  intros Hc Hp H ph. rewrite (H ph), Hc, Hp. reflexivity.
Qed.

(** Runs one phase through the bookkeeping of a step. *)
Ltac slots_step H :=
  let ph := fresh "ph" in
  intros ph; pose proof (H ph) as Hph; destruct ph;
  cbn [phaseDurations addPhase setBuildFlags resetPhaseDurations_stmt
       incRetryCount phaseBuildDurations phaseOpenDurations
       phaseNextDurations phaseLockDurations] in Hph |- *;
  rewrite Hph; unfold addCurrent, foldCurrent; cbn [fst snd];
  rewrite ?wrap_int64_add_l, ?wrap_int64_add_r;
  repeat f_equal; try lia.

(** One [Next] call of [handleNoDelayExecutor] outside a read-only
    view. *)
Lemma counted_drive (e : Executor) (r : option error) (w : World)
  (cur prior : Phase -> Z) :
  readOnlyView (vars w) = false ->
  firstNextError e = Some r ->
  slotsAre cur prior (stmt w) ->
  exists w1,
    handleNoDelayExecutor e w = (w1, Ret (None, r))
    /\ vars w1 = vars w
    /\ retryCount (stmt w1) = retryCount (stmt w)
    /\ attemptOf (trace w1) = attemptOf (trace w)
    /\ slotsAre (fun ph => cur ph
                           + match ph with
                             | PhNext => firstNextTime e
                             | _ => 0
                             end)
         prior (stmt w1).
Proof.
  intros Hro Hfirst Hslots. unfold readOnlyView in Hro.
  apply orb_false_iff in Hro. destruct Hro as [Hsnap Hlow].
  unfold handleNoDelayExecutor. go_simpl. rewrite Hsnap, Hlow.
  rewrite !andb_false_r. go_simpl.
  unfold firstNextError, firstNextTime in *. unfold next.
  destruct (ex_nexts e) as [|t rest]; go_simpl.
  - inversion Hfirst; subst r.
    destruct (InRestrictedSQL (vars w)); go_simpl;
      (eexists; split; [reflexivity|]); cbn [vars stmt trace];
      rewrite retryCount_addPhase, !attemptOf_cons; cbn [isRetry];
      (repeat split; [slots_step Hslots]).
  - destruct (outcome t) as [[rows|err]|p]; inversion Hfirst; subst r;
      go_simpl;
      destruct (InRestrictedSQL (vars w)); go_simpl;
      (eexists; split; [reflexivity|]); cbn [vars stmt trace];
      rewrite retryCount_addPhase, !attemptOf_cons; cbn [isRetry];
      (repeat split; [slots_step Hslots]).
Qed.

(** A drive of [collectRows] over a script that ends in an error or
    runs to the end. *)
Lemma counted_collect (script : list (Timed NextOut)) :
  forall (fuel : nat) (e0 e : Executor) (req : Chunk) (acc : list Row)
         (w : World) (cur prior : Phase -> Z),
    ex_nexts e = script ->
    (List.length script < fuel)%nat ->
    slotsAre cur prior (stmt w) ->
    forall r,
      (exists err, driveError script = Some err /\ r = (None, Some err))
      \/ (exists rows,
            cleanRows script = Some rows
            /\ r = (Some (RSRows (mkChunkRowRecordSet (acc ++ rows) 0 e0)),
                    None)) ->
      exists w',
        collectRows fuel e0 e req acc w = (w', Ret r)
        /\ vars w' = vars w
        /\ retryCount (stmt w') = retryCount (stmt w)
        /\ attemptOf (trace w') = attemptOf (trace w)
        /\ slotsAre (fun ph => cur ph
                               + match ph with
                                 | PhNext => driveTime (ex_eofElapsed e) script
                                 | _ => 0
                                 end)
             prior (stmt w').
Proof.
  induction script as [|t rest IH];
    intros fuel e0 e req acc w cur prior Hscript Hfuel Hslots r Hr;
    (destruct fuel as [|fuel]; [cbn in Hfuel; lia|]);
    cbn [collectRows]; unfold next; rewrite Hscript; go_simpl.
  - destruct Hr as [(err & Herr & _)|(rows & Hrows & ->)];
      [cbn in Herr; discriminate|].
    cbn in Hrows. inversion Hrows; subst rows.
    cbn [Chunk_NumRows Chunk_Reset chk_rows List.length Nat.eqb].
    rewrite app_nil_r.
    eexists. split; [reflexivity|]. cbn [vars stmt trace].
    rewrite retryCount_addPhase, attemptOf_cons. cbn [isRetry].
    repeat split. slots_step Hslots.
  - cbn [driveError cleanRows driveTime] in *.
    destruct (outcome t) as [[batch|err0]|p]; go_simpl.
    + unfold Chunk_NumRows, Chunk_AppendRows, Chunk_Reset.
      cbn [chk_rows app].
      destruct (List.length batch =? 0)%nat eqn:Hlen.
      * destruct Hr as [(err & Herr & _)|(rows & Hrows & ->)];
          [discriminate|].
        inversion Hrows; subst rows. rewrite app_nil_r.
        eexists. split; [reflexivity|]. cbn [vars stmt trace].
        rewrite retryCount_addPhase, attemptOf_cons. cbn [isRetry].
        repeat split. slots_step Hslots.
      * go_simpl.
        assert (Hs1 : slotsAre
                        (fun ph => cur ph
                                   + match ph with
                                     | PhNext => elapsed t
                                     | _ => 0
                                     end)
                        prior (addPhase PhNext (elapsed t) (stmt w)))
          by slots_step Hslots.
        assert (Hr' :
          (exists err, driveError rest = Some err /\ r = (None, Some err))
          \/ (exists rows,
                cleanRows rest = Some rows
                /\ r = (Some (RSRows (mkChunkRowRecordSet
                                        ((acc ++ batch) ++ rows) 0 e0)),
                        None))).
        { destruct Hr as [(err & Herr & ->)|(rows & Hrows & ->)].
          - left. exists err. split; [exact Herr|reflexivity].
          - right. destruct (cleanRows rest) as [rows'|]; [|discriminate].
            cbn in Hrows. inversion Hrows; subst rows.
            exists rows'. split; [reflexivity|].
            rewrite app_assoc. reflexivity. }
        match goal with
        | |- context [collectRows fuel e0 ?e1 ?req1 ?rows1 ?w1] =>
            destruct (IH fuel e0 e1 req1 rows1 w1 _ prior eq_refl
                        ltac:(cbn in Hfuel; lia) Hs1 r Hr')
              as (w' & Hrun & Hv & Hrc & Hatt & Hs')
        end.
        rewrite Hrun. exists w'. split; [reflexivity|].
        cbn [vars stmt trace] in *.
        rewrite retryCount_addPhase in Hrc.
        rewrite attemptOf_cons in Hatt. cbn [isRetry] in Hatt.
        repeat split; try assumption.
        revert Hs'. apply slotsAre_ext; intros ph; [|reflexivity].
        destruct ph; cbn [set_nexts ex_eofElapsed]; f_equal; lia.
    + destruct Hr as [(err & Herr & ->)|(rows & Hrows & _)];
        [|discriminate].
      inversion Herr; subst err.
      eexists. split; [reflexivity|]. cbn [vars stmt trace].
      rewrite retryCount_addPhase, attemptOf_cons. cbn [isRetry].
      repeat split. slots_step Hslots.
    + destruct Hr as [(err & Herr & _)|(rows & Hrows & _)]; discriminate.
Qed.

(** The same for [runPessimisticSelectForUpdate], which closes the tree
    on the way out. *)
Lemma counted_select_drive (e : Executor) (w : World)
  (cur prior : Phase -> Z) (r : option RecordSet * option error) :
  slotsAre cur prior (stmt w) ->
  (exists err, driveError (ex_nexts e) = Some err /\ r = (None, Some err))
  \/ (exists rows,
        cleanRows (ex_nexts e) = Some rows
        /\ r = (Some (RSRows (mkChunkRowRecordSet rows 0 e)), None)) ->
  exists w',
    runPessimisticSelectForUpdate e w = (w', Ret r)
    /\ vars w' = vars w
    /\ retryCount (stmt w') = retryCount (stmt w)
    /\ attemptOf (trace w') = attemptOf (trace w)
    /\ slotsAre (fun ph => cur ph
                           + match ph with
                             | PhNext =>
                                 driveTime (ex_eofElapsed e) (ex_nexts e)
                             | _ => 0
                             end)
         prior (stmt w').
Proof.
  intros Hslots Hr. unfold runPessimisticSelectForUpdate. go_simpl.
  destruct (counted_collect (ex_nexts e) (S (List.length (ex_nexts e)))
              e e (newFirstChunk e) [] w cur prior eq_refl
              (Nat.lt_succ_diag_r _) Hslots r Hr)
    as (w' & Hrun & Hv & Hrc & Hatt & Hs').
  rewrite Hrun. go_simpl. eexists. split; [reflexivity|].
  cbn [vars stmt trace]. rewrite attemptOf_cons. cbn [isRetry].
  repeat split; assumption.
Qed.

Section ConflictRunFacts.

Variable env : Env.
Variable N : nat.
Variable lockErr : error.
Variable exec : nat -> Executor.
Variable buildTime lockTime : nat -> Z.

Abbreviation opened := (openedTime exec buildTime).

(** The recovery step before the budget is spent: the retry begins, the
    current slots are folded into the prior ones, and attempt [i + 1] is
    built and opened. *)
Lemma granted_recovery (hasLock : bool) (i : nat) (w : World)
  (cur prior : Phase -> Z) :
  retriesGranted env N lockErr exec buildTime hasLock ->
  retryCount (stmt w) = Z.of_nat i ->
  (i < N)%nat ->
  attemptOf (trace w) = i ->
  slotsAre cur prior (stmt w) ->
  exists w3,
    handlePessimisticLockError env (Some lockErr) w
    = (w3, Ret (Some (exec (S i)), None))
    /\ vars w3 = vars w
    /\ retryCount (stmt w3) = Z.of_nat (S i)
    /\ attemptOf (trace w3) = S i
    /\ slotsAre (opened (S i)) (fun ph => prior ph + cur ph) (stmt w3).
Proof.
  intros (_ & _ & Hverdict & Hretry & Hts & Hbuild & Hopen & Hmax)
         Hrc Hi Hatt Hslots.
  rewrite handlePessimisticLockError_eq.
  unfold recoveryBody. go_simpl. rewrite Hverdict. go_simpl.
  replace (MaxRetryCount env <=? retryCount (stmt w)) with false
    by (symmetry; apply Z.leb_gt; lia).
  go_simpl. rewrite Hretry. go_simpl.
  match goal with
  | |- context [GetStmtForUpdateTS env ?tr] =>
      pose proof (Hts tr) as Hts';
      destruct (GetStmtForUpdateTS env tr) as [ts tsErr]
  end.
  cbn [snd] in Hts'. subst tsErr. go_simpl.
  unfold buildExecutor. go_simpl.
  match goal with
  | |- context [build env ?tr] =>
      destruct (Hbuild tr) as (b & Hb1 & Hb2 & Hb3 & Hb4 & Hb5);
      assert (Hatt' : attemptOf tr = S i)
        by (rewrite !attemptOf_cons; cbn [isRetry]; rewrite Hatt; reflexivity)
  end.
  rewrite Hb1. go_simpl. rewrite Hb2. go_simpl.
  rewrite Hatt' in *.
  destruct (b_isExecuteExec b) eqn:Hexe; [rewrite (Hb3 eq_refl)|];
    go_simpl; rewrite Hb4; unfold openExecutor; go_simpl;
    rewrite (Hopen (S i)); go_simpl; cbn [reportDeadlock];
    (eexists; split; [reflexivity|]); cbn [vars stmt trace];
    rewrite !retryCount_addPhase, !attemptOf_cons;
    cbn [isRetry setBuildFlags resetPhaseDurations_stmt incRetryCount
         retryCount];
    rewrite Hatt, Hrc, wrap_uint64_small by lia;
    (split; [reflexivity|]); (split; [lia|]); (split; [reflexivity|]);
    unfold openedTime; slots_step Hslots.
Qed.

(** One attempt of the DML loop: the drive and, if it succeeds, the
    locking of the keys.  Before attempt [N] what remains is the
    recovery step; attempt [N] ends the loop. *)
Lemma dml_attempt (fuel i : nat) (w : World) (prior : Phase -> Z) :
  dmlRun env N lockErr exec buildTime lockTime (vars w) ->
  (i <= N)%nat ->
  attemptOf (trace w) = i ->
  slotsAre (opened i) prior (stmt w) ->
  exists w2,
    vars w2 = vars w
    /\ retryCount (stmt w2) = retryCount (stmt w)
    /\ attemptOf (trace w2) = i
    /\ slotsAre (fun ph => attemptTime exec buildTime lockTime KindDML ph i)
         prior (stmt w2)
    /\ ((i < N)%nat ->
        pessimisticDMLLoop env (S fuel) (exec i) w
        = (rec <- handlePessimisticLockError env (Some lockErr) ;;
           afterLockError (pessimisticDMLLoop env fuel) rec) w2)
    /\ (i = N ->
        pessimisticDMLLoop env (S fuel) (exec i) w = (w2, Ret None)).
Proof.
  intros (_ & Hro & Hgranted & _ & _ & Hfail & Hlast & Hkeys & Hne & Hctx
          & Hlock) Hi Hatt Hslots.
  destruct Hgranted as (_ & Hvalid & _).
  assert (Hfirst : firstNextError (exec i) = Some None
                   \/ ((i < N)%nat
                       /\ firstNextError (exec i) = Some (Some lockErr))).
  { destruct (Nat.eq_dec i N) as [->|Hne']; [left; exact Hlast|].
    destruct (Hfail i ltac:(lia)) as [H|H]; [left; exact H|right].
    split; [lia|exact H]. }
  destruct Hfirst as [Hfirst|[HiN Hfirst]];
    destruct (counted_drive (exec i) _ w _ _ Hro Hfirst Hslots)
      as (w1 & Hd & Hv1 & Hrc1 & Hatt1 & Hs1);
    cbn [pessimisticDMLLoop]; go_simpl; rewrite Hd; go_simpl;
    rewrite Hvalid; go_simpl.
  - pose proof (Hkeys (trace w1)) as Hk.
    pose proof (Hne (trace w1) (EvKeysNeedToLock :: trace w1)) as Hne'.
    destruct (KeysNeedToLock env (trace w1)) as [keys kerr].
    cbn [fst snd] in *. subst kerr. go_simpl.
    destruct (CollectUnchangedLockKeys env (EvKeysNeedToLock :: trace w1) keys)
      as [|k ks] eqn:Hc; [contradiction|].
    cbn [List.length Nat.eqb]. rewrite Hctx. go_simpl.
    rewrite Hlock. go_simpl. rewrite !attemptOf_cons. cbn [isRetry].
    rewrite Hatt1, Hatt.
    assert (Hs2 : slotsAre
                    (fun ph => attemptTime exec buildTime lockTime KindDML ph i)
                    prior
                    (addPhase PhLock (lockTime i) (stmt w1))).
    { unfold attemptTime, reachesLock. rewrite Hfirst.
      unfold openedTime in Hs1. slots_step Hs1. }
    exists (mkWorld (addPhase PhLock (lockTime i) (stmt w1)) (vars w1)
              (EvLockKeys (filterLockTableKeys env
                             (filterTemporaryTableKeys env (k :: ks)))
                 (lockTime i) :: EvKeysNeedToLock :: trace w1)).
    cbn [vars stmt trace].
    split; [exact Hv1|]. split; [rewrite retryCount_addPhase; exact Hrc1|].
    split; [rewrite !attemptOf_cons; cbn [isRetry]; rewrite Hatt1; exact Hatt|].
    split; [exact Hs2|]. split.
    + intros HiN. apply Nat.ltb_lt in HiN. rewrite HiN. reflexivity.
    + intros ->. rewrite Nat.ltb_irrefl. reflexivity.
  - exists w1. split; [exact Hv1|]. split; [exact Hrc1|].
    split; [rewrite Hatt1; exact Hatt|]. split; [|split].
    + unfold attemptTime, reachesLock. rewrite Hfirst.
      unfold openedTime in Hs1. slots_step Hs1.
    + intros _. reflexivity.
    + intros ->. lia.
Qed.

Lemma dml_loop (k : nat) :
  forall (i fuel : nat) (w : World),
    (i + k = N)%nat ->
    (k < fuel)%nat ->
    dmlRun env N lockErr exec buildTime lockTime (vars w) ->
    retryCount (stmt w) = Z.of_nat i ->
    attemptOf (trace w) = i ->
    slotsAre (opened i)
      (fun ph => sumTo (attemptTime exec buildTime lockTime KindDML ph) i)
      (stmt w) ->
    exists w',
      pessimisticDMLLoop env fuel (exec i) w = (w', Ret None)
      /\ vars w' = vars w
      /\ retryCount (stmt w') = Z.of_nat N
      /\ attemptOf (trace w') = N
      /\ slotsAre (fun ph => attemptTime exec buildTime lockTime KindDML ph N)
           (fun ph => sumTo (attemptTime exec buildTime lockTime KindDML ph) N)
           (stmt w').
Proof.
  induction k as [|k IH]; intros i fuel w Hik Hfuel Hrun Hrc Hatt Hslots;
    (destruct fuel as [|fuel]; [lia|]);
    destruct (dml_attempt fuel i w _ Hrun ltac:(lia) Hatt Hslots)
      as (w2 & Hv2 & Hrc2 & Hatt2 & Hs2 & Hgo & Hstop).
  - assert (HiN : i = N) by lia. rewrite (Hstop HiN).
    exists w2. split; [reflexivity|]. split; [exact Hv2|].
    split; [rewrite Hrc2, Hrc, HiN; reflexivity|].
    split; [rewrite Hatt2; exact HiN|]. rewrite <- HiN. exact Hs2.
  - rewrite (Hgo ltac:(lia)). go_simpl.
    pose proof Hrun as (_ & _ & Hgranted & _).
    destruct (granted_recovery false i w2 _ _ Hgranted
                ltac:(rewrite Hrc2; exact Hrc) ltac:(lia) Hatt2 Hs2)
      as (w3 & Hrec & Hv3 & Hrc3 & Hatt3 & Hs3).
    rewrite Hrec. go_simpl. unfold afterLockError. go_simpl.
    destruct (IH (S i) fuel w3) as (w' & Hloop & Hv' & Hrest);
      try assumption; try lia.
    + rewrite Hv3, Hv2. exact Hrun.
    + exists w'. split; [exact Hloop|]. split; [|exact Hrest].
      rewrite Hv', Hv3, Hv2. reflexivity.
Qed.

Lemma sfu_loop (k : nat) :
  forall (i fuel : nat) (w : World),
    (i + k = N)%nat ->
    (k < fuel)%nat ->
    sfuRun env N lockErr exec buildTime (vars w) ->
    retryCount (stmt w) = Z.of_nat i ->
    attemptOf (trace w) = i ->
    slotsAre (opened i)
      (fun ph => sumTo (attemptTime exec buildTime lockTime
                          KindSelectForUpdate ph) i)
      (stmt w) ->
    exists w' rows,
      selectForUpdateLoop env fuel (exec i) w
      = (w', Ret (Some (RSRows (mkChunkRowRecordSet rows 0 (exec N))), None))
      /\ cleanRows (ex_nexts (exec N)) = Some rows
      /\ vars w' = vars w
      /\ retryCount (stmt w') = Z.of_nat N
      /\ attemptOf (trace w') = N
      /\ slotsAre
           (fun ph => attemptTime exec buildTime lockTime
                        KindSelectForUpdate ph N)
           (fun ph => sumTo (attemptTime exec buildTime lockTime
                               KindSelectForUpdate ph) N)
           (stmt w').
Proof.
  induction k as [|k IH]; intros i fuel w Hik Hfuel Hrun Hrc Hatt Hslots;
    (destruct fuel as [|fuel]; [lia|]);
    pose proof Hrun as (_ & _ & _ & _ & _ & Hgranted & Hfail & rows & Hlast);
    cbn [selectForUpdateLoop]; go_simpl.
  - assert (HiN : i = N) by lia.
    destruct (counted_select_drive (exec i) w _ _
                (Some (RSRows (mkChunkRowRecordSet rows 0 (exec i))), None)
                Hslots)
      as (w1 & Hd & Hv1 & Hrc1 & Hatt1 & Hs1).
    { right. exists rows. split; [rewrite HiN; exact Hlast|reflexivity]. }
    rewrite Hd. go_simpl. cbn [handlePessimisticLockError]. go_simpl.
    exists w1, rows. rewrite <- HiN.
    split; [reflexivity|]. split; [rewrite HiN; exact Hlast|].
    split; [exact Hv1|]. split; [rewrite Hrc1; exact Hrc|].
    split; [rewrite Hatt1; exact Hatt|].
    revert Hs1. apply slotsAre_ext; intros ph; [|reflexivity].
    destruct ph; cbv [openedTime attemptTime]; f_equal; lia.
  - destruct (counted_select_drive (exec i) w _ _ (None, Some lockErr) Hslots)
      as (w1 & Hd & Hv1 & Hrc1 & Hatt1 & Hs1).
    { left. exists lockErr. split; [apply Hfail; lia|reflexivity]. }
    rewrite Hd. go_simpl.
    assert (Hs1' : slotsAre
                     (fun ph => attemptTime exec buildTime lockTime
                                  KindSelectForUpdate ph i)
                     (fun ph => sumTo (attemptTime exec buildTime lockTime
                                         KindSelectForUpdate ph) i)
                     (stmt w1)).
    { revert Hs1. apply slotsAre_ext; intros ph; [|reflexivity].
      destruct ph; cbv [openedTime attemptTime]; f_equal; lia. }
    destruct (granted_recovery true i w1 _ _ Hgranted
                ltac:(rewrite Hrc1; exact Hrc) ltac:(lia)
                ltac:(rewrite Hatt1; exact Hatt) Hs1')
      as (w3 & Hrec & Hv3 & Hrc3 & Hatt3 & Hs3).
    rewrite Hrec. go_simpl.
    destruct (IH (S i) fuel w3) as (w' & rows' & Hloop & Hrows' & Hv' & Hrest);
      try assumption; try lia.
    + rewrite Hv3, Hv1. exact Hrun.
    + exists w', rows'. split; [exact Hloop|]. split; [exact Hrows'|].
      split; [|exact Hrest]. rewrite Hv', Hv3, Hv1. reflexivity.
Qed.

Lemma fresh_slots (a : ExecStmt) :
  (forall ph, phaseDurations ph a = (0, 0)) ->
  slotsAre (fun _ => 0) (fun _ => 0) a.
Proof. intros H ph. rewrite H. reflexivity. Qed.

Lemma isSelectForUpdate_addPhase (ph : Phase) (d : Z) (a : ExecStmt) :
  isSelectForUpdate (addPhase ph d a) = isSelectForUpdate a.
Proof. destruct ph; reflexivity. Qed.

Lemma isSelectForUpdate_setBuildFlags (f : option bool) (sfu : bool)
  (a : ExecStmt) :
  isSelectForUpdate (setBuildFlags f sfu a) = sfu.
Proof. reflexivity. Qed.

Lemma retryCount_setBuildFlags (f : option bool) (sfu : bool) (a : ExecStmt) :
  retryCount (setBuildFlags f sfu a) = retryCount a.
Proof. reflexivity. Qed.

(** The way out of [Exec] once the loop has returned: the trackers and
    the retry metric carry no retry and no duration. *)
Ltac exec_way_out :=
  unfold detachMemThenDisk, ExecDeferred; go_simpl;
  repeat match goal with
         | |- context [if ?c then _ else _] => destruct c; go_simpl
         end;
  (eexists; split; [reflexivity|]); cbn [stmt trace];
  rewrite ?attemptOf_cons; cbn [isRetry].

(** [Exec] up to the dispatch: the first build and [Open]. *)
Ltac exec_build_open Hb4 Hopen :=
  go_simpl; rewrite Hb4; unfold openExecutor; go_simpl;
  rewrite (Hopen 0%nat); go_simpl;
  rewrite !isSelectForUpdate_addPhase, isSelectForUpdate_setBuildFlags.

(** [Exec] on a DML run: first build and [Open], then the DML loop. *)
Lemma exec_dml (w : World) :
  trace w = [] ->
  retryCount (stmt w) = 0 ->
  (forall ph, phaseDurations ph (stmt w) = (0, 0)) ->
  dmlRun env N lockErr exec buildTime lockTime (vars w) ->
  exists w',
    Exec env w = (w', Ret (None, None))
    /\ retryCount (stmt w') = Z.of_nat N
    /\ attemptOf (trace w') = N
    /\ slotsAre (fun ph => attemptTime exec buildTime lockTime KindDML ph N)
         (fun ph => sumTo (attemptTime exec buildTime lockTime KindDML ph) N)
         (stmt w').
Proof.
  intros Htr Hrc Hph Hrun.
  pose proof Hrun as (Hpess & _ & Hgranted & Hschema & Hcheck & _).
  pose proof Hgranted as (Htxn & _ & _ & _ & _ & Hbuild & Hopen & Hmax).
  apply fresh_slots in Hph.
  assert (Hstart : forall f sfu,
            slotsAre (opened 0)
              (fun ph => sumTo (attemptTime exec buildTime lockTime KindDML ph) 0)
              (addPhase PhOpen (elapsed (ex_open (exec 0)))
                 (addPhase PhBuild (buildTime 0)
                    (setBuildFlags f sfu (stmt w))))).
  { intros f sfu. unfold openedTime. cbn [sumTo]. slots_step Hph. }
  rewrite Exec_eq. unfold ExecBody, buildExecutor. go_simpl.
  destruct (Hbuild (trace w)) as (b & Hb1 & Hb2 & Hb3 & Hb4 & Hb5).
  rewrite Hb1. go_simpl. rewrite Hb2. go_simpl. rewrite Hb5.
  rewrite Htr in *. change (attemptOf []) with 0%nat in *.
  destruct (b_isExecuteExec b); [rewrite (Hb3 eq_refl)|];
    exec_build_open Hb4 Hopen;
    cbn [andb]; rewrite andb_false_r; go_simpl;
    unfold handleNoDelay; go_simpl; rewrite Hcheck; cbn [fst snd];
    rewrite Hschema; cbn [Nat.eqb]; rewrite Hpess;
    unfold handlePessimisticDML; go_simpl; rewrite Htxn;
    match goal with
    | |- context [pessimisticDMLLoop env ?fuel (exec 0) ?w2] =>
        destruct (dml_loop N 0%nat fuel w2) as (w' & Hloop & _ & Hrc' & Hatt' & Hs')
    end;
    try (rewrite Hloop; go_simpl; exec_way_out; repeat split; assumption);
    cbn [stmt vars trace]; try assumption; try reflexivity;
    try (rewrite Htr; reflexivity);
    try (unfold retryFuel; cbn [stmt];
         rewrite !retryCount_addPhase, retryCount_setBuildFlags, Hrc; lia);
    try (rewrite !retryCount_addPhase, retryCount_setBuildFlags, Hrc;
         reflexivity);
    try apply Hstart.
Qed.

(** [Exec] on a select-for-update run. *)
Lemma exec_sfu (w : World) :
  trace w = [] ->
  retryCount (stmt w) = 0 ->
  (forall ph, phaseDurations ph (stmt w) = (0, 0)) ->
  sfuRun env N lockErr exec buildTime (vars w) ->
  exists w' rows,
    Exec env w
    = (w', Ret (Some (RSRows (mkChunkRowRecordSet rows 0 (exec N))), None))
    /\ retryCount (stmt w') = Z.of_nat N
    /\ attemptOf (trace w') = N
    /\ slotsAre
         (fun ph => attemptTime exec buildTime lockTime KindSelectForUpdate ph N)
         (fun ph => sumTo (attemptTime exec buildTime lockTime
                             KindSelectForUpdate ph) N)
         (stmt w').
Proof.
  intros Htr Hrc Hph Hrun.
  pose proof Hrun as (Hpess & Hsnap & Hdel & Hupd & Hins & Hgranted & _).
  pose proof Hgranted as (Htxn & _ & _ & _ & _ & Hbuild & Hopen & Hmax).
  apply fresh_slots in Hph.
  assert (Hstart : forall f sfu,
            slotsAre (opened 0)
              (fun ph => sumTo (attemptTime exec buildTime lockTime
                                  KindSelectForUpdate ph) 0)
              (addPhase PhOpen (elapsed (ex_open (exec 0)))
                 (addPhase PhBuild (buildTime 0)
                    (setBuildFlags f sfu (stmt w))))).
  { intros f sfu. unfold openedTime. cbn [sumTo]. slots_step Hph. }
  rewrite Exec_eq. unfold ExecBody, buildExecutor. go_simpl.
  destruct (Hbuild (trace w)) as (b & Hb1 & Hb2 & Hb3 & Hb4 & Hb5).
  rewrite Hb1. go_simpl. rewrite Hb2. go_simpl. rewrite Hb5.
  rewrite Htr in *. change (attemptOf []) with 0%nat in *.
  rewrite Hdel, Hupd, Hins.
  destruct (b_isExecuteExec b); [rewrite (Hb3 eq_refl)|];
    exec_build_open Hb4 Hopen;
    cbn [andb negb]; rewrite Hpess; cbn [andb];
    unfold handlePessimisticSelectForUpdate; go_simpl; rewrite Hsnap;
    cbn [Z.eqb negb];
    match goal with
    | |- context [selectForUpdateLoop env ?fuel (exec 0) ?w2] =>
        destruct (sfu_loop N 0%nat fuel w2)
          as (w' & rows & Hloop & _ & _ & Hrc' & Hatt' & Hs')
    end;
    try (rewrite Hloop; go_simpl; unfold ExecDeferred; go_simpl;
         exists (if 0 <? retryCount (stmt w')
                 then set_trace w' (EvObserveRetryCount (retryCount (stmt w'))
                                    :: trace w')
                 else w'), rows;
         destruct (0 <? retryCount (stmt w')); go_simpl;
         (split; [try reflexivity; destruct w'; reflexivity|]);
         cbn [stmt trace set_trace]; rewrite ?attemptOf_cons; cbn [isRetry];
         repeat split; assumption);
    cbn [stmt vars trace]; try assumption; try reflexivity;
    try (rewrite Htr; reflexivity);
    try (unfold retryFuel; cbn [stmt];
         rewrite !retryCount_addPhase, retryCount_setBuildFlags, Hrc; lia);
    try (rewrite !retryCount_addPhase, retryCount_setBuildFlags, Hrc;
         reflexivity);
    try apply Hstart.
Qed.

End ConflictRunFacts.



(** The same run in numbers: the slots of the lock phase. *)
Example two_conflicts_lock_slots :
  phaseLockDurations (stmt (fst (Exec envTwoConflicts world0))) = (5, 40)
  /\ sumTo (attemptTime (fun _ => insertOk) (fun _ => 11) lockTimeOf
              KindDML PhLock) 2 = 40
  /\ attemptTime (fun _ => insertOk) (fun _ => 11) lockTimeOf KindDML PhLock 2
     = 5.
Proof. vm_compute. repeat split; reflexivity. Qed.

(** A select-for-update run of one conflict: the environment of the
    statement, and the slots [Exec] leaves for the [Next] phase (the
    drive of the first attempt took 4 + 6, that of the second
    4 + 4 + 1). *)
Example select_for_update_run :
  conflictsThenSuccess envSelectRetry 1 ErrWriteConflict readerOfAttempt
    (fun _ => 11) (fun _ => 0) KindSelectForUpdate (vars worldSelect)
  /\ snd (Exec envSelectRetry worldSelect)
     = Ret (Some (RSRows (mkChunkRowRecordSet [[1]; [2]; [3]] 0 readerClean)),
            None)
  /\ phaseNextDurations (stmt (fst (Exec envSelectRetry worldSelect))) = (9, 10)
  /\ attemptTime readerOfAttempt (fun _ => 11) (fun _ => 0)
       KindSelectForUpdate PhNext 1 = 9
  /\ sumTo (attemptTime readerOfAttempt (fun _ => 11) (fun _ => 0)
              KindSelectForUpdate PhNext) 1 = 10.
Proof.
  split; [|vm_compute; repeat split; reflexivity].
  cbn [conflictsThenSuccess]. unfold sfuRun, retriesGranted.
  repeat split; try (intros; reflexivity); try (cbn; lia);
    try (intros tr; eexists; repeat split; try reflexivity;
         cbn; intros H; discriminate);
    try (intros [|i] Hi; [reflexivity|lia]);
    try (intros i; destruct i; reflexivity);
    try (eexists; reflexivity).
Qed.
